(** * pdf-processor: object model, resolver, page builder, tokenizer strings
      and trailer parsing, embedded from the TypeScript sources.

    JavaScript objects that are shared and mutated (the indirect objects of
    the object table, the rectangles of a page) live in explicit stores;
    everything that is only ever built and read (arrays, Maps, streams inside
    a value) is a plain tree.  Exceptions leave the store as it was at the
    throw, as in the source, which has no try/finally. *)

From stdpp Require Import gmap strings list pretty.
From Stdlib Require Import ZArith Lia.

Open Scope Z_scope.

Set Warnings "-register-all,-clear-no-such-hyp".

(** ** PDFTypes.ts *)

Record PDFIndirectReference := mkRef {
  ref_objectNumber : Z;
  ref_generationNumber : Z
}.

(** [PDFObject] is the union type of PDFTypes.ts.  An indirect object occurs
    in two ways: [OIndirect] is an object literal nobody else holds (what
    [deepResolve] builds when it copies), [OPtr k] is the very object stored
    in the object table under key [k], seen through whatever alias. *)
Inductive PDFObject :=
| ONull
| ONumber (n : Z)
| OBool (b : bool)
| OString (s : string)
| OArray (items : list PDFObject)
| ODict (entries : list (string * PDFObject))
| OStream (dictionary : list (string * PDFObject)) (data : string)
| ORef (r : PDFIndirectReference)
| OIndirect (objectNumber generationNumber : Z) (value : PDFObject)
| OPtr (loc : string).

Record PDFIndirectObject := mkObj {
  objectNumber : Z;
  generationNumber : Z;
  value : PDFObject
}.

(** A [Map<string, PDFObject>] keeps insertion order: an association list
    whose keys are pairwise distinct. *)
Abbreviation PDFDictionary := (list (string * PDFObject)).

Fixpoint dict_get (k : string) (d : PDFDictionary) : option PDFObject :=
  match d with
  | [] => None
  | (k', v) :: d' => if decide (k' = k) then Some v else dict_get k d'
  end.

Fixpoint dict_set (k : string) (v : PDFObject) (d : PDFDictionary) : PDFDictionary :=
  match d with
  | [] => [(k, v)]
  | (k', v') :: d' =>
      if decide (k' = k) then (k, v) :: d' else (k', v') :: dict_set k v d'
  end.

Definition dict_has (k : string) (d : PDFDictionary) : bool :=
  bool_decide (is_Some (dict_get k d)).

(** Induction over values that reaches below arrays and dictionaries. *)
Section PDFObject_ind.
Variable P : PDFObject → Prop.
Hypothesis Hnull : P ONull.
Hypothesis Hnum : ∀ n, P (ONumber n).
Hypothesis Hbool : ∀ b, P (OBool b).
Hypothesis Hstr : ∀ s, P (OString s).
Hypothesis Harr : ∀ items, Forall P items → P (OArray items).
Hypothesis Hdict : ∀ entries, Forall (λ kv, P kv.2) entries → P (ODict entries).
Hypothesis Hstream : ∀ d data, P (OStream d data).
Hypothesis Href : ∀ r, P (ORef r).
Hypothesis Hind : ∀ n g v, P v → P (OIndirect n g v).
Hypothesis Hptr : ∀ l, P (OPtr l).

Fixpoint PDFObject_deep_ind (o : PDFObject) : P o :=
  match o with
  | ONull => Hnull
  | ONumber n => Hnum n
  | OBool b => Hbool b
  | OString s => Hstr s
  | OArray items =>
      Harr items
        ((fix go (l : list PDFObject) : Forall P l :=
            match l with
            | [] => @List.Forall_nil _ P
            | x :: l' => @List.Forall_cons _ P x l' (PDFObject_deep_ind x) (go l')
            end) items)
  | ODict entries =>
      Hdict entries
        ((fix go (l : list (string * PDFObject)) : Forall (λ kv, P kv.2) l :=
            match l with
            | [] => @List.Forall_nil _ (λ kv, P kv.2)
            | (k, v) :: l' =>
                @List.Forall_cons _ (λ kv, P kv.2) (k, v) l' (PDFObject_deep_ind v) (go l')
            end) entries)
  | OStream d data => Hstream d data
  | ORef r => Href r
  | OIndirect n g v => Hind n g v (PDFObject_deep_ind v)
  | OPtr l => Hptr l
  end.
End PDFObject_ind.

(** ** Computations over a store that may throw

    The state survives a throw: the source has no try/finally, what was
    written before an exception stays written. *)
Inductive Outcome (E A : Type) :=
| Return (a : A)
| Throw (e : E).
Arguments Return {E A} a.
Arguments Throw {E A} e.

Definition SE (S E A : Type) : Type := S → S * Outcome E A.

Definition ret {S E A} (a : A) : SE S E A := λ st, (st, Return a).
Definition throw {S E A} (e : E) : SE S E A := λ st, (st, Throw e).
Definition bind {S E A B} (m : SE S E A) (f : A → SE S E B) : SE S E B :=
  λ st, match m st with
        | (st', Return a) => f a st'
        | (st', Throw e) => (st', Throw e)
        end.

Notation "'let!' x ':=' m 'in' k" := (bind m (λ x, k))
  (at level 10, x name, m at level 100, k at level 200).

(** ** PDFObjectResolver.ts *)
Module Resolver.

(** The three private fields.  [indirectObjectsMap] is at once the Map and
    the heap of the objects it holds: the table owns one object per key, and
    [OPtr k] names it.  [resolvedCache] maps a key to the object it cached,
    again by location. *)
Record PDFObjectResolver := mkResolver {
  indirectObjectsMap : gmap string PDFIndirectObject;
  resolvingStack : gset string;
  resolvedCache : gmap string string
}.

Definition constructor (m : gmap string PDFIndirectObject) : PDFObjectResolver :=
  {| indirectObjectsMap := m; resolvingStack := ∅; resolvedCache := ∅ |}.

(** The three errors the class throws; [DanglingPointer] stands for reading
    through an alias of an object that is not there, which JavaScript cannot
    do, and [OutOfFuel] for the bound on the recursion. *)
Inductive Error :=
| UnknownReference (key : string)
| CircularReference (key : string)
| UnknownObjectType
| DanglingPointer (loc : string)
| OutOfFuel.

Abbreviation M := (SE PDFObjectResolver Error).

(** `${objectNumber} ${generationNumber}` *)
Definition key_of (r : PDFIndirectReference) : string :=
  pretty (ref_objectNumber r) +:+ " " +:+ pretty (ref_generationNumber r).

Inductive PDFObjectType :=
| t_null | t_number | t_boolean | t_string | t_array | t_dictionary
| t_indirect_object | t_reference | t_stream.

Definition getPDFObjectType (o : PDFObject) : PDFObjectType :=
  match o with
  | ONull => t_null
  | ONumber _ => t_number
  | OBool _ => t_boolean
  | OString _ => t_string
  | OArray _ => t_array
  | OStream _ _ => t_stream
  | OIndirect _ _ _ | OPtr _ => t_indirect_object
  | ORef _ => t_reference
  | ODict _ => t_dictionary
  end.

Definition set_stack (s : gset string) (st : PDFObjectResolver) : PDFObjectResolver :=
  {| indirectObjectsMap := indirectObjectsMap st;
     resolvingStack := s;
     resolvedCache := resolvedCache st |}.

(** [pdfObject.value = v] on the object at location [l]. *)
Definition set_value (l : string) (v : PDFObject) (st : PDFObjectResolver) : PDFObjectResolver :=
  {| indirectObjectsMap :=
       match indirectObjectsMap st !! l with
       | Some o => <[l := {| objectNumber := objectNumber o;
                             generationNumber := generationNumber o;
                             value := v |}]> (indirectObjectsMap st)
       | None => indirectObjectsMap st
       end;
     resolvingStack := resolvingStack st;
     resolvedCache := resolvedCache st |}.

Definition cache_set (k l : string) (st : PDFObjectResolver) : PDFObjectResolver :=
  {| indirectObjectsMap := indirectObjectsMap st;
     resolvingStack := resolvingStack st;
     resolvedCache := <[k := l]> (resolvedCache st) |}.

(** [deepResolve], with the call back into [resolveIndirectReference] left
    open.  The branches are those of the if-chain on the tag; a value of one
    tag is never of the shape of another, so the last branch is not taken. *)
Definition deepResolve_with
    (resolve : PDFIndirectReference → bool → bool → M string)
    (silentlyResolveCircularReference : bool) : PDFObject → M PDFObject :=
  fix deepResolve (pdfObject : PDFObject) : M PDFObject :=
    let pdfObjectType := getPDFObjectType pdfObject in
    match pdfObjectType, pdfObject with
    | (t_string | t_boolean | t_null | t_number | t_stream), _ => ret pdfObject
    | t_array, OArray items =>
        let! items' :=
          (fix map (l : list PDFObject) : M (list PDFObject) :=
             match l with
             | [] => ret []
             | item :: l' =>
                 let! item' := deepResolve item in
                 let! l'' := map l' in
                 ret (item' :: l'')
             end) items in
        ret (OArray items')
    | t_dictionary, ODict entries =>
        let! entries' :=
          (fix map (l : PDFDictionary) : M PDFDictionary :=
             match l with
             | [] => ret []
             | (key, value) :: l' =>
                 let! value' := deepResolve value in
                 let! l'' := map l' in
                 ret ((key, value') :: l'')
             end) entries in
        ret (ODict entries')
    | t_indirect_object, OIndirect n g v => ret (OIndirect n g v)
    | t_indirect_object, OPtr l =>
        λ st, match indirectObjectsMap st !! l with
              | Some o => (st, Return (OIndirect (objectNumber o) (generationNumber o) (value o)))
              | None => (st, Throw (DanglingPointer l))
              end
    | t_reference, ORef r =>
        let! l := resolve r true silentlyResolveCircularReference in
        ret (OPtr l)
    | _, _ => throw UnknownObjectType
    end.

(** [resolveIndirectReference] from its second line on, [key] being what
    the first line built from the argument.  The result is the returned
    object's location.  [fuel] bounds the depth of nested calls. *)
Fixpoint resolve_at (fuel : nat) (key : string)
    (isDeepResolve silentlyResolveCircularReference : bool) : M string :=
  match fuel with
  | O => throw OutOfFuel
  | S fuel' =>
    λ st,
    match resolvedCache st !! key with
    | Some cached => (st, Return cached)
    | None =>
      match indirectObjectsMap st !! key with
      | None => (st, Throw (UnknownReference key))
      | Some pdfObject =>
        if decide (key ∈ resolvingStack st) then
          if silentlyResolveCircularReference
          then (st, Return key)
          else (st, Throw (CircularReference key))
        else
          let st1 := set_stack (resolvingStack st ∪ {[key]}) st in
          if isDeepResolve then
            match deepResolve_with (λ r, resolve_at fuel' (key_of r))
                    silentlyResolveCircularReference (value pdfObject) st1 with
            | (st2, Return v) =>
                let st3 := cache_set key key (set_value key v st2) in
                (set_stack (resolvingStack st3 ∖ {[key]}) st3, Return key)
            | (st2, Throw e) => (st2, Throw e)
            end
          else (set_stack (resolvingStack st1 ∖ {[key]}) st1, Return key)
      end
    end
  end.

Definition resolveIndirectReference (fuel : nat)
    (indirectReference : PDFIndirectReference)
    (isDeepResolve silentlyResolveCircularReference : bool) : M string :=
  let key := key_of indirectReference in
  resolve_at fuel key isDeepResolve silentlyResolveCircularReference.

Definition deepResolve (fuel : nat) : bool → PDFObject → M PDFObject :=
  deepResolve_with (resolveIndirectReference fuel).

(** *** What [deepResolve] walks over *)

(** The references [deepResolve] follows: those under arrays and
    dictionaries, not those inside a stream or inside an indirect object
    that is already there. *)
Fixpoint refs_of (o : PDFObject) : list PDFIndirectReference :=
  match o with
  | OArray items => flat_map refs_of items
  | ODict entries => flat_map (λ kv, refs_of kv.2) entries
  | ORef r => [r]
  | _ => []
  end.

(** The table objects [deepResolve] reads through an alias. *)
Fixpoint ptrs_of (o : PDFObject) : list string :=
  match o with
  | OArray items => flat_map ptrs_of items
  | ODict entries => flat_map (λ kv, ptrs_of kv.2) entries
  | OPtr l => [l]
  | _ => []
  end.

(** What [deepResolve] makes of a value [v]: a value [v'] with no
    reference left to follow, whose aliases are objects a resolution returned
    ([GL]), every reference of [v] having been resolved ([GR]). *)
Definition resolved (GL : string → Prop) (GR : PDFIndirectReference → Prop)
    (v v' : PDFObject) : Prop :=
  refs_of v' = [] ∧ Forall GL (ptrs_of v') ∧ Forall GR (refs_of v).

(** Identity of a stored object apart from its [value]. *)
Definition ids (o : PDFIndirectObject) : Z * Z := (objectNumber o, generationNumber o).

Definition same_ids (m m' : gmap string PDFIndirectObject) : Prop :=
  ∀ k, ids <$> (m' !! k) = ids <$> (m !! k).

(** Postcondition of a computation: [I] and [Q] after a return, [E] after a
    throw. *)
Definition post {A : Type} (I : PDFObjectResolver → Prop) (E : Error → PDFObjectResolver → Prop)
    (Q : A → Prop) (r : PDFObjectResolver * Outcome Error A) : Prop :=
  match r with
  | (st', Return a) => I st' ∧ Q a
  | (st', Throw e) => E e st'
  end.

(** *** The reference graph of a table *)

(** [k'] is referenced from the value stored under [k]. *)
Definition edge (T : gmap string PDFIndirectObject) (k k' : string) : Prop :=
  ∃ o r, T !! k = Some o ∧ r ∈ refs_of (value o) ∧ k' = key_of r.

(** A reference cycle can be reached from [k]. *)
Definition reaches_cycle (T : gmap string PDFIndirectObject) (k : string) : Prop :=
  ∃ k', rtc (edge T) k k' ∧ tc (edge T) k' k'.




(** What every call keeps true of a resolver built over [T]: the keys stay,
    the cache remembers an object under its own key, and an entry that is not
    cached is still the parsed one. *)
Record Inv (T : gmap string PDFIndirectObject) (st : PDFObjectResolver) : Prop := {
  inv_dom : dom (indirectObjectsMap st) = dom T;
  inv_cache : ∀ k l, resolvedCache st !! k = Some l → l = k;
  inv_raw : ∀ k, resolvedCache st !! k = None → indirectObjectsMap st !! k = T !! k
}.



(** The states a resolver over [T] can be in: fresh, or after any call. *)
Inductive reachable (T : gmap string PDFIndirectObject) : PDFObjectResolver → Prop :=
| reachable_fresh : reachable T (constructor T)
| reachable_call st fuel r deep silent st' out :
    reachable T st →
    resolveIndirectReference fuel r deep silent st = (st', out) →
    out ≠ Throw OutOfFuel →
    reachable T st'.

(** The object a location denotes. *)
Definition deref (st : PDFObjectResolver) (l : string) : option PDFIndirectObject :=
  indirectObjectsMap st !! l.

(** The object at [l] is still the one the table [T] was built with. *)
Definition raw_in (T : gmap string PDFIndirectObject) (st : PDFObjectResolver)
    (l : string) : Prop :=
  deref st l = T !! l.

(** A call that leaves every entry of the table as it was. *)
Definition table_unchanged_by (fuel : nat) (r : PDFIndirectReference)
    (deep silent : bool) (st : PDFObjectResolver) : Prop :=
  indirectObjectsMap (resolveIndirectReference fuel r deep silent st).1
  = indirectObjectsMap st.

(** A shallow call that hands out the entry of [r] as the table [T] was
    built with it, nested references and all. *)
Definition shallow_verbatim (T : gmap string PDFIndirectObject)
    (st : PDFObjectResolver) (r : PDFIndirectReference) : Prop :=
  ∃ fuel st' l,
    resolveIndirectReference fuel r false true st = (st', Return l) ∧
    deref st' l = T !! key_of r.

(** *** Tables of the test suite *)


(** Objects 30 and 31 of the test "should handle nested indirect objects
    correctly". *)
Definition table_nested : gmap string PDFIndirectObject :=
  <["30 0" := mkObj 30 0 (ORef (mkRef 31 0))]>
  (<["31 0" := mkObj 31 0 (OString "Nested indirect object")]> ∅).

(** Object 1 references a missing object before it references itself. *)
Definition table_dangling : gmap string PDFIndirectObject :=
  <["1 0" := mkObj 1 0 (OArray [ORef (mkRef 9 0); ORef (mkRef 1 0)])]> ∅.

(** While the key [k] is being resolved, whatever is resolved below it
    leaves [k] on the resolving stack and out of the cache, however it ends. *)
Definition in_progress (k : string) (st : PDFObjectResolver) : Prop :=
  k ∈ resolvingStack st ∧ resolvedCache st !! k = None ∧
  k ∈ dom (indirectObjectsMap st).

(** *** What a deep resolution leaves in the table *)

(** What [deepResolve] makes of a value that holds no alias of a table
    object: every reference it follows (under arrays and dictionaries, to any
    depth) gives way to the table's own object for its key; a stream, with
    whatever its dictionary holds, and an indirect object that is already
    there are handed on as they are. *)
Fixpoint pointed (v : PDFObject) : PDFObject :=
  match v with
  | OArray items => OArray (pointed <$> items)
  | ODict entries => ODict ((λ kv, (kv.1, pointed kv.2)) <$> entries)
  | ORef r => OPtr (key_of r)
  | _ => v
  end.

(** The entry of a key once it has been resolved: the numbers of the entry
    the table was built with, and what [deepResolve] makes of its value. *)
Definition settled (o : PDFIndirectObject) : PDFIndirectObject :=
  {| objectNumber := objectNumber o;
     generationNumber := generationNumber o;
     value := pointed (value o) |}.

(** No value of the table holds an object of the table itself where
    [deepResolve] looks: every link between two entries is a reference. *)
Definition alias_free (T : gmap string PDFIndirectObject) : Prop :=
  map_Forall (λ _ o, ptrs_of (value o) = []) T.

(** What every call keeps true of the cache of a resolver built over [T]:
    the entry of a cached key is settled; what a cached key references is
    cached too, or is being resolved; and no key that is being resolved is
    cached. *)
Record Settled (T : gmap string PDFIndirectObject) (st : PDFObjectResolver) : Prop := {
  settled_value : ∀ k, k ∈ dom (resolvedCache st) →
    ∃ o, T !! k = Some o ∧ indirectObjectsMap st !! k = Some (settled o);
  settled_next : ∀ k k', k ∈ dom (resolvedCache st) → edge T k k' →
    k' ∈ dom (resolvedCache st) ∨ k' ∈ resolvingStack st;
  settled_stack : ∀ k, k ∈ resolvingStack st → k ∉ dom (resolvedCache st)
}.


(** What a computation started in the state [st] has done when it is
    over: on a return the resolving stack is as it was and [Q] holds; the
    cache has only grown. *)
Definition step (T : gmap string PDFIndirectObject) (st : PDFObjectResolver) {A}
    (Q : PDFObjectResolver → A → Prop)
    (res : PDFObjectResolver * Outcome Error A) : Prop :=
  match res with
  | (st', Return a) =>
      Inv T st' ∧ Settled T st' ∧
      resolvingStack st' = resolvingStack st ∧
      dom (resolvedCache st) ⊆ dom (resolvedCache st') ∧
      Q st' a
  | (st', Throw _) =>
      Inv T st' ∧ Settled T st' ∧
      resolvingStack st ⊆ resolvingStack st' ∧
      dom (resolvedCache st) ⊆ dom (resolvedCache st')
  end.

(** A key has been dealt with: it is cached, or it was being resolved
    already. *)
Definition dealt_with (S : gset string) (st : PDFObjectResolver) (k : string) : Prop :=
  k ∈ dom (resolvedCache st) ∨ k ∈ S.

End Resolver.

(** ** PDFPage.ts *)
Module Page.
Import Resolver.

(** A JavaScript value as the constructor meets it: [None] is [undefined]. *)
Abbreviation JSValue := (option PDFObject).

(** ToBoolean. *)
Definition truthy (v : JSValue) : bool :=
  match v with
  | None | Some ONull => false
  | Some (ONumber n) => negb (n =? 0)
  | Some (OBool b) => b
  | Some (OString s) => negb (String.eqb s "")
  | Some _ => true
  end.

(** [v[i]]: an element of an array, a character of a string, [undefined] on
    anything else that is not null. *)
Definition js_index (v : PDFObject) (i : nat) : JSValue :=
  match v with
  | OArray items => items !! i
  | OString s => (λ c, OString (String c EmptyString)) <$> String.get i s
  | _ => None
  end.

(** [Rectangle] is a four-element array; the arrays themselves are mutable
    objects of the heap, a page holds their locations. *)
Abbreviation Rectangle := (list JSValue).

Record PDFResources := mkResources {
  Font : PDFObject;
  XObject : PDFObject;
  ExtGState : PDFObject;
  ColorSpace : PDFObject;
  Pattern : PDFObject;
  Shading : PDFObject;
  ProcSet : PDFObject;
  Properties : PDFObject
}.

(** The readonly fields.  The stream parser, the graphics engine and the
    parsed-content cache play no part in what follows. *)
Record PDFPage := mkPage {
  objectRef : PDFIndirectReference;
  rawDict : PDFDictionary;
  mediaBox : option nat;
  cropBox : option nat;
  bleedBox : option nat;
  trimBox : option nat;
  artBox : option nat;
  resources : PDFResources;
  contents : JSValue;
  annots : JSValue;
  rotate : PDFObject;
  userUnit : PDFObject;
  parent : JSValue
}.

Record World := mkWorld {
  resolver : PDFObjectResolver;
  heap : list Rectangle
}.

Inductive PageError :=
| ResolverError (e : Resolver.Error)
| TypeError (what : string).

Abbreviation PM := (SE World PageError).

(** An array literal: a new object at the next free location. *)
Definition alloc (rect : Rectangle) : PM nat :=
  λ w, ({| resolver := resolver w; heap := heap w ++ [rect] |}, Return (length (heap w))).

(** A call into the resolver. *)
Definition lift {A} (m : Resolver.M A) : PM A :=
  λ w, match m (resolver w) with
       | (st', Return a) => ({| resolver := st'; heap := heap w |}, Return a)
       | (st', Throw e) => ({| resolver := st'; heap := heap w |}, Throw (ResolverError e))
       end.

Definition resolveBox (dict : PDFDictionary) (boxName : string) : PM (option nat) :=
  let boxRef := dict_get boxName dict in
  if negb (truthy boxRef) then ret None
  else
    match boxRef with
    | Some b =>
        let! l := alloc [js_index b 0; js_index b 1; js_index b 2; js_index b 3] in
        ret (Some l)
    | None => ret None
    end.

(** The first line of [resolveIndirectReference] on an argument of any
    type: the template literal reads [objectNumber] and [generationNumber]
    off it. *)
Definition key_of_value (v : JSValue) : PM string :=
  match v with
  | None => throw (TypeError "Cannot read properties of undefined")
  | Some ONull => throw (TypeError "Cannot read properties of null")
  | Some (ORef r) => ret (key_of r)
  | Some (OIndirect n g _) => ret (key_of (mkRef n g))
  | Some (OPtr l) =>
      λ w, match deref (resolver w) l with
           | Some o => (w, Return (key_of (mkRef (objectNumber o) (generationNumber o))))
           | None => (w, Throw (ResolverError (DanglingPointer l)))
           end
  | Some _ => ret "undefined undefined"
  end.

(** [resolver.resolveIndirectReference(v, deep).value] *)
Definition resolve_value (fuel : nat) (v : JSValue) (deep : bool) : PM PDFObject :=
  let! key := key_of_value v in
  let! l := lift (resolve_at fuel key deep true) in
  λ w, match deref (resolver w) l with
       | Some o => (w, Return (value o))
       | None => (w, Throw (ResolverError (DanglingPointer l)))
       end.

(** [d.get(k)] on a value that is hoped to be a Map. *)
Definition method_get (d : PDFObject) (k : string) : PM JSValue :=
  match d with
  | ODict entries => ret (dict_get k entries)
  | ONull => throw (TypeError "Cannot read properties of null")
  | _ => throw (TypeError "get is not a function")
  end.

(** [v ?? null] *)
Definition or_null (v : JSValue) : PDFObject :=
  match v with
  | Some o => o
  | None => ONull
  end.

Definition resolveResources (fuel : nat) (dict : PDFDictionary) (this_parent : JSValue)
    : PM PDFResources :=
  let resourcesRef := dict_get "Resources" dict in
  let! resourcesRef :=
    if negb (truthy resourcesRef) && truthy this_parent then
      let! parentDict := resolve_value fuel this_parent false in
      if truthy (Some parentDict) then method_get parentDict "Resources"
      else ret resourcesRef
    else ret resourcesRef in
  let! resourcesDict := resolve_value fuel resourcesRef true in
  let! font := method_get resourcesDict "Font" in
  let! xobject := method_get resourcesDict "XObject" in
  let! extgstate := method_get resourcesDict "ExtGState" in
  let! colorspace := method_get resourcesDict "ColorSpace" in
  let! pattern := method_get resourcesDict "Pattern" in
  let! shading := method_get resourcesDict "Shading" in
  let! procset := method_get resourcesDict "ProcSet" in
  let! properties := method_get resourcesDict "Properties" in
  ret {| Font := or_null font; XObject := or_null xobject;
         ExtGState := or_null extgstate; ColorSpace := or_null colorspace;
         Pattern := or_null pattern; Shading := or_null shading;
         ProcSet := or_null procset; Properties := or_null properties |}.

(** [a || b] *)
Definition js_or (a : JSValue) (b : PDFObject) : PDFObject :=
  match a with
  | Some v => if truthy a then v else b
  | None => b
  end.

(** [new PDFPage(objectRef, dict, resolver)].  The constructors of
    ContentStreamParser (empty) and GraphicsEngine return normally. *)
Definition constructor (fuel : nat) (objectRef : PDFIndirectReference)
    (dict : PDFDictionary) : PM PDFPage :=
  let! this_mediaBox := resolveBox dict "MediaBox" in
  let! crop := resolveBox dict "CropBox" in
  let this_cropBox := match crop with Some l => Some l | None => this_mediaBox end in
  let! this_bleedBox := resolveBox dict "BleedBox" in
  let! this_trimBox := resolveBox dict "TrimBox" in
  let! this_artBox := resolveBox dict "ArtBox" in
  let this_parent := dict_get "Parent" dict in
  let! this_resources := resolveResources fuel dict this_parent in
  ret {| objectRef := objectRef;
         rawDict := dict;
         mediaBox := this_mediaBox;
         cropBox := this_cropBox;
         bleedBox := this_bleedBox;
         trimBox := this_trimBox;
         artBox := this_artBox;
         resources := this_resources;
         contents := dict_get "Contents" dict;
         annots := dict_get "Annots" dict;
         rotate := js_or (dict_get "Rotate" dict) (ONumber 0);
         userUnit := js_or (dict_get "UserUnit" dict) (ONumber 1);
         parent := this_parent |}.

(** [[...box]]: a new array with the elements of the one at [box]; spreading
    [undefined] throws. *)
Definition spread (box : option nat) : PM nat :=
  match box with
  | Some l =>
      λ w, match heap w !! l with
           | Some rect => alloc rect w
           | None => (w, Throw (TypeError "not iterable"))
           end
  | None => throw (TypeError "undefined is not iterable")
  end.

Definition getMediaBox (this : PDFPage) : PM (option nat) :=
  let! l := spread (mediaBox this) in ret (Some l).





Definition getRotation (this : PDFPage) : PDFObject := rotate this.

(** The five box getters, to range over them. *)
Inductive Box := MediaBox | CropBox | BleedBox | TrimBox | ArtBox.

Definition stored (this : PDFPage) (b : Box) : option nat :=
  match b with
  | MediaBox => mediaBox this
  | CropBox => cropBox this
  | BleedBox => bleedBox this
  | TrimBox => trimBox this
  | ArtBox => artBox this
  end.





(** The boxes of the page are arrays of the heap. *)
Definition page_allocated (this : PDFPage) (w : World) : Prop :=
  ∀ b l, stored this b = Some l → (l < length (heap w))%nat.

(** [rotate] is one of the four right angles. *)
Definition right_angle (v : PDFObject) : Prop :=
  v = ONumber 0 ∨ v = ONumber 90 ∨ v = ONumber 180 ∨ v = ONumber 270.

(** *** Pages of the examples *)

Definition fresh_world (T : gmap string PDFIndirectObject) : World :=
  {| resolver := Resolver.constructor T; heap := [] |}.

Definition letter : PDFObject :=
  OArray [ONumber 0; ONumber 0; ONumber 612; ONumber 792].

(** A page tree whose root carries the MediaBox and the Resources, as
    inheritance allows. *)
Definition table_inherit : gmap string PDFIndirectObject :=
  <["2 0" := mkObj 2 0 (ODict [("Type", OString "Pages");
                                ("Kids", OArray [ORef (mkRef 4 0)]);
                                ("Count", ONumber 1);
                                ("MediaBox", letter);
                                ("Resources", ORef (mkRef 3 0))])]>
  (<["3 0" := mkObj 3 0 (ODict [("ProcSet", OArray [OString "PDF"])])]> ∅).

(** A leaf of that tree with no MediaBox of its own. *)
Definition leaf_without_mediabox : PDFDictionary :=
  [("Type", OString "Page"); ("Parent", ORef (mkRef 2 0)); ("Contents", ORef (mkRef 10 0))].

(** A leaf with a MediaBox and Resources of its own. *)
Definition leaf_letter : PDFDictionary :=
  [("Type", OString "Page"); ("MediaBox", letter); ("Resources", ORef (mkRef 3 0))].

(** A leaf turned by 45 degrees. *)
Definition leaf_rotate_45 : PDFDictionary :=
  [("Type", OString "Page"); ("Parent", ORef (mkRef 2 0)); ("MediaBox", letter);
   ("Resources", ORef (mkRef 3 0)); ("Rotate", ONumber 45)].

(** *** The boxes, by the entry they are read from *)

(** The entry of the leaf dictionary a box is built from: its own, the
    crop box falling back on MediaBox. *)
Definition box_entry (dict : PDFDictionary) (b : Box) : JSValue :=
  match b with
  | MediaBox => dict_get "MediaBox" dict
  | CropBox =>
      if truthy (dict_get "CropBox" dict) then dict_get "CropBox" dict
      else dict_get "MediaBox" dict
  | BleedBox => dict_get "BleedBox" dict
  | TrimBox => dict_get "TrimBox" dict
  | ArtBox => dict_get "ArtBox" dict
  end.

(** *** ContentStreamParser.ts and the parsed-content cache *)

(** The two private fields of the cache; the parsed content is an array of
    any values. *)
Record ContentCache := mkCache {
  _parsedContent : option (list PDFObject);
  _isContentParsed : bool
}.

(** The fields as the class initialises them. *)
Definition new_cache : ContentCache :=
  {| _parsedContent := None; _isContentParsed := false |}.

Inductive ContentError :=
| MethodNotImplemented.

Abbreviation CM := (SE ContentCache ContentError).

Module ContentStreamParser.

Definition extractText (arg0 : list PDFObject) : CM string :=
  throw MethodNotImplemented.

Definition parse (contents : JSValue) (resources : PDFResources) : CM (list PDFObject) :=
  throw MethodNotImplemented.

End ContentStreamParser.

(** [if (!this._isContentParsed) { ... }], the start of both [render] and
    [getTextContent]. *)
Definition ensure_parsed (this : PDFPage) : CM (list PDFObject) :=
  λ cache,
    if negb (_isContentParsed cache) then
      (let! content := ContentStreamParser.parse (contents this) (resources this) in
       λ _, ({| _parsedContent := Some content; _isContentParsed := true |}, Return content))
        cache
    else (cache, Return (default [] (_parsedContent cache))).

Definition getTextContent (this : PDFPage) : CM string :=
  let! content := ensure_parsed this in
  ContentStreamParser.extractText content.

(** [render]: the transform and the call of the graphics engine, which is
    not part of these sources, come after the parsing; [paint] stands for
    them. *)
Definition render (paint : list PDFObject → CM unit) (this : PDFPage) : CM unit :=
  let! content := ensure_parsed this in
  paint content.

Definition clearContentCache : CM unit :=
  λ _, ({| _parsedContent := None; _isContentParsed := false |}, Return tt).

Definition isContentCached (cache : ContentCache) : bool := _isContentParsed cache.

(** The calls a user can make on the cache of a page. *)
Inductive ContentCall :=
| CallGetTextContent
| CallRender (paint : list PDFObject → CM unit)
| CallClearContentCache.

(** One call, its result forgotten, its error kept. *)
Definition content_call (this : PDFPage) (c : ContentCall) (cache : ContentCache)
    : ContentCache * option ContentError :=
  match c with
  | CallGetTextContent =>
      match getTextContent this cache with
      | (cache', Return _) => (cache', None)
      | (cache', Throw e) => (cache', Some e)
      end
  | CallRender paint =>
      match render paint this cache with
      | (cache', Return _) => (cache', None)
      | (cache', Throw e) => (cache', Some e)
      end
  | CallClearContentCache => ((clearContentCache cache).1, None)
  end.

End Page.

(** ** PDFTokenizer.ts: tokens *)

Inductive TokenType :=
| INTEGER | REAL | BOOLEAN | NAME | STRING | HEX_STRING
| ARRAY_START | ARRAY_END | DICT_START | DICT_END | NULL
| INDIRECT_REFERENCE | STREAM | OBJ_START | OBJ_END | KEYWORD | EOF | HEADER.

(** ** PDFTokenizer.ts: literal and hexadecimal strings *)
Module Tokenizer.

(** A JavaScript string is a sequence of 16-bit code units; a byte of the
    buffer is a number below 256. *)
Abbreviation JSString := (list Z).

Record PDFToken := mkToken {
  token_type : TokenType;
  token_value : JSString
}.

(** [bufferLength] is [length buffer]. *)
Record PDFTokenizer := mkTokenizer {
  buffer : list Z;
  position : nat
}.

Definition isEOF (this : PDFTokenizer) : bool :=
  bool_decide (length (buffer this) ≤ position this)%nat.

(** [this.buffer[this.position]]; every read of the two functions below is
    guarded by [isEOF], the value out of range is never looked at. *)
Definition current (this : PDFTokenizer) : Z :=
  default 0 (buffer this !! position this).

(** [this.position++] *)
Definition advance (this : PDFTokenizer) : PDFTokenizer :=
  {| buffer := buffer this; position := S (position this) |}.

Definition isWhitespace (byte : Z) : bool :=
  (byte =? 0) || (byte =? 9) || (byte =? 10) || (byte =? 12) || (byte =? 13) || (byte =? 32).

Definition isOctalDigit (byte : Z) : bool := (48 <=? byte) && (byte <=? 55).

(** *** parseInt and String.fromCharCode (ECMAScript) *)

(** StrWhiteSpaceChar. *)
Definition js_whitespace (c : Z) : bool :=
  (c =? 9) || (c =? 10) || (c =? 11) || (c =? 12) || (c =? 13) || (c =? 32) ||
  (c =? 160) || (c =? 5760) || ((8192 <=? c) && (c <=? 8202)) ||
  (c =? 8232) || (c =? 8233) || (c =? 8239) || (c =? 8287) || (c =? 12288) ||
  (c =? 65279).

Fixpoint trim_start (s : JSString) : JSString :=
  match s with
  | c :: s' => if js_whitespace c then trim_start s' else s
  | [] => []
  end.

(** The value of a digit or letter, if it is one. *)
Definition digit_value (c : Z) : option Z :=
  if (48 <=? c) && (c <=? 57) then Some (c - 48)
  else if (97 <=? c) && (c <=? 122) then Some (c - 87)
  else if (65 <=? c) && (c <=? 90) then Some (c - 55)
  else None.

(** The longest prefix of digits of the radix, read as a number; [None] when
    it is empty. *)
Fixpoint digits (radix : Z) (s : JSString) (acc : option Z) : option Z :=
  match s with
  | c :: s' =>
      match digit_value c with
      | Some d =>
          if d <? radix then digits radix s' (Some (default 0 acc * radix + d)) else acc
      | None => acc
      end
  | [] => acc
  end.

(** [parseInt(s, radix)] for a radix from 2 to 36; [None] is NaN. *)
Definition parseInt (s : JSString) (radix : Z) : option Z :=
  let s := trim_start s in
  let '(sign, s) :=
    match s with
    | 45 :: s' => (-1, s')
    | 43 :: s' => (1, s')
    | _ => (1, s)
    end in
  let s :=
    if radix =? 16 then
      match s with
      | 48 :: 120 :: s' | 48 :: 88 :: s' => s'
      | _ => s
      end
    else s in
  (λ n, sign * n) <$> digits radix s None.

(** [String.fromCharCode(n)]: ToUint16, NaN giving 0. *)
Definition fromCharCode (n : option Z) : Z :=
  match n with
  | Some n => n mod 65536
  | None => 0
  end.

(** *** readLiteralString *)

(** The variables of the while loop. *)
Record LiteralState := mkLiteral {
  lit_this : PDFTokenizer;
  lit_result : JSString;
  lit_depth : Z
}.

(** The characters of an octal escape whose first digit has been read:
    up to two more octal digits. *)
Definition read_octal (this : PDFTokenizer) (nextByte : Z) : PDFTokenizer * JSString :=
  let octal := [fromCharCode (Some nextByte)] in
  if negb (isEOF this) && isOctalDigit (current this) then
    let octal := octal ++ [fromCharCode (Some (current this))] in
    let this := advance this in
    if negb (isEOF this) && isOctalDigit (current this) then
      (advance this, octal ++ [fromCharCode (Some (current this))])
    else (this, octal)
  else (this, octal).

(** One turn of the loop; the flag tells that the loop was left by
    [break]. *)
Definition literal_body (s : LiteralState) : LiteralState * bool :=
  let this := lit_this s in
  let result := lit_result s in
  let depth := lit_depth s in
  let currentByte := current this in
  let this := advance this in
  if currentByte =? 40 then
    (mkLiteral this (result ++ [40]) (depth + 1), false)
  else if currentByte =? 41 then
    let depth := depth - 1 in
    (mkLiteral this (if 0 <? depth then result ++ [41] else result) depth, false)
  else if currentByte =? 92 then
    if isEOF this then (mkLiteral this result depth, true)
    else
      let nextByte := current this in
      let this := advance this in
      match nextByte with
      | 110 => (mkLiteral this (result ++ [10]) depth, false)
      | 114 => (mkLiteral this (result ++ [13]) depth, false)
      | 116 => (mkLiteral this (result ++ [9]) depth, false)
      | 98 => (mkLiteral this (result ++ [8]) depth, false)
      | 102 => (mkLiteral this (result ++ [12]) depth, false)
      | 40 => (mkLiteral this (result ++ [40]) depth, false)
      | 41 => (mkLiteral this (result ++ [41]) depth, false)
      | 92 => (mkLiteral this (result ++ [92]) depth, false)
      | 13 =>
          let this :=
            if negb (isEOF this) && (current this =? 10) then advance this else this in
          (mkLiteral this result depth, false)
      | 10 => (mkLiteral this result depth, false)
      | _ =>
          if (48 <=? nextByte) && (nextByte <=? 55) then
            let '(this, octal) := read_octal this nextByte in
            let charCode := parseInt octal 8 in
            (mkLiteral this (result ++ [fromCharCode charCode]) depth, false)
          else
            (mkLiteral this (result ++ [fromCharCode (Some nextByte)]) depth, false)
      end
  else
    (mkLiteral this (result ++ [fromCharCode (Some currentByte)]) depth, false).

(** [while (!this.isEOF() && depth > 0)] *)
Fixpoint literal_loop (fuel : nat) (s : LiteralState) : option LiteralState :=
  if negb (isEOF (lit_this s)) && (0 <? lit_depth s) then
    match fuel with
    | O => None
    | S fuel' =>
        let '(s', broke) := literal_body s in
        if broke then Some s' else literal_loop fuel' s'
    end
  else Some s.

(** The state the loop of [readLiteralString] ends in; [None] only for
    want of fuel. *)
Definition literal_scan (this : PDFTokenizer) : option LiteralState :=
  literal_loop (length (buffer this)) (mkLiteral (advance this) [] 1).

Definition readLiteralString (this : PDFTokenizer) : option (PDFTokenizer * PDFToken) :=
  s ← literal_scan this;
  Some (lit_this s, mkToken STRING (lit_result s)).

(** *** readHexString *)

Fixpoint hex_loop (fuel : nat) (this : PDFTokenizer) (hexString : JSString)
    : option (PDFTokenizer * JSString) :=
  if negb (isEOF this) && negb (current this =? 62) then
    match fuel with
    | O => None
    | S fuel' =>
        let currentByte := current this in
        let this := advance this in
        if negb (isWhitespace currentByte)
        then hex_loop fuel' this (hexString ++ [fromCharCode (Some currentByte)])
        else hex_loop fuel' this hexString
    end
  else Some (this, hexString).

(** The for loop over [hexString.substring(i, i + 2)]. *)
Fixpoint hex_to_binary (hexString : JSString) : JSString :=
  match hexString with
  | a :: b :: rest => fromCharCode (parseInt [a; b] 16) :: hex_to_binary rest
  | [a] => [fromCharCode (parseInt [a] 16)]
  | [] => []
  end.

Definition hex_scan (this : PDFTokenizer) : option (PDFTokenizer * JSString) :=
  hex_loop (length (buffer this)) (advance this) [].

Definition readHexString (this : PDFTokenizer) : option (PDFTokenizer * PDFToken) :=
  '(this, hexString) ← hex_scan this;
  let this := if negb (isEOF this) then advance this else this in
  let hexString :=
    if (Z.of_nat (length hexString) mod 2 =? 1) then hexString ++ [48] else hexString in
  Some (this, mkToken HEX_STRING (hex_to_binary hexString)).

(** A string literal, as bytes. *)
Definition bytes_of (s : string) : list Z :=
  (λ a, Z.of_N (Ascii.N_of_ascii a)) <$> String.list_ascii_of_string s.

(** "%PDF-1.4", a line feed, then the literal string (\777). *)
Definition buffer_octal_777 : list Z :=
  bytes_of "%PDF-1.4" ++ [10] ++ bytes_of "(\777)".

(** "%PDF-1.4", a line feed, then "(abc" and the end of the buffer. *)
Definition buffer_open_literal : list Z :=
  bytes_of "%PDF-1.4" ++ [10] ++ bytes_of "(abc".

(** "%PDF-1.4", a line feed, then "<4142" and the end of the buffer. *)
Definition buffer_open_hex : list Z :=
  bytes_of "%PDF-1.4" ++ [10] ++ bytes_of "<4142".

(** *** The rest of the class: cursor, byte classes, the other readers *)

(** The value of a token is of any type. *)
Inductive TokenValue :=
| VNull
| VNumber (n : option Z)
| VFloat (numberStr : JSString)
| VBool (b : bool)
| VString (s : JSString)
| VBuffer (data : list Z)
| VToken (type : TokenType) (value : TokenValue).

Record Token := mkTok {
  tok_type : TokenType;
  tok_value : TokenValue
}.

#[export] Instance TokenType_dec : EqDecision TokenType.
Proof. solve_decision. Defined.

Inductive TokenError :=
| InvalidPosition (position : Z)
| HeaderNotFound
| InvalidCharacter (position : nat)
| MissingEndstream
| OutOfFuel.

Abbreviation TM := (SE PDFTokenizer TokenError).

Class Utf8 := {
  toString : list Z → JSString;
  toString_ascii : ∀ bytes, Forall (λ b, 0 ≤ b < 128) bytes → toString bytes = bytes
}.

Definition getPosition (this : PDFTokenizer) : nat := position this.

Definition setPosition (position : Z) : TM unit :=
  λ this,
    if (position <? 0) || (Z.of_nat (length (buffer this)) <=? position)
    then (this, Throw (InvalidPosition position))
    else ({| buffer := buffer this; position := Z.to_nat position |}, Return tt).

Definition isEOL (byte : Z) : bool := (byte =? 13) || (byte =? 10).

Definition isDelimiter (byte : Z) : bool :=
  let delimiters := [40; 41; 60; 62; 91; 93; 123; 125; 47; 37] in
  bool_decide (byte ∈ delimiters).

Definition isHexDigit (byte : Z) : bool :=
  if (48 <=? byte) && (byte <=? 57) then true
  else if (65 <=? byte) && (byte <=? 70) then true
  else if (97 <=? byte) && (byte <=? 102) then true
  else false.

Definition isDigit (byte : Z) : bool := (48 <=? byte) && (byte <=? 57).

(** [this.buffer[i]], read only behind a bounds test. *)
Definition byteAt (this : PDFTokenizer) (i : nat) : Z := default 0 (buffer this !! i).

(** [this.position += n] *)
Definition advance_by (n : nat) (this : PDFTokenizer) : PDFTokenizer :=
  {| buffer := buffer this; position := n + position this |}.

(** [buffer.slice(start, end)] *)
Definition slice (start end_ : nat) (l : list Z) : list Z := take (end_ - start) (drop start l).

Fixpoint starts_with (pat l : list Z) : bool :=
  match pat, l with
  | [], _ => true
  | p :: pat', b :: l' => (p =? b) && starts_with pat' l'
  | _ :: _, [] => false
  end.

(** [buffer.indexOf(pat)]: where [pat] first occurs, [None] for -1. *)
Fixpoint indexOf (pat l : list Z) : option nat :=
  if starts_with pat l then Some O
  else match l with
       | [] => None
       | _ :: l' => S <$> indexOf pat l'
       end.

(** [buffer.indexOf(pat, byteOffset)] *)
Definition indexOf_from (pat l : list Z) (byteOffset : nat) : option nat :=
  (λ i, (byteOffset + i)%nat) <$> indexOf pat (drop byteOffset l).

(** [while (!this.isEOF() && cond(this.buffer[this.position])) this.position++] *)
Fixpoint advance_while (cond : Z → bool) (fuel : nat) (this : PDFTokenizer)
    : option PDFTokenizer :=
  if negb (isEOF this) && cond (current this) then
    match fuel with
    | O => None
    | S fuel' => advance_while cond fuel' (advance this)
    end
  else Some this.

(** A loop of the tokenizer, run with fuel for every byte of the buffer. *)
Definition scan (loop : nat → PDFTokenizer → option PDFTokenizer) : TM unit :=
  λ this, match loop (length (buffer this)) this with
          | Some this' => (this', Return tt)
          | None => (this, Throw OutOfFuel)
          end.

Definition get : TM PDFTokenizer := λ this, (this, Return this).
Definition move (f : PDFTokenizer → PDFTokenizer) : TM unit := λ this, (f this, Return tt).

(** The branch of [skipWhitespaceAndComments] for a comment: to the end of
    the line, then past the line end. *)
Definition skip_comment (fuel : nat) (this : PDFTokenizer) : option PDFTokenizer :=
  this ← advance_while (λ b, negb (isEOL b)) fuel this;
  Some (if negb (isEOF this) then
          if (current this =? 13)
             && bool_decide (position this + 1 < length (buffer this))%nat
             && (byteAt this (position this + 1) =? 10)
          then advance_by 2 this
          else advance this
        else this).

Fixpoint skip_loop (fuel : nat) (this : PDFTokenizer) : option PDFTokenizer :=
  if negb (isEOF this) then
    let currentByte := current this in
    if isWhitespace currentByte then
      match fuel with
      | O => None
      | S fuel' => skip_loop fuel' (advance this)
      end
    else if currentByte =? 37 then
      match fuel with
      | O => None
      | S fuel' => this ← skip_comment (length (buffer this)) this; skip_loop fuel' this
      end
    else Some this
  else Some this.

Definition skipWhitespaceAndComments : TM unit := scan skip_loop.

Section decoding.
Context `{Utf8}.

Definition pdfHeader : list Z := bytes_of "%PDF-".

Definition readHeader : TM Token :=
  λ this,
    match indexOf pdfHeader (buffer this) with
    | None => (this, Throw HeaderNotFound)
    | Some startPos =>
        match advance_while (λ b, negb (isEOL b)) (length (buffer this))
                {| buffer := buffer this; position := startPos + length pdfHeader |} with
        | Some at_end =>
            let endPos := position at_end in
            let header := toString (slice startPos endPos (buffer this)) in
            ({| buffer := buffer this; position := endPos |},
             Return (mkTok HEADER (VString header)))
        | None => (this, Throw OutOfFuel)
        end
    end.

Definition readNumber : TM Token :=
  let! this := get in
  let startPos := position this in
  let! _ := (if (current this =? 43) || (current this =? 45) then move advance else ret tt) in
  let! _ := scan (advance_while isDigit) in
  let! this := get in
  if negb (isEOF this) && (current this =? 46) then
    let! _ := move advance in
    let! _ := scan (advance_while isDigit) in
    let! this := get in
    let numberStr := toString (slice startPos (position this) (buffer this)) in
    ret (mkTok REAL (VFloat numberStr))
  else
    let numberStr := toString (slice startPos (position this) (buffer this)) in
    ret (mkTok INTEGER (VNumber (parseInt numberStr 10))).

Fixpoint name_loop (fuel : nat) (this : PDFTokenizer) : option PDFTokenizer :=
  if negb (isEOF this) && negb (isDelimiter (current this))
     && negb (isWhitespace (current this)) then
    match fuel with
    | O => None
    | S fuel' =>
        if (current this =? 35)
           && bool_decide (position this + 2 < length (buffer this))%nat
           && isHexDigit (byteAt this (position this + 1))
           && isHexDigit (byteAt this (position this + 2))
        then name_loop fuel' (advance_by 3 this)
        else name_loop fuel' (advance this)
    end
  else Some this.

(** The for loop over [rawName]. *)
Fixpoint decode_name (rawName : JSString) : JSString :=
  match rawName with
  | [] => []
  | c :: rest =>
      match rest with
      | a :: (b :: rest') =>
          if c =? 35 then fromCharCode (parseInt [a; b] 16) :: decode_name rest'
          else c :: decode_name rest
      | _ => c :: decode_name rest
      end
  end.

Definition readName : TM Token :=
  let! _ := move advance in
  let! this := get in
  let startPos := position this in
  let! _ := scan name_loop in
  let! this := get in
  let rawName := toString (slice startPos (position this) (buffer this)) in
  ret (mkTok NAME (VString (decode_name rawName))).

Definition readStream : TM Token :=
  let! _ := scan (advance_while isWhitespace) in
  let! this := get in
  let streamStart := position this in
  match indexOf_from (bytes_of "endstream") (buffer this) streamStart with
  | None => throw MissingEndstream
  | Some endStreamPos =>
      let streamData := slice streamStart endStreamPos (buffer this) in
      let! _ := move (λ this, {| buffer := buffer this; position := endStreamPos + 9 |}) in
      ret (mkTok STREAM (VBuffer streamData))
  end.

Definition readKeywordOrReference : TM Token :=
  let! this := get in
  let startPos := position this in
  let! _ := scan (advance_while (λ b, negb (isWhitespace b) && negb (isDelimiter b))) in
  let! this := get in
  let keyword := toString (slice startPos (position this) (buffer this)) in
  if bool_decide (keyword = bytes_of "true") then ret (mkTok BOOLEAN (VBool true))
  else if bool_decide (keyword = bytes_of "false") then ret (mkTok BOOLEAN (VBool false))
  else if bool_decide (keyword = bytes_of "null") then ret (mkTok NULL VNull)
  else if bool_decide (keyword = bytes_of "stream") then readStream
  else if bool_decide (keyword = bytes_of "obj") then ret (mkTok OBJ_START (VString (bytes_of "obj")))
  else if bool_decide (keyword = bytes_of "endobj")
       then ret (mkTok OBJ_END (VString (bytes_of "endobj")))
  else if bool_decide (keyword = bytes_of "R")
       then ret (mkTok INDIRECT_REFERENCE (VString (bytes_of "R")))
  else ret (mkTok KEYWORD (VString keyword)).

(** A reader of the strings part, as a step of [nextToken]. *)
Definition string_reader (read : PDFTokenizer → option (PDFTokenizer * PDFToken)) : TM Token :=
  λ this, match read this with
          | Some (this', t) => (this', Return (mkTok (token_type t) (VString (token_value t))))
          | None => (this, Throw OutOfFuel)
          end.

Definition nextToken : TM Token :=
  let! this := get in
  if (position this =? 0)%nat then
    (* readHeader returns an object or throws: [if (header)] always holds *)
    let! header := readHeader in
    ret (mkTok HEADER (VToken (tok_type header) (tok_value header)))
  else
    let! _ := skipWhitespaceAndComments in
    let! this := get in
    if isEOF this then ret (mkTok EOF VNull)
    else
      let currentByte := current this in
      if ((48 <=? currentByte) && (currentByte <=? 57))
         || (currentByte =? 43) || (currentByte =? 45) then readNumber
      else if currentByte =? 47 then readName
      else if currentByte =? 40 then string_reader readLiteralString
      else if currentByte =? 60 then
        if bool_decide (position this + 1 < length (buffer this))%nat
           && (byteAt this (position this + 1) =? 60)
        then let! _ := move (advance_by 2) in ret (mkTok DICT_START (VString (bytes_of "<<")))
        else string_reader readHexString
      else if currentByte =? 62 then
        if bool_decide (position this + 1 < length (buffer this))%nat
           && (byteAt this (position this + 1) =? 62)
        then let! _ := move (advance_by 2) in ret (mkTok DICT_END (VString (bytes_of ">>")))
        else throw (InvalidCharacter (position this))
      else if currentByte =? 91 then
        let! _ := move advance in ret (mkTok ARRAY_START (VString (bytes_of "[")))
      else if currentByte =? 93 then
        let! _ := move advance in ret (mkTok ARRAY_END (VString (bytes_of "]")))
      else readKeywordOrReference.

(** FileStructureParser.getAllTokens: the loop over [nextToken] up to the
    EOF token. *)
Fixpoint getAllTokens_loop (fuel : nat) (tokens : list Token) : TM (list Token) :=
  match fuel with
  | O => throw OutOfFuel
  | S fuel' =>
      let! token := nextToken in
      let tokens := tokens ++ [token] in
      if bool_decide (tok_type token = EOF) then ret tokens
      else getAllTokens_loop fuel' tokens
  end.

Definition getAllTokens (fuel : nat) : TM (list Token) := getAllTokens_loop fuel [].

End decoding.

(** A decoder for the examples: bytes that are not ASCII become U+FFFD. *)
Definition ascii_decoder : Utf8.
Proof.
  refine {| toString := λ bytes, (λ b, if (0 <=? b) && (b <? 128) then b else 65533) <$> bytes |}.
  intros bytes Hb. induction Hb as [|b l Hb _ IH]; [done|].
  rewrite fmap_cons, IH. f_equal.
  destruct (Z.leb_spec 0 b), (Z.ltb_spec b 128); simpl; lia.
Defined.

(** *** What the properties are stated with *)

(** The outcome of a reader: the buffer is kept and the cursor moves by at
    least [n]. *)
Definition moves {A} (n : nat) (r : PDFTokenizer * Outcome TokenError A)
    (this : PDFTokenizer) : Prop :=
  match r with
  | (this', Return _) => buffer this' = buffer this ∧ (position this + n ≤ position this')%nat
  | (_, Throw e) => e ≠ OutOfFuel
  end.

(** The cursor on the first byte of [l], behind [pre]. *)
Definition at_ (pre l : list Z) : PDFTokenizer := mkTokenizer (pre ++ l) (length pre).

(** What ends a run of bytes that pass [cond]: the end of the buffer, or a
    byte that fails it. *)
Definition ends (cond : Z → bool) (rest : list Z) : Prop :=
  match rest with
  | [] => True
  | b :: _ => cond b = false
  end.

(** The words [readKeywordOrReference] tells apart. *)
Definition reserved : list JSString :=
  bytes_of <$> ["true"; "false"; "null"; "stream"; "obj"; "endobj"; "R"]%string.

(** The number a sequence of decimal digits writes. *)
Definition decimal (ds : list Z) : Z := foldl (λ acc d, acc * 10 + d) 0 ds.

Definition digit_bytes (ds : list Z) : list Z := (λ d, 48 + d) <$> ds.

(** A byte that neither ends a keyword nor is white space. *)
Definition regular (b : Z) : bool := negb (isWhitespace b) && negb (isDelimiter b).

(** The value of a hexadecimal digit. *)
Definition hex_value (b : Z) : Z :=
  if (48 <=? b) && (b <=? 57) then b - 48
  else if (65 <=? b) && (b <=? 70) then b - 55
  else b - 87.

Definition hex_digits : list Z :=
  [48; 49; 50; 51; 52; 53; 54; 55; 56; 57; 65; 66; 67; 68; 69; 70; 97; 98; 99; 100; 101; 102].

Definition endstream : list Z := bytes_of "endstream".

(** A reader that never hands out a token of type EOF. *)
Definition never_EOF (m : TM Token) : Prop :=
  ∀ this this' tok, m this = (this', Return tok) → tok_type tok ≠ EOF.

(** *** Strings as they are written *)

(** A byte of a literal string as a writer escapes it: a backslash before
    a parenthesis or a backslash. *)
Definition escape (b : Z) : list Z :=
  if (b =? 40) || (b =? 41) || (b =? 92) then [92; b] else [b].

(** The digit a writer gives to a number below sixteen. *)
Definition hex_char (d : Z) : Z := if d <? 10 then 48 + d else 55 + d.

(** The two digits of each byte. *)
Definition hex_of (bs : list Z) : list Z :=
  flat_map (λ b, [hex_char (b / 16); hex_char (b mod 16)]) bs.

End Tokenizer.

(** ** FileStructureParser.ts *)
Module Parser.

(** A token as the tokenizer builds it: the type of its value is fixed by
    its TokenType.  Numbers are the integers, as in [PDFObject]. *)
Inductive PDFToken :=
| TInteger (n : Z)
| TReal (n : Z)
| TBoolean (b : bool)
| TName (s : string)
| TString (s : string)
| THexString (s : string)
| TArrayStart
| TArrayEnd
| TDictStart
| TDictEnd
| TNull
| TIndirectReference
| TStream (data : string)
| TObjStart
| TObjEnd
| TKeyword (s : string)
| TEOF
| THeader (s : string).

Definition type (t : PDFToken) : TokenType :=
  match t with
  | TInteger _ => INTEGER
  | TReal _ => REAL
  | TBoolean _ => BOOLEAN
  | TName _ => NAME
  | TString _ => STRING
  | THexString _ => HEX_STRING
  | TArrayStart => ARRAY_START
  | TArrayEnd => ARRAY_END
  | TDictStart => DICT_START
  | TDictEnd => DICT_END
  | TNull => NULL
  | TIndirectReference => INDIRECT_REFERENCE
  | TStream _ => STREAM
  | TObjStart => OBJ_START
  | TObjEnd => OBJ_END
  | TKeyword _ => KEYWORD
  | TEOF => EOF
  | THeader _ => HEADER
  end.

#[global] Instance TokenType_eq_dec : EqDecision TokenType.
Proof. solve_decision. Defined.

Record XRefEntry := mkXRefEntry {
  offset : Z;
  xref_generationNumber : Z;
  inUse : bool
}.

(** The fields of the object literal [parseTrailer] builds; [None] is
    [undefined]. *)
Record TrailerDictionary := mkTrailer {
  Size : option PDFObject;
  Root : option PDFObject;
  Info : option PDFObject;
  ID : option PDFObject;
  Encrypt : option PDFObject;
  Prev : option PDFObject;
  parsedDictionary : PDFObject
}.

Record FileStructureParser := mkParser {
  tokens : list PDFToken;
  currentTokenIndex : nat;
  indirectObjectsMap : gmap string PDFIndirectObject;
  objects : list PDFObject;
  xrefTable : gmap Z XRefEntry;
  trailer : option TrailerDictionary;
  version : string
}.

(** The tokens from the cursor on. *)
Definition remaining (this : FileStructureParser) : list PDFToken :=
  drop (currentTokenIndex this) (tokens this).

(** [new FileStructureParser(tokens)], the input being an array of tokens. *)
Definition constructor (input : list PDFToken) : FileStructureParser :=
  {| tokens := input; currentTokenIndex := 0; indirectObjectsMap := ∅;
     objects := []; xrefTable := ∅; trailer := None; version := "" |}.

Inductive Error :=
| Err (message : string)
| OutOfFuel.

Abbreviation M := (SE FileStructureParser Error).

Definition set_index (i : nat) (this : FileStructureParser) : FileStructureParser :=
  {| tokens := tokens this; currentTokenIndex := i;
     indirectObjectsMap := indirectObjectsMap this; objects := objects this;
     xrefTable := xrefTable this; trailer := trailer this; version := version this |}.

(** [this.currentTokenIndex++] *)
Definition skip : M unit :=
  λ this, (set_index (S (currentTokenIndex this)) this, Return tt).

(** [this.tokens[this.currentTokenIndex + k]] *)
Definition peek (k : nat) : M (option PDFToken) :=
  λ this, (this, Return (tokens this !! (currentTokenIndex this + k)%nat)).

Definition nextToken : M (option PDFToken) :=
  λ this,
    match tokens this !! currentTokenIndex this with
    | None => (this, Return None)
    | Some t => (set_index (S (currentTokenIndex this)) this, Return (Some t))
    end.

Definition backToken : M unit :=
  λ this,
    if (0 <? currentTokenIndex this)%nat
    then (set_index (currentTokenIndex this - 1) this, Return tt)
    else (this, Return tt).

Definition is_type (ty : TokenType) (t : option PDFToken) : bool :=
  match t with
  | Some t => bool_decide (type t = ty)
  | None => false
  end.

Definition is_keyword (k : string) (t : option PDFToken) : bool :=
  match t with
  | Some (TKeyword s) => bool_decide (s = k)
  | _ => false
  end.

(** The numeric value of a token that passed the INTEGER test. *)
Definition int_value (t : option PDFToken) : Z :=
  match t with
  | Some (TInteger n) => n
  | _ => 0
  end.

(** *** [parseInt(value, 10)] of a number

    The value of an INTEGER token is a number, and [parseInt] reads the
    digits [ToString] writes it with.  An integer below 10^21 is written with
    all its digits, and they read back as the number.  From 10^21 on
    [ToString] writes an exponent: the fewest digits that tell the number
    from the other doubles, a point after the first of them when there are
    more, then [e+] and the exponent; [parseInt] stops at the point or at the
    [e], and the sign and the first digit are what it gives.  A number is
    here the integer [Z] that is its value. *)

(** The double nearest to an integer [m >= 0]: [m] cut to its 53 leading
    bits, ties going to the even one. *)
Definition to_double (m : Z) : Z :=
  let shift := Z.log2 m - 52 in
  if shift <=? 0 then m
  else
    let q := Z.shiftr m shift in
    let r := m - Z.shiftl q shift in
    let half := Z.shiftl 1 (shift - 1) in
    let q' := if (half <? r) || ((r =? half) && Z.odd q) then q + 1 else q in
    Z.shiftl q' shift.

(** The number of decimal digits of [m >= 0]. *)
Fixpoint digits_upto (fuel : nat) (m : Z) : Z :=
  match fuel with
  | O => 1
  | S fuel' => if m <? 10 then 1 else 1 + digits_upto fuel' (m / 10)
  end.

Definition digits (m : Z) : Z := digits_upto (Z.to_nat (Z.log2 m)) m.

(** The first digit [ToString] writes the double [x >= 10^21] with.  It is
    the first digit [d] of [x] itself, but for one case: the next number
    with a single digit and zeros, [(d + 1) × 10^(digits - 1)], is so close
    that it is [x] as a double, and being the shortest it is what gets
    written (the double next to 10^23 is written [1e+23]). *)
Definition first_digit (x : Z) : Z :=
  let unit := 10 ^ (digits x - 1) in
  let d := x / unit in
  if to_double ((d + 1) * unit) =? x then (if d =? 9 then 1 else d + 1) else d.

Definition parseInt_number (n : Z) : Z :=
  if Z.abs n <? 10 ^ 21 then n else Z.sgn n * first_digit (Z.abs n).

Definition parseIndirectReference : M PDFObject :=
  let! t1 := peek 0 in
  let objectNumber := parseInt_number (int_value t1) in
  let! _ := skip in
  let! t2 := peek 0 in
  let generationNumber := parseInt_number (int_value t2) in
  let! _ := skip in
  let! _ := skip in
  ret (ORef (mkRef objectNumber generationNumber)).

Definition parseStream (dictionary : PDFDictionary) : M PDFObject :=
  let! t := peek 0 in
  let streamData := match t with Some (TStream data) => data | _ => "" end in
  let! _ := skip in
  ret (OStream dictionary streamData).

(** The while loop of [parseArray]. *)
Fixpoint parseArray_loop (fuel : nat) (parseNextObject : M PDFObject)
    (array : list PDFObject) : M (list PDFObject) :=
  let! t := peek 0 in
  match t with
  | Some t0 =>
      if bool_decide (type t0 ≠ ARRAY_END) then
        match fuel with
        | O => throw OutOfFuel
        | S fuel' =>
            let! item := parseNextObject in
            parseArray_loop fuel' parseNextObject (array ++ [item])
        end
      else ret array
  | None => ret array
  end.

Definition parseArray (fuel : nat) (parseNextObject : M PDFObject) : M PDFObject :=
  let! _ := skip in
  let! array := parseArray_loop fuel parseNextObject [] in
  let! t := peek 0 in
  let! _ := (if t is Some _ then skip else ret tt) in
  ret (OArray array).

(** The while loop of [parseDictionary]. *)
Fixpoint parseDictionary_loop (fuel : nat) (parseNextObject : M PDFObject)
    (dictionary : PDFDictionary) : M PDFDictionary :=
  let! t := peek 0 in
  match t with
  | Some t0 =>
      if bool_decide (type t0 ≠ DICT_END) then
        match fuel with
        | O => throw OutOfFuel
        | S fuel' =>
            match t0 with
            | TName key =>
                let! _ := skip in
                let! t' := peek 0 in
                match t' with
                | Some _ =>
                    let! value := parseNextObject in
                    parseDictionary_loop fuel' parseNextObject (dict_set key value dictionary)
                | None => parseDictionary_loop fuel' parseNextObject dictionary
                end
            | _ =>
                let! _ := skip in
                parseDictionary_loop fuel' parseNextObject dictionary
            end
        end
      else ret dictionary
  | None => ret dictionary
  end.

Definition parseDictionary (fuel : nat) (parseNextObject : M PDFObject) : M PDFObject :=
  let! _ := skip in
  let! dictionary := parseDictionary_loop fuel parseNextObject [] in
  let! t := peek 0 in
  let! _ := (if t is Some _ then skip else ret tt) in
  let! t := peek 0 in
  if is_type STREAM t then parseStream dictionary
  else ret (ODict dictionary).

Definition register (k : string) (o : PDFIndirectObject) : M unit :=
  λ this,
    ({| tokens := tokens this; currentTokenIndex := currentTokenIndex this;
        indirectObjectsMap := <[k := o]> (indirectObjectsMap this);
        objects := objects this; xrefTable := xrefTable this;
        trailer := trailer this; version := version this |}, Return tt).

(** The object is stored in the table and also returned; what is returned
    is given here by value, nothing writes to it while parsing. *)
Definition parseIndirectObject (parseNextObject : M PDFObject) : M PDFObject :=
  let! t1 := peek 0 in
  let objectNumber := parseInt_number (int_value t1) in
  let! _ := skip in
  let! t2 := peek 0 in
  let generationNumber := parseInt_number (int_value t2) in
  let! _ := skip in
  let! _ := skip in
  let! object := parseNextObject in
  let! t := peek 0 in
  let! _ := (if is_type OBJ_END t then skip else ret tt) in
  let! _ := register (Resolver.key_of (mkRef objectNumber generationNumber))
              (mkObj objectNumber generationNumber object) in
  ret (OIndirect objectNumber generationNumber object).

Fixpoint parseNextObject (fuel : nat) : M PDFObject :=
  match fuel with
  | O => throw OutOfFuel
  | S fuel' =>
    let! t := peek 0 in
    match t with
    | None => ret ONull
    | Some token =>
      match token with
      | TBoolean b => let! _ := skip in ret (OBool b)
      | TReal n => let! _ := skip in ret (ONumber n)
      | TString s | THexString s => let! _ := skip in ret (OString s)
      | TNull => let! _ := skip in ret ONull
      | TName s => let! _ := skip in ret (OString ("/" +:+ s))
      | TArrayStart => parseArray fuel' (parseNextObject fuel')
      | TDictStart => parseDictionary fuel' (parseNextObject fuel')
      | TInteger n =>
          let! t1 := peek 1 in
          let! t2 := peek 2 in
          if is_type INTEGER t1 && is_type OBJ_START t2 then
            parseIndirectObject (parseNextObject fuel')
          else if is_type INTEGER t1 && is_type INDIRECT_REFERENCE t2 then
            parseIndirectReference
          else
            let! _ := skip in ret (ONumber (parseInt_number n))
      | _ => throw (Err "Unexpected token in object value")
      end
    end
  end.

(** [headerValue.match(/%PDF-(\d+\.\d+)/)]: the first place where "%PDF-"
    is followed by digits, a dot and digits; the group is what follows
    "%PDF-" there, the digits taken as far as they go. *)
Definition is_digit (a : Ascii.ascii) : bool :=
  let n := Ascii.nat_of_ascii a in (48 <=? n)%nat && (n <=? 57)%nat.

Fixpoint take_digits (s : string) : string * string :=
  match s with
  | String a s' =>
      if is_digit a then let '(d, r) := take_digits s' in (String a d, r)
      else (EmptyString, s)
  | EmptyString => (EmptyString, EmptyString)
  end.

Definition version_at (s : string) : option string :=
  match take_digits s with
  | (String a d1, String dot r) =>
      if (Ascii.nat_of_ascii dot =? 46)%nat then
        match take_digits r with
        | (String b d2, _) => Some (String a d1 +:+ "." +:+ String b d2)
        | _ => None
        end
      else None
  | _ => None
  end.

Fixpoint match_version (s : string) : option string :=
  match s with
  | EmptyString => None
  | String a s' =>
      match (if String.prefix "%PDF-" s then version_at (String.substring 5 (String.length s - 5) s)
             else None) with
      | Some v => Some v
      | None => match_version s'
      end
  end.

Definition set_version (v : string) : M unit :=
  λ this,
    ({| tokens := tokens this; currentTokenIndex := currentTokenIndex this;
        indirectObjectsMap := indirectObjectsMap this;
        objects := objects this; xrefTable := xrefTable this;
        trailer := trailer this; version := v |}, Return tt).

Definition parseHeader : M unit :=
  let! token := nextToken in
  match token with
  | Some (THeader headerValue) =>
      match match_version headerValue with
      | Some v => set_version v
      | None => set_version headerValue
      end
  | _ => throw (Err "Invalid PDF: Header not found")
  end.

Definition push_object (o : PDFObject) : M unit :=
  λ this,
    ({| tokens := tokens this; currentTokenIndex := currentTokenIndex this;
        indirectObjectsMap := indirectObjectsMap this;
        objects := objects this ++ [o]; xrefTable := xrefTable this;
        trailer := trailer this; version := version this |}, Return tt).

Fixpoint parseBody (fuel : nat) : M unit :=
  let! t := peek 0 in
  match t with
  | None => ret tt
  | Some _ =>
      if is_keyword "xref" t then ret tt
      else
        match fuel with
        | O => throw OutOfFuel
        | S fuel' =>
            let! object := parseNextObject fuel' in
            let! _ := (if object is ONull then ret tt else push_object object) in
            parseBody fuel'
        end
  end.

Definition set_xref (objectId : Z) (e : XRefEntry) : M unit :=
  λ this,
    ({| tokens := tokens this; currentTokenIndex := currentTokenIndex this;
        indirectObjectsMap := indirectObjectsMap this;
        objects := objects this; xrefTable := <[objectId := e]> (xrefTable this);
        trailer := trailer this; version := version this |}, Return tt).

(** The for loop over the entries of a subsection, [i] running up from
    [count - n]. *)
Fixpoint parseXRef_entries (n : nat) (startObjectId i : Z) : M unit :=
  match n with
  | O => ret tt
  | S n' =>
      let objectId := startObjectId + i in
      let! token := nextToken in
      if negb (is_type INTEGER token) then throw (Err "Expected offset in xref entry")
      else
        let offset := int_value token in
        let! token := nextToken in
        if negb (is_type INTEGER token)
        then throw (Err "Expected generation number in xref entry")
        else
          let generationNumber := int_value token in
          let! token := nextToken in
          if negb (is_type KEYWORD token)
          then throw (Err "Expected in-use flag in xref entry")
          else
            let inUse := is_keyword "n" token in
            let! _ := set_xref objectId (mkXRefEntry offset generationNumber inUse) in
            parseXRef_entries n' startObjectId (i + 1)
  end.

Fixpoint parseXRefTable (fuel : nat) : M unit :=
  let! token := nextToken in
  match token with
  | None => ret tt
  | Some _ =>
      if negb (is_type INTEGER token) then backToken
      else
        match fuel with
        | O => throw OutOfFuel
        | S fuel' =>
            let startObjectId := int_value token in
            let! token := nextToken in
            if negb (is_type INTEGER token)
            then throw (Err "Expected count in xref subsection")
            else
              let count := int_value token in
              let! _ := parseXRef_entries (Z.to_nat count) startObjectId 0 in
              parseXRefTable fuel'
        end
  end.

Definition set_trailer (t : TrailerDictionary) : M unit :=
  λ this,
    ({| tokens := tokens this; currentTokenIndex := currentTokenIndex this;
        indirectObjectsMap := indirectObjectsMap this;
        objects := objects this; xrefTable := xrefTable this;
        trailer := Some t; version := version this |}, Return tt).

(** [parsedDictionary.get(k)] on what [parseDictionary] returned, cast to
    a Map: a stream object has no [get]. *)
Definition get_entry (parsedDictionary : PDFObject) (k : string) : M (option PDFObject) :=
  match parsedDictionary with
  | ODict entries => ret (dict_get k entries)
  | _ => throw (Err "parsedDictionary.get is not a function")
  end.

Definition parseTrailer (fuel : nat) : M unit :=
  let! token := nextToken in
  if negb (is_keyword "trailer" token) then throw (Err "Expected trailer keyword")
  else
    let! token := nextToken in
    if negb (is_type DICT_START token)
    then throw (Err "Expected dictionary start after trailer keyword")
    else
      let! _ := backToken in
      let! parsedDictionary := parseDictionary fuel (parseNextObject fuel) in
      let! size := get_entry parsedDictionary "Size" in
      let! root := get_entry parsedDictionary "Root" in
      let! info := get_entry parsedDictionary "Info" in
      let! id := get_entry parsedDictionary "ID" in
      let! encrypt := get_entry parsedDictionary "Encrypt" in
      let! prev := get_entry parsedDictionary "Prev" in
      let! _ := set_trailer {| Size := size; Root := root;
                               Info := if Page.truthy info then info else None;
                               ID := id; Encrypt := encrypt; Prev := prev;
                               parsedDictionary := parsedDictionary |} in
      let! token := nextToken in
      if negb (is_keyword "startxref" token) then throw (Err "Expected startxref keyword")
      else
        let! token := nextToken in
        if negb (is_type INTEGER token) then throw (Err "Expected integer after startxref")
        else ret tt.

Definition parseXRefAndTrailer (fuel : nat) : M unit :=
  let! token := nextToken in
  if negb (is_keyword "xref" token) then throw (Err "Expected xref keyword")
  else
    let! _ := parseXRefTable fuel in
    parseTrailer fuel.

(** The do-while loop of [parse]. *)
Fixpoint parse_loop (fuel : nat) : M unit :=
  match fuel with
  | O => throw OutOfFuel
  | S fuel' =>
      let! _ := parseBody fuel' in
      let! _ := parseXRefAndTrailer fuel' in
      let! t := peek 0 in
      match t with
      | Some t0 => if bool_decide (type t0 ≠ EOF) then parse_loop fuel' else ret tt
      | None => ret tt
      end
  end.

Definition parse (fuel : nat) : M unit :=
  let! _ := parseHeader in
  let! _ := parse_loop fuel in
  let! token := nextToken in
  if negb (is_type EOF token) then throw (Err "Expected EOF marker")
  else ret tt.

Definition getTrailer (this : FileStructureParser) : option TrailerDictionary :=
  trailer this.

(** [this.trailer?.Root || null] *)
Definition getRootObjectId (this : FileStructureParser) : PDFObject :=
  match trailer this with
  | Some t => Page.js_or (Root t) ONull
  | None => ONull
  end.

(** The values a flat trailer dictionary is written with here: one token
    each, or the three tokens of a reference.  The object a value stands for
    is what the parser makes of its tokens: the integers of an INTEGER token
    and of a reference go through [parseInt]. *)
Inductive FlatValue :=
| FBool (b : bool)
| FInt (n : Z)
| FReal (n : Z)
| FString (s : string)
| FHex (s : string)
| FName (s : string)
| FNull
| FRef (n g : Z).

Definition value_tokens (v : FlatValue) : list PDFToken :=
  match v with
  | FBool b => [TBoolean b]
  | FInt n => [TInteger n]
  | FReal n => [TReal n]
  | FString s => [TString s]
  | FHex s => [THexString s]
  | FName s => [TName s]
  | FNull => [TNull]
  | FRef n g => [TInteger n; TInteger g; TIndirectReference]
  end.

Definition value_object (v : FlatValue) : PDFObject :=
  match v with
  | FBool b => OBool b
  | FInt n => ONumber (parseInt_number n)
  | FReal n => ONumber n
  | FString s | FHex s => OString s
  | FName s => OString ("/" +:+ s)
  | FNull => ONull
  | FRef n g => ORef (mkRef (parseInt_number n) (parseInt_number g))
  end.

Definition entry_tokens (entries : list (string * FlatValue)) : list PDFToken :=
  flat_map (λ kv, TName kv.1 :: value_tokens kv.2) entries.

(** The tokens of a trailer whose dictionary is written with [entries]. *)
Definition trailer_tokens (entries : list (string * FlatValue)) (startxref : Z)
    : list PDFToken :=
  [TKeyword "trailer"; TDictStart]
  ++ entry_tokens entries
  ++ [TDictEnd; TKeyword "startxref"; TInteger startxref].

(** The tokens of a file with such a trailer: header, an empty body, an
    empty cross-reference section, the trailer. *)
Definition file_with_trailer (entries : list (string * FlatValue)) (startxref : Z)
    : list PDFToken :=
  [THeader "%PDF-1.7"; TKeyword "xref"] ++ trailer_tokens entries startxref ++ [TEOF].

(** The record [parseTrailer] builds from a dictionary. *)
Definition trailer_of (d : PDFDictionary) : TrailerDictionary :=
  {| Size := dict_get "Size" d; Root := dict_get "Root" d;
     Info := if Page.truthy (dict_get "Info" d) then dict_get "Info" d else None;
     ID := dict_get "ID" d; Encrypt := dict_get "Encrypt" d;
     Prev := dict_get "Prev" d; parsedDictionary := ODict d |}.

(** The Map those entries make when set one after the other. *)
Definition entries_dict (entries : list (string * FlatValue)) : PDFDictionary → PDFDictionary :=
  λ d, foldl (λ d kv, dict_set kv.1 (value_object kv.2) d) d entries.

(** *** Files as they are written *)

(** A value as a file writes it: flat, or an array or a dictionary of
    values, or a dictionary followed by stream data. *)
Inductive Value :=
| VFlat (v : FlatValue)
| VArray (items : list Value)
| VDict (entries : list (string * Value))
| VStream (entries : list (string * Value)) (data : string).

Section Value_ind.
Variable P : Value → Prop.
Hypothesis Hflat : ∀ v, P (VFlat v).
Hypothesis Harray : ∀ items, Forall P items → P (VArray items).
Hypothesis Hdict : ∀ entries, Forall (λ kv, P kv.2) entries → P (VDict entries).
Hypothesis Hstream :
  ∀ entries data, Forall (λ kv, P kv.2) entries → P (VStream entries data).

Fixpoint Value_deep_ind (v : Value) : P v :=
  match v with
  | VFlat v => Hflat v
  | VArray items =>
      Harray items
        ((fix go (l : list Value) : Forall P l :=
            match l with
            | [] => @List.Forall_nil _ P
            | x :: l' => @List.Forall_cons _ P x l' (Value_deep_ind x) (go l')
            end) items)
  | VDict entries =>
      Hdict entries
        ((fix go (l : list (string * Value)) : Forall (λ kv, P kv.2) l :=
            match l with
            | [] => @List.Forall_nil _ (λ kv, P kv.2)
            | (k, x) :: l' =>
                @List.Forall_cons _ (λ kv, P kv.2) (k, x) l' (Value_deep_ind x) (go l')
            end) entries)
  | VStream entries data =>
      Hstream entries data
        ((fix go (l : list (string * Value)) : Forall (λ kv, P kv.2) l :=
            match l with
            | [] => @List.Forall_nil _ (λ kv, P kv.2)
            | (k, x) :: l' =>
                @List.Forall_cons _ (λ kv, P kv.2) (k, x) l' (Value_deep_ind x) (go l')
            end) entries)
  end.
End Value_ind.

(** The tokens a value is written with. *)
Fixpoint tokens_of (v : Value) : list PDFToken :=
  match v with
  | VFlat v => value_tokens v
  | VArray items => TArrayStart :: flat_map tokens_of items ++ [TArrayEnd]
  | VDict entries =>
      TDictStart :: flat_map (λ kv, TName kv.1 :: tokens_of kv.2) entries ++ [TDictEnd]
  | VStream entries data =>
      TDictStart :: flat_map (λ kv, TName kv.1 :: tokens_of kv.2) entries
      ++ [TDictEnd; TStream data]
  end.

(** The object a value stands for: an array of the objects of its items; a
    Map with the entries set in the order they are written. *)
Fixpoint object_of (v : Value) : PDFObject :=
  match v with
  | VFlat v => value_object v
  | VArray items => OArray (object_of <$> items)
  | VDict entries => ODict (foldl (λ d kv, dict_set kv.1 (object_of kv.2) d) [] entries)
  | VStream entries data =>
      OStream (foldl (λ d kv, dict_set kv.1 (object_of kv.2) d) [] entries) data
  end.

Definition entries_tokens (entries : list (string * Value)) : list PDFToken :=
  flat_map (λ kv, TName kv.1 :: tokens_of kv.2) entries.

Definition set_all (entries : list (string * Value)) (d : PDFDictionary) : PDFDictionary :=
  foldl (λ d kv, dict_set kv.1 (object_of kv.2) d) d entries.

(** The fuel [parseNextObject] needs for a value: its depth, and room for
    the longest array or dictionary in it. *)
Fixpoint need (v : Value) : nat :=
  match v with
  | VFlat _ => 1
  | VArray items => S (foldr (λ v n, Nat.max (need v) n) (length items) items)
  | VDict entries | VStream entries _ =>
      S (foldr (λ kv n, Nat.max (need kv.2) n) (length entries) entries)
  end.

(** What may follow a value without being taken for a part of it: no
    stream data, and behind an integer neither obj nor R. *)
Definition follows (rest : list PDFToken) : Prop :=
  match rest with
  | TStream _ :: _ => False
  | TInteger _ :: t :: _ => type t ≠ OBJ_START ∧ type t ≠ INDIRECT_REFERENCE
  | _ => True
  end.



























Definition getIndirectObjects (this : FileStructureParser) : gmap string PDFIndirectObject :=
  indirectObjectsMap this.

Definition getObjects (this : FileStructureParser) : list PDFObject := objects this.



(** What the main lemma says of one value. *)
Definition parses (v : Value) : Prop :=
  ∀ fuel toks idx m objs x tr ver rest,
    drop idx toks = tokens_of v ++ rest → follows rest → (need v ≤ fuel)%nat →
    parseNextObject fuel (mkParser toks idx m objs x tr ver)
    = (mkParser toks (idx + length (tokens_of v)) m objs x tr ver, Return (object_of v)).

End Parser.

(** ** ContentTypes.ts: rectangles and matrices

    Numbers are the integers, as in [PDFObject]: comparisons, minimum and
    maximum are those of any numbers that are not NaN; sums and products are
    those of integers small enough to be added and multiplied without
    rounding. *)
Module Geometry.

Record Point := mkPoint { x : Z; y : Z }.

(** [[x1, y1, x2, y2]], the fields named by their index. *)
Record Rectangle := mkRectangle { r0 : Z; r1 : Z; r2 : Z; r3 : Z }.

(** [[a, b, c, d, e, f]] *)
Record Matrix := mkMatrix { m0 : Z; m1 : Z; m2 : Z; m3 : Z; m4 : Z; m5 : Z }.

(** [Math.min(...l)] and [Math.max(...l)] of a list that is not empty. *)
Definition js_min (l : list Z) : Z :=
  match l with
  | a :: l' => foldl Z.min a l'
  | [] => 0
  end.

Definition js_max (l : list Z) : Z :=
  match l with
  | a :: l' => foldl Z.max a l'
  | [] => 0
  end.

Module MatrixUtils.

Definition identity : Matrix := mkMatrix 1 0 0 1 0 0.

Definition translate (tx ty : Z) : Matrix := mkMatrix 1 0 0 1 tx ty.

Definition scale (sx sy : Z) : Matrix := mkMatrix sx 0 0 sy 0 0.

Definition multiply (a b : Matrix) : Matrix :=
  mkMatrix
    (m0 a * m0 b + m2 a * m1 b)
    (m1 a * m0 b + m3 a * m1 b)
    (m0 a * m2 b + m2 a * m3 b)
    (m1 a * m2 b + m3 a * m3 b)
    (m0 a * m4 b + m2 a * m5 b + m4 a)
    (m1 a * m4 b + m3 a * m5 b + m5 a).

Definition transformPoint (point : Point) (matrix : Matrix) : Point :=
  mkPoint
    (m0 matrix * x point + m2 matrix * y point + m4 matrix)
    (m1 matrix * x point + m3 matrix * y point + m5 matrix).

Definition determinant (matrix : Matrix) : Z :=
  m0 matrix * m3 matrix - m1 matrix * m2 matrix.

End MatrixUtils.

Module RectangleUtils.

Definition create (x1 y1 x2 y2 : Z) : Rectangle := mkRectangle x1 y1 x2 y2.

Definition getWidth (rect : Rectangle) : Z := r2 rect - r0 rect.

Definition getHeight (rect : Rectangle) : Z := r3 rect - r1 rect.

Definition intersects (rect1 rect2 : Rectangle) : bool :=
  negb ((r2 rect1 <? r0 rect2) || (r2 rect2 <? r0 rect1) ||
        (r3 rect1 <? r1 rect2) || (r3 rect2 <? r1 rect1)).

Definition intersection (rect1 rect2 : Rectangle) : option Rectangle :=
  let x1 := Z.max (r0 rect1) (r0 rect2) in
  let y1 := Z.max (r1 rect1) (r1 rect2) in
  let x2 := Z.min (r2 rect1) (r2 rect2) in
  let y2 := Z.min (r3 rect1) (r3 rect2) in
  if (x1 >=? x2) || (y1 >=? y2) then None
  else Some (mkRectangle x1 y1 x2 y2).

Definition containsPoint (rect : Rectangle) (point : Point) : bool :=
  (x point >=? r0 rect) && (x point <=? r2 rect) &&
  (y point >=? r1 rect) && (y point <=? r3 rect).

(** The corners of a rectangle, in the order [transform] lists them. *)
Definition corners (rect : Rectangle) : list Point :=
  [mkPoint (r0 rect) (r1 rect); mkPoint (r2 rect) (r1 rect);
   mkPoint (r2 rect) (r3 rect); mkPoint (r0 rect) (r3 rect)].

Definition transform (rect : Rectangle) (matrix : Matrix) : Rectangle :=
  let transformed := (λ corner, MatrixUtils.transformPoint corner matrix) <$> corners rect in
  let xs := x <$> transformed in
  let ys := y <$> transformed in
  mkRectangle (js_min xs) (js_min ys) (js_max xs) (js_max ys).

End RectangleUtils.

End Geometry.

(** * Properties *)

(** ** The resolver *)
Module ResolverFacts.
Import Resolver.

Section deepResolve_rule.
Context (resolve : PDFIndirectReference → bool → bool → M string) (s : bool).
Context (I : PDFObjectResolver → Prop) (E : Error → PDFObjectResolver → Prop).
Context (GL : string → Prop) (GR VR : PDFIndirectReference → Prop) (VP : string → Prop).

Hypothesis resolve_ok : ∀ r st, VR r → I st →
  post I E (λ l, GL l ∧ GR r) (resolve r true s st).
Hypothesis ptr_ok : ∀ l st, VP l → I st →
  indirectObjectsMap st !! l = None → E (DanglingPointer l) st.

Lemma post_bind {A B} (m : M A) (f : A → M B) (Q : A → Prop) (Q' : B → Prop) st :
  post I E Q (m st) → (∀ a st1, I st1 → Q a → post I E Q' (f a st1)) →
  post I E Q' (bind m f st).
Proof.
  unfold bind, post. destruct (m st) as [st1 [a|e]]; [|done].
  intros [HI HQ] Hf. by apply Hf.
Qed.

Lemma deepResolve_with_rule v :
  ∀ st, Forall VR (refs_of v) → Forall VP (ptrs_of v) → I st →
  post I E (resolved GL GR v) (deepResolve_with resolve s v st).
Proof.
  induction v using PDFObject_deep_ind; intros st HR HP HI;
    try (simpl; unfold resolved; by auto).
  - (* array *)
    cbn [deepResolve_with]. 
    eapply (post_bind _ _ (λ items', flat_map refs_of items' = [] ∧
              Forall GL (flat_map ptrs_of items') ∧ Forall GR (flat_map refs_of items))).
    2:{ intros items' st1 HI1 (?&?&?). simpl. unfold resolved. simpl. auto. }
    simpl in HR, HP. revert st HR HP HI.
    induction H as [|x l Hx Hl IH]; intros st HR HP HI.
    + simpl. auto.
    + simpl in HR, HP. apply Forall_app in HR as [HR1 HR2].
      apply Forall_app in HP as [HP1 HP2].
      eapply post_bind; [apply Hx; eauto|].
      intros x' st1 HI1 (Hx1&Hx2&Hx3).
      eapply post_bind; [apply IH; eauto|].
      intros l' st2 HI2 (Hl1&Hl2&Hl3). simpl. split; [done|].
      rewrite Hx1, Hl1. split; [done|]. split; apply Forall_app; auto.
  - (* dictionary *)
    cbn [deepResolve_with]. 
    eapply (post_bind _ _ (λ es', flat_map (λ kv, refs_of kv.2) es' = [] ∧
              Forall GL (flat_map (λ kv, ptrs_of kv.2) es') ∧
              Forall GR (flat_map (λ kv, refs_of kv.2) entries))).
    2:{ intros items' st1 HI1 (?&?&?). simpl. unfold resolved. simpl. auto. }
    simpl in HR, HP. revert st HR HP HI.
    induction H as [|[k x] l Hx Hl IH]; intros st HR HP HI.
    + simpl. auto.
    + simpl in HR, HP, Hx. apply Forall_app in HR as [HR1 HR2].
      apply Forall_app in HP as [HP1 HP2].
      eapply post_bind; [apply Hx; eauto|].
      intros x' st1 HI1 (Hx1&Hx2&Hx3).
      eapply post_bind; [apply IH; eauto|].
      intros l' st2 HI2 (Hl1&Hl2&Hl3). simpl. split; [done|].
      rewrite Hx1, Hl1. split; [done|]. split; apply Forall_app; auto.
  - (* reference *)
    simpl. simpl in HR. apply Forall_cons in HR as [HR _].
    eapply post_bind; [apply resolve_ok; eauto|].
    intros l st1 HI1 [HG1 HG2]. simpl. unfold resolved. simpl. auto.
  - (* alias of a table object *)
    simpl. simpl in HP. apply Forall_cons in HP as [HP _].
    destruct (indirectObjectsMap st !! l) eqn:Hl.
    + simpl. unfold resolved. simpl. auto.
    + simpl. auto.
Qed.
End deepResolve_rule.

Lemma post_mono {A} (I I' : PDFObjectResolver → Prop) (E E' : Error → PDFObjectResolver → Prop)
    (Q Q' : A → Prop) r :
  post I E Q r → (∀ st, I st → I' st) → (∀ e st, E e st → E' e st) → (∀ a, Q a → Q' a) →
  post I' E' Q' r.
Proof. destruct r as [st [a|e]]; simpl; naive_solver. Qed.

Lemma same_ids_refl m : same_ids m m.
Proof. done. Qed.

Lemma same_ids_trans m1 m2 m3 : same_ids m1 m2 → same_ids m2 m3 → same_ids m1 m3.
Proof. intros H1 H2 k. by rewrite H2, H1. Qed.

Lemma same_ids_dom m m' : same_ids m m' → dom m' = dom m.
Proof.
  intros H. apply set_eq. intros k. rewrite !elem_of_dom.
  specialize (H k). destruct (m !! k), (m' !! k); simpl in H; try done;
    split; intros []; done.
Qed.

Lemma same_ids_set_value l v st :
  same_ids (indirectObjectsMap st) (indirectObjectsMap (set_value l v st)).
Proof.
  intros k. simpl. destruct (indirectObjectsMap st !! l) as [o|] eqn:Hl; [|done].
  destruct (decide (l = k)) as [->|Hne].
  - by rewrite lookup_insert_eq, Hl.
  - by rewrite lookup_insert_ne.
Qed.

(** The body of [resolveIndirectReference], one case per way out. *)
Lemma resolve_unfold fuel r deep s st :
  resolveIndirectReference (S fuel) r deep s st =
  let key := key_of r in
  match resolvedCache st !! key with
  | Some cached => (st, Return cached)
  | None =>
    match indirectObjectsMap st !! key with
    | None => (st, Throw (UnknownReference key))
    | Some pdfObject =>
      if decide (key ∈ resolvingStack st) then
        if s then (st, Return key) else (st, Throw (CircularReference key))
      else
        let st1 := set_stack (resolvingStack st ∪ {[key]}) st in
        if deep then
          match deepResolve_with (resolveIndirectReference fuel) s (value pdfObject) st1 with
          | (st2, Return v) =>
              let st3 := cache_set key key (set_value key v st2) in
              (set_stack (resolvingStack st3 ∖ {[key]}) st3, Return key)
          | (st2, Throw e) => (st2, Throw e)
          end
        else (set_stack (resolvingStack st1 ∖ {[key]}) st1, Return key)
    end
  end.
Proof. reflexivity. Qed.

Lemma set_stack_same st : set_stack (resolvingStack st) st = st.
Proof. by destruct st. Qed.

Lemma push_pop (S : gset string) k : k ∉ S → (S ∪ {[k]}) ∖ {[k]} = S.
Proof. set_solver. Qed.

(** A call never adds or removes a key, nor touches the numbers of an entry;
    when it returns, the resolving stack is as before. *)
Lemma resolve_frame fuel : ∀ r deep s st,
  post (λ st', same_ids (indirectObjectsMap st) (indirectObjectsMap st') ∧
               resolvingStack st' = resolvingStack st)
       (λ _ st', same_ids (indirectObjectsMap st) (indirectObjectsMap st'))
       (λ _, True)
       (resolveIndirectReference fuel r deep s st).
Proof.
  induction fuel as [|fuel IH]; intros r deep s st; [simpl; done|].
  rewrite resolve_unfold. cbv zeta.
  destruct (resolvedCache st !! key_of r); [simpl; done|].
  destruct (indirectObjectsMap st !! key_of r) as [o|] eqn:Ho; [|simpl; done].
  case_decide as Hstack; [destruct s; simpl; done|].
  destruct deep; [|simpl; split; [|done]; split; [done|]; by apply push_pop].
  set (st1 := set_stack _ st).
  pose proof (deepResolve_with_rule (resolveIndirectReference fuel) s
    (λ st', same_ids (indirectObjectsMap st) (indirectObjectsMap st') ∧
            resolvingStack st' = resolvingStack st1)
    (λ _ st', same_ids (indirectObjectsMap st) (indirectObjectsMap st'))
    (λ _, True) (λ _, True) (λ _, True) (λ _, True)) as Hrule.
  assert (∀ r' st', True →
      same_ids (indirectObjectsMap st) (indirectObjectsMap st') ∧
        resolvingStack st' = resolvingStack st1 →
      post (λ st', same_ids (indirectObjectsMap st) (indirectObjectsMap st') ∧
                   resolvingStack st' = resolvingStack st1)
           (λ _ st', same_ids (indirectObjectsMap st) (indirectObjectsMap st'))
           (λ _ : string, True ∧ True)
           (resolveIndirectReference fuel r' true s st')) as Hok.
  { intros r' st' _ [Hs1 Hs2]. eapply post_mono; [apply IH| | |].
    - intros st'' [H1 H2]. split; [by eapply same_ids_trans|]. by rewrite H2.
    - intros e st'' H1. by eapply same_ids_trans.
    - auto. }
  specialize (Hrule Hok ltac:(by intros ?? _ [? _] _) (value o) st1).
  specialize (Hrule ltac:(by apply Forall_true) ltac:(by apply Forall_true) ltac:(done)).
  destruct (deepResolve_with _ _ _ st1) as [st2 [v|e]]; simpl in *; [|done].
  destruct Hrule as [[Hs1 Hs2] _]. split; [|done]. split.
  - eapply same_ids_trans; [exact Hs1|apply same_ids_set_value].
  - rewrite Hs2. by apply push_pop.
Qed.

(** In shallow mode the table is not written at all. *)
Lemma resolve_shallow_table fuel r s st :
  indirectObjectsMap (resolveIndirectReference fuel r false s st).1 = indirectObjectsMap st.
Proof.
  destruct fuel; [done|]. rewrite resolve_unfold. cbv zeta.
  repeat (case_match; simpl; try done).
Qed.

Lemma post_and {A} (I1 I2 : PDFObjectResolver → Prop) (E1 E2 : Error → PDFObjectResolver → Prop)
    (Q1 Q2 : A → Prop) r :
  post I1 E1 Q1 r → post I2 E2 Q2 r →
  post (λ st, I1 st ∧ I2 st) (λ e st, E1 e st ∧ E2 e st) (λ a, Q1 a ∧ Q2 a) r.
Proof. destruct r as [st [a|e]]; simpl; naive_solver. Qed.



Lemma Inv_set_stack T S st : Inv T st → Inv T (set_stack S st).
Proof. intros [H1 H2 H3]. by split. Qed.

Lemma Inv_constructor T : Inv T (constructor T).
Proof. split; simpl; [done| |done]. intros k l. by rewrite lookup_empty. Qed.

Lemma Inv_write T k v st :
  Inv T st → Inv T (cache_set k k (set_value k v st)).
Proof.
  intros [H1 H2 H3]. split.
  - etrans; [|exact H1]. apply (same_ids_dom _ _ (same_ids_set_value k v st)).
  - simpl. intros k' l. destruct (decide (k = k')) as [->|Hne].
    + rewrite lookup_insert_eq. congruence.
    + rewrite lookup_insert_ne by done. apply H2.
  - simpl. intros k'. destruct (decide (k = k')) as [->|Hne].
    + by rewrite lookup_insert_eq.
    + rewrite lookup_insert_ne by done. intros Hc.
      destruct (indirectObjectsMap st !! k); [rewrite lookup_insert_ne by done|]; by apply H3.
Qed.

(** Every call, however it ends, keeps the invariant. *)
Lemma resolve_Inv T fuel : ∀ r deep s st, Inv T st →
  post (Inv T) (λ _, Inv T) (λ _, True) (resolveIndirectReference fuel r deep s st).
Proof.
  induction fuel as [|fuel IH]; intros r deep s st HI; [simpl; done|].
  rewrite resolve_unfold. cbv zeta.
  destruct (resolvedCache st !! key_of r); [simpl; done|].
  destruct (indirectObjectsMap st !! key_of r) as [o|] eqn:Ho; [|simpl; done].
  case_decide as Hstack; [destruct s; simpl; done|].
  destruct deep; [|simpl; split; [|done]; by do 2 apply Inv_set_stack].
  set (st1 := set_stack _ st).
  pose proof (deepResolve_with_rule (resolveIndirectReference fuel) s
    (Inv T) (λ _, Inv T) (λ _, True) (λ _, True) (λ _, True) (λ _, True)) as Hrule.
  assert (∀ r' st', True → Inv T st' →
      post (Inv T) (λ _, Inv T) (λ _ : string, True ∧ True)
           (resolveIndirectReference fuel r' true s st')) as Hok.
  { intros r' st' _ HI'. eapply post_mono; [by apply IH| | |]; auto. }
  specialize (Hrule Hok ltac:(by intros) (value o) st1).
  specialize (Hrule ltac:(by apply Forall_true) ltac:(by apply Forall_true)
                ltac:(by apply Inv_set_stack)).
  destruct (deepResolve_with _ _ _ st1) as [st2 [v|e]]; simpl in *; [|done].
  destruct Hrule as [HI2 _]. split; [|done].
  apply Inv_set_stack. by apply Inv_write.
Qed.

Lemma reachable_Inv T st : reachable T st → Inv T st.
Proof.
  induction 1 as [|st fuel r deep s st' out _ IH Hcall _]; [apply Inv_constructor|].
  pose proof (resolve_Inv T fuel r deep s st IH) as H. rewrite Hcall in H.
  destruct out; simpl in H; tauto.
Qed.





(** *** What a deep resolution leaves in the table *)

Lemma refs_of_pointed v : refs_of (pointed v) = [].
Proof.
  induction v using PDFObject_deep_ind; try done.
  - cbn [pointed refs_of]. induction H as [|x l Hx _ IH]; [done|].
    rewrite fmap_cons. cbn [flat_map]. by rewrite Hx, IH.
  - cbn [pointed refs_of]. induction H as [|[k x] l Hx _ IH]; [done|].
    rewrite fmap_cons. cbn [flat_map fst snd] in *. by rewrite Hx, IH.
Qed.



Lemma Settled_push T k st :
  k ∉ dom (resolvedCache st) →
  Settled T st → Settled T (set_stack (resolvingStack st ∪ {[k]}) st).
Proof.
  intros Hk [H1 H2 H3]. split; simpl.
  - done.
  - intros k1 k2 Hc He. destruct (H2 k1 k2 Hc He); set_solver.
  - intros k1 [Hin| ->%elem_of_singleton]%elem_of_union; auto.
Qed.

Lemma Settled_constructor T : Settled T (constructor T).
Proof. split; simpl; intros k; rewrite ?dom_empty; set_solver. Qed.

Lemma step_bind T {A B} (m : M A) (f : A → M B) st
    (Q : PDFObjectResolver → A → Prop) (Q' : PDFObjectResolver → B → Prop) :
  step T st Q (m st) →
  (∀ a st1, Inv T st1 → Settled T st1 → resolvingStack st1 = resolvingStack st →
     dom (resolvedCache st) ⊆ dom (resolvedCache st1) → Q st1 a →
     step T st1 (λ st2 b, dom (resolvedCache st1) ⊆ dom (resolvedCache st2) → Q' st2 b)
       (f a st1)) →
  step T st Q' (bind m f st).
Proof.
  unfold bind, step. destruct (m st) as [st1 [a|e]]; [|done].
  intros (HI & HS & Hst & Hc & HQ) Hf. specialize (Hf a st1 HI HS Hst Hc HQ).
  destruct (f a st1) as [st2 [b|e]].
  - destruct Hf as (HI2 & HS2 & Hst2 & Hc2 & HQ2).
    split; [done|]. split; [done|]. split; [by rewrite Hst2|].
    split; [set_solver|]. by apply HQ2.
  - destruct Hf as (HI2 & HS2 & Hst2 & Hc2).
    split; [done|]. split; [done|]. split; [by rewrite <- Hst|set_solver].
Qed.

(** [deepResolve] over a value without aliases, the calls it makes doing
    what [step] says: it hands out [pointed v], every reference of [v] dealt
    with. *)
Ltac step_ret :=
  unfold ret, step; split; [done|]; split; [done|]; split; [done|]; split; [done|].

Lemma deepResolve_pointed (resolve : PDFIndirectReference → bool → bool → M string) s T :
  (∀ r st, Inv T st → Settled T st →
     step T st (λ st' l, l = key_of r ∧ dealt_with (resolvingStack st) st' (key_of r))
       (resolve r true s st)) →
  ∀ v st, ptrs_of v = [] → Inv T st → Settled T st →
    step T st
      (λ st' v', v' = pointed v ∧
                 Forall (dealt_with (resolvingStack st) st') (key_of <$> refs_of v))
      (deepResolve_with resolve s v st).
Proof.
  intros Hres.
  assert (∀ S st1 st2 k, dom (resolvedCache st1) ⊆ dom (resolvedCache st2) →
            dealt_with S st1 k → dealt_with S st2 k) as Hmono.
  { intros S st1 st2 k Hsub [?|?]; [left|right]; set_solver. }
  induction v as [| | | |items H|entries H| |r| |] using PDFObject_deep_ind;
    intros st Hp HI HS;
    try (cbn [deepResolve_with getPDFObjectType]; unfold ret, step; cbn [pointed refs_of fmap list_fmap];
         split; [done|]; split; [done|]; split; [done|]; split; [done|]; split; [done|constructor]).
  - (* array *)
    cbn [deepResolve_with getPDFObjectType].
    eapply (step_bind T _ _ st
              (λ st' items', items' = pointed <$> items ∧
                 Forall (dealt_with (resolvingStack st) st')
                   (key_of <$> flat_map refs_of items))).
    2:{ intros items' st1 HI1 HS1 Hst1 Hc1 [-> HF]. unfold ret, step.
        split; [done|]. split; [done|]. split; [done|]. split; [done|]. intros _. by split. }
    cbn [ptrs_of] in Hp. revert st Hp HI HS.
    induction H as [|x l Hx _ IH]; intros st Hp HI HS.
    + step_ret. cbn [fmap list_fmap flat_map]. split; [done|constructor].
    + cbn [flat_map] in Hp. apply app_eq_nil in Hp as [Hp1 Hp2].
      eapply step_bind; [by apply Hx|].
      intros x' st1 HI1 HS1 Hst1 Hc1 [-> HF1].
      eapply step_bind; [by apply IH|].
      intros l' st2 HI2 HS2 Hst2 Hc2 [-> HF2]. step_ret.
      intros _. split; [done|]. cbn [flat_map]. rewrite fmap_app. apply Forall_app. split.
      * eapply Forall_impl; [exact HF1|]. intros k Hk. by eapply Hmono.
      * by rewrite <- Hst1.
  - (* dictionary *)
    cbn [deepResolve_with getPDFObjectType].
    eapply (step_bind T _ _ st
              (λ st' es', es' = (λ kv, (kv.1, pointed kv.2)) <$> entries ∧
                 Forall (dealt_with (resolvingStack st) st')
                   (key_of <$> flat_map (λ kv, refs_of kv.2) entries))).
    2:{ intros items' st1 HI1 HS1 Hst1 Hc1 [-> HF]. unfold ret, step.
        split; [done|]. split; [done|]. split; [done|]. split; [done|]. intros _. by split. }
    cbn [ptrs_of] in Hp. revert st Hp HI HS.
    induction H as [|[k x] l Hx _ IH]; intros st Hp HI HS.
    + step_ret. cbn [fmap list_fmap flat_map]. split; [done|constructor].
    + cbn [flat_map fst snd] in Hp, Hx. apply app_eq_nil in Hp as [Hp1 Hp2].
      eapply step_bind; [by apply Hx|].
      intros x' st1 HI1 HS1 Hst1 Hc1 [-> HF1].
      eapply step_bind; [by apply IH|].
      intros l' st2 HI2 HS2 Hst2 Hc2 [-> HF2]. step_ret.
      intros _. split; [done|]. cbn [flat_map fst snd]. rewrite fmap_app. apply Forall_app. split.
      * eapply Forall_impl; [exact HF1|]. intros k' Hk. by eapply Hmono.
      * by rewrite <- Hst1.
  - (* reference *)
    cbn [deepResolve_with getPDFObjectType].
    eapply step_bind; [by apply Hres|].
    intros l st1 HI1 HS1 Hst1 Hc1 [-> HF]. step_ret.
    intros _. split; [done|]. by constructor.
  - (* an alias: the value has none *)
    discriminate Hp.
Qed.

Lemma step_mono T st {A} (Q Q' : PDFObjectResolver → A → Prop) res :
  step T st Q res → (∀ st' a, Q st' a → Q' st' a) → step T st Q' res.
Proof. destruct res as [st' [a|e]]; simpl; [|done]. naive_solver. Qed.

(** Every call keeps the cache settled; a deep call that returns has dealt
    with its key. *)
Lemma resolve_settles T fuel : alias_free T → ∀ r deep s st,
  Inv T st → Settled T st →
  step T st
    (λ st' l, l = key_of r ∧ (deep = true → dealt_with (resolvingStack st) st' (key_of r)))
    (resolveIndirectReference fuel r deep s st).
Proof.
  intros Hfree.
  induction fuel as [|fuel IH]; intros r deep s st HI HS.
  { simpl. done. }
  rewrite resolve_unfold. cbv zeta.
  destruct (resolvedCache st !! key_of r) as [l|] eqn:Hc.
  { step_ret. split; [by eapply inv_cache|]. intros _. left. apply elem_of_dom. eauto. }
  destruct (indirectObjectsMap st !! key_of r) as [o|] eqn:Ho; [|simpl; done].
  case_decide as Hstack.
  { destruct s; [|simpl; done]. step_ret. split; [done|]. intros _. by right. }
  assert (key_of r ∉ dom (resolvedCache st)) as Hnc by (by apply not_elem_of_dom).
  destruct deep.
  2:{ assert (set_stack (resolvingStack (set_stack (resolvingStack st ∪ {[key_of r]}) st)
                          ∖ {[key_of r]}) (set_stack (resolvingStack st ∪ {[key_of r]}) st)
              = st) as ->.
      { destruct st as [m S c]. unfold set_stack. simpl in *. f_equal. by apply push_pop. }
      step_ret. split; [done|]. done. }
  assert (T !! key_of r = Some o) as HTo by (by rewrite <- (inv_raw _ _ HI)).
  set (st1 := set_stack _ st).
  pose proof (deepResolve_pointed (resolveIndirectReference fuel) s T) as Hrule.
  specialize (Hrule ltac:(intros r' st' HI' HS'; eapply step_mono; [by apply (IH r' true)|];
                          intros st'' l [-> Hd]; auto)).
  specialize (Hrule (value o) st1 (Hfree _ _ HTo) (Inv_set_stack _ _ _ HI)
                (Settled_push _ _ _ Hnc HS)).
  destruct (deepResolve_with _ _ _ st1) as [st2 [v|e]].
  2:{ destruct Hrule as (HI2 & HS2 & Hst2 & Hc2). simpl.
      split; [done|]. split; [done|]. split; [|done]. subst st1. simpl in Hst2. set_solver. }
  destruct Hrule as (HI2 & HS2 & Hst2 & Hc2 & -> & Hdealt).
  subst st1. cbn [resolvingStack resolvedCache set_stack] in Hst2, Hc2, Hdealt.
  assert (key_of r ∈ resolvingStack st2) as Hon by (rewrite Hst2; set_solver).
  assert (key_of r ∉ dom (resolvedCache st2)) as Hnc2 by (by apply (settled_stack _ _ HS2)).
  assert (indirectObjectsMap st2 !! key_of r = Some o) as Ho2.
  { rewrite (inv_raw _ _ HI2); [done|]. by apply not_elem_of_dom. }
  unfold step. cbn [resolvingStack resolvedCache indirectObjectsMap set_stack cache_set set_value].
  split; [apply Inv_set_stack; by apply Inv_write|].
  split.
  { split; cbn [resolvingStack resolvedCache indirectObjectsMap set_stack cache_set set_value];
      rewrite ?Ho2.
    - intros k0 Hk0. rewrite dom_insert in Hk0.
      destruct (decide (k0 = key_of r)) as [->|Hne].
      + exists o. by rewrite lookup_insert_eq.
      + rewrite lookup_insert_ne by done. apply (settled_value _ _ HS2). set_solver.
    - intros k0 k' Hk0 Hedge. rewrite dom_insert in Hk0. rewrite dom_insert, Hst2.
      assert (k' ∈ dom (resolvedCache st2) ∨ k' ∈ resolvingStack st ∪ {[key_of r]}) as Hk'.
      { destruct (decide (k0 = key_of r)) as [->|Hne].
        - destruct Hedge as (o0 & r0 & Ho0 & Hr0 & ->). rewrite HTo in Ho0.
          injection Ho0 as <-. rewrite Forall_forall in Hdealt.
          apply Hdealt. by apply list_elem_of_fmap_2.
        - rewrite <- Hst2. apply (settled_next _ _ HS2 k0); [set_solver|done]. }
      destruct (decide (k' = key_of r)) as [->|Hne']; [left; set_solver|].
      destruct Hk' as [?|?]; [left|right]; set_solver.
    - intros k1 Hk1. rewrite dom_insert. rewrite Hst2 in Hk1.
      assert (k1 ∈ resolvingStack st2) as Hk1' by (rewrite Hst2; set_solver).
      pose proof (settled_stack _ _ HS2 _ Hk1'). set_solver. }
  split; [rewrite Hst2; by apply push_pop|].
  split; [rewrite dom_insert; set_solver|].
  split; [done|]. intros _. left. simpl. rewrite dom_insert. set_solver.
Qed.

(** Every state a resolver over a table without aliases can reach is
    settled. *)
Lemma reachable_Settled T st : alias_free T → reachable T st → Settled T st.
Proof.
  intros Hfree. induction 1 as [|st fuel r deep s st' out Hreach IH Hcall _];
    [apply Settled_constructor|].
  pose proof (resolve_settles T fuel Hfree r deep s st (reachable_Inv _ _ Hreach) IH) as H.
  rewrite Hcall in H. destruct out; simpl in H; tauto.
Qed.

(** The table of a reachable state, entry by entry: settled where the key
    is cached, as it was built where it is not. *)
Lemma reachable_table T st k :
  alias_free T → reachable T st →
  deref st k = if decide (k ∈ dom (resolvedCache st)) then settled <$> T !! k else T !! k.
Proof.
  intros Hfree Hreach. unfold deref. case_decide as Hk.
  - destruct (settled_value _ _ (reachable_Settled _ _ Hfree Hreach) k Hk) as (o & -> & ->).
    done.
  - apply (inv_raw _ _ (reachable_Inv _ _ Hreach)). by apply not_elem_of_dom.
Qed.

(** A deep call that returns for a key that was not being resolved has
    cached the key. *)
Lemma resolve_deep_caches T fuel r s st st' l :
  alias_free T → reachable T st → key_of r ∉ resolvingStack st →
  resolveIndirectReference fuel r true s st = (st', Return l) →
  reachable T st' ∧ l = key_of r ∧ key_of r ∈ dom (resolvedCache st') ∧
  resolvingStack st' = resolvingStack st.
Proof.
  intros Hfree Hreach Hstack Hcall.
  pose proof (resolve_settles T fuel Hfree r true s st (reachable_Inv _ _ Hreach)
                (reachable_Settled _ _ Hfree Hreach)) as H.
  rewrite Hcall in H. destruct H as (_ & _ & Hst & _ & -> & Hd).
  split; [by eapply reachable_call|]. split; [done|]. split; [|done].
  by destruct (Hd eq_refl).
Qed.




(** C1, as stated, fails: the deep resolution of object 30 of the test
    suite stores the resolved object 31 in the table entry of object 30, in
    place of the reference the entry was built with. *)
Lemma deep_resolve_rewrites_table :
  ¬ table_unchanged_by 3 (mkRef 30 0) true true (constructor table_nested).
Proof.
  unfold table_unchanged_by. intros H.
  apply (f_equal (λ m, value <$> m !! "30 0")) in H.
  vm_compute in H. discriminate H.
Qed.

(** C1, amended: a shallow call leaves every entry of the object table as
    it was; a deep call keeps the keys of the table and the object and
    generation number of every entry, but it writes into the stored objects.
    Over a table without aliases (its entries are linked by references
    only), in every state the resolver can reach, every entry is after the
    call either the one the table was built with or that entry settled: its
    value with every reference [deepResolve] follows, under arrays and
    dictionaries to any depth, replaced by the table's own object for that
    reference, references inside a stream or an indirect object left as they
    are.  And when a deep call returns for a key that was not being resolved,
    the entry of its reference is the settled one. *)
Theorem resolve_table_frame fuel r deep silent st :
  key_of r ∈ dom (indirectObjectsMap st) →
  let res := resolveIndirectReference fuel r deep silent st in
  (deep = false → indirectObjectsMap res.1 = indirectObjectsMap st) ∧
  dom (indirectObjectsMap res.1) = dom (indirectObjectsMap st) ∧
  same_ids (indirectObjectsMap st) (indirectObjectsMap res.1) ∧
  (∀ T, alias_free T → reachable T st →
     (∀ k, deref res.1 k = T !! k ∨ deref res.1 k = settled <$> T !! k) ∧
     (deep = true → key_of r ∉ resolvingStack st → ∀ l, res.2 = Return l →
      ∃ o, T !! key_of r = Some o ∧ deref res.1 (key_of r) = Some (settled o))).
Proof.
  intros Hr res.
  assert (same_ids (indirectObjectsMap st) (indirectObjectsMap res.1)) as Hids.
  { pose proof (resolve_frame fuel r deep silent st) as H. fold res in H.
    destruct res as [st' [l|e]]; simpl in *; tauto. }
  split; [intros ->; apply resolve_shallow_table|].
  split; [by apply same_ids_dom|]. split; [done|].
  intros T Hfree Hreach. pose proof (reachable_Inv _ _ Hreach) as HI.
  pose proof (resolve_settles T fuel Hfree r deep silent st HI
                (reachable_Settled _ _ Hfree Hreach)) as Hstep.
  fold res in Hstep. split.
  - intros k. unfold deref.
    assert (Inv T res.1 ∧ Settled T res.1) as [HI' HS'].
    { destruct res as [st' [l|e]]; simpl in *; tauto. }
    destruct (decide (k ∈ dom (resolvedCache res.1))) as [Hk|Hk].
    + right. by destruct (settled_value _ _ HS' k Hk) as (o & -> & ->).
    + left. apply (inv_raw _ _ HI'). by apply not_elem_of_dom.
  - intros -> Hstack l Hl.
    destruct res as [st' out] eqn:Hres. simpl in Hl. subst out.
    destruct Hstep as (HI' & HS' & _ & _ & _ & Hd). simpl.
    destruct (Hd eq_refl) as [Hc|Hc]; [|done].
    by apply (settled_value _ _ HS').
Qed.

Lemma table_nested_alias_free : alias_free table_nested.
Proof. apply (bool_decide_unpack _). vm_compute. exact I. Defined.

Lemma resolve_table_frame_witness :
  let res := resolveIndirectReference 3 (mkRef 30 0) true true (constructor table_nested) in
  dom (indirectObjectsMap res.1) = dom table_nested ∧
  deref res.1 "30 0" = Some (mkObj 30 0 (OPtr "31 0")).
Proof.
  assert (key_of (mkRef 30 0) ∈ dom (indirectObjectsMap (constructor table_nested))) as Hin.
  { apply (bool_decide_unpack _). vm_compute. exact I. }
  destruct (resolve_table_frame 3 (mkRef 30 0) true true (constructor table_nested) Hin)
    as (_ & Hdom & _ & Hw).
  split; [exact Hdom|].
  destruct (Hw table_nested table_nested_alias_free (reachable_fresh _)) as [_ Hdeep].
  destruct (Hdeep eq_refl ltac:(apply not_elem_of_empty) "30 0" ltac:(vm_compute; reflexivity))
    as (o & Ho & Hentry).
  assert (o = mkObj 30 0 (ORef (mkRef 31 0))) as -> by (vm_compute in Ho; congruence).
  exact Hentry.
Defined.




(** Why the circular reference error needs every reference met to have
    its object: object 1 of [table_dangling] references a missing object before
    it references itself, and the call throws for the missing object. *)
Remark dangling_before_cycle :
  reaches_cycle table_dangling "1 0" ∧
  (resolveIndirectReference 3 (mkRef 1 0) true false (constructor table_dangling)).2
    = Throw (UnknownReference "9 0").
Proof.
  split; [|vm_compute; reflexivity].
  exists "1 0". split; [apply rtc_refl|]. apply tc_once.
  exists (mkObj 1 0 (OArray [ORef (mkRef 9 0); ORef (mkRef 1 0)])), (mkRef 1 0).
  split; [reflexivity|]. split; [|reflexivity]. simpl.
  apply list_elem_of_further, list_elem_of_here.
Qed.






Lemma reachable_after_deep_30 :
  reachable table_nested
    (resolveIndirectReference 3 (mkRef 30 0) true true (constructor table_nested)).1.
Proof.
  apply (reachable_call _ (constructor table_nested) 3 (mkRef 30 0) true true _
           (Return "30 0")); [apply reachable_fresh| |done].
  vm_compute. reflexivity.
Qed.

(** C3, as stated, fails: after the deep resolution of object 30 (the test
    "should handle nested indirect objects correctly"), a shallow call for
    object 30 hands out the entry with its reference resolved, not the entry
    the table was built with. *)
Lemma shallow_after_deep_not_verbatim :
  ¬ shallow_verbatim table_nested
      (resolveIndirectReference 3 (mkRef 30 0) true true (constructor table_nested)).1
      (mkRef 30 0).
Proof.
  assert (resolvedCache
            (resolveIndirectReference 3 (mkRef 30 0) true true (constructor table_nested)).1
            !! key_of (mkRef 30 0) = Some "30 0") as Hc by (vm_compute; reflexivity).
  assert (value <$> deref
            (resolveIndirectReference 3 (mkRef 30 0) true true (constructor table_nested)).1
            "30 0" = Some (OPtr "31 0")) as Hv by (vm_compute; reflexivity).
  assert (value <$> table_nested !! key_of (mkRef 30 0) = Some (ORef (mkRef 31 0)))
    as Hraw by (vm_compute; reflexivity).
  remember (resolveIndirectReference 3 (mkRef 30 0) true true (constructor table_nested)).1
    as st1 eqn:Hst1. clear Hst1.
  intros (fuel & st' & l & Hcall & Hobj).
  destruct fuel as [|fuel]; [discriminate Hcall|].
  rewrite resolve_unfold in Hcall. cbv zeta in Hcall. rewrite Hc in Hcall.
  injection Hcall as <- <-. rewrite Hobj, Hraw in Hv. discriminate Hv.
Qed.

(** C3, amended: in every state a resolver over [T] can reach, a shallow
    call for a key of the table returns the table's own object for that key
    and leaves the resolver as it was, provided cycles are silent or the key
    is not on the resolving stack; the object is the one the table was built
    with, nested references unresolved, as long as the key has not been cached
    by a deep resolution.  Once the key is cached (the table holding no
    aliases) the object is the settled entry: the numbers it was built with,
    and its value with every reference [deepResolve] follows replaced by the
    table's own object for it; and the key is cached as soon as a deep call
    for it has returned from a state in which it was not being resolved. *)
Theorem resolve_shallow_identity T st r silent fuel :
  reachable T st →
  key_of r ∈ dom T →
  silent = true ∨ key_of r ∉ resolvingStack st →
  resolveIndirectReference (S fuel) r false silent st = (st, Return (key_of r)) ∧
  is_Some (deref st (key_of r)) ∧
  (resolvedCache st !! key_of r = None → raw_in T st (key_of r)) ∧
  (alias_free T →
     (is_Some (resolvedCache st !! key_of r) →
      deref st (key_of r) = settled <$> T !! key_of r) ∧
     (∀ st0 fuel0 silent0 l0, reachable T st0 → key_of r ∉ resolvingStack st0 →
        resolveIndirectReference fuel0 r true silent0 st0 = (st, Return l0) →
        is_Some (resolvedCache st !! key_of r))).
Proof.
  intros Hreach Hr Hmode. pose proof (reachable_Inv _ _ Hreach) as HI.
  assert (is_Some (deref st (key_of r))) as [o Ho].
  { apply elem_of_dom. by rewrite (inv_dom _ _ HI). }
  split; [|split; [by exists o|split; [intros Hc; by apply (inv_raw _ _ HI)|]]].
  - rewrite resolve_unfold. cbv zeta.
    destruct (resolvedCache st !! key_of r) as [l|] eqn:Hc.
    { by rewrite (inv_cache _ _ HI _ _ Hc). }
    unfold deref in Ho. rewrite Ho. case_decide as Hstack.
    { destruct Hmode as [->|]; done. }
    f_equal. destruct st as [m S c]. unfold set_stack. simpl in *. f_equal.
    by apply push_pop.
  - intros Hfree. split.
    + intros Hc%elem_of_dom. rewrite (reachable_table T st (key_of r) Hfree Hreach).
      by rewrite decide_True.
    + intros st0 fuel0 silent0 l0 Hreach0 Hstack0 Hcall.
      apply elem_of_dom.
      by destruct (resolve_deep_caches T fuel0 r silent0 st0 st l0 Hfree Hreach0 Hstack0 Hcall)
        as (_ & _ & ? & _).
Qed.

Lemma resolve_shallow_identity_witness :
  let st1 :=
    (resolveIndirectReference 3 (mkRef 30 0) true true (constructor table_nested)).1 in
  resolveIndirectReference 1 (mkRef 30 0) false true (constructor table_nested)
    = (constructor table_nested, Return "30 0") ∧
  raw_in table_nested (constructor table_nested) "30 0" ∧
  resolveIndirectReference 1 (mkRef 30 0) false true st1 = (st1, Return "30 0") ∧
  deref st1 "30 0" = Some (mkObj 30 0 (OPtr "31 0")).
Proof.
  intros st1.
  assert (key_of (mkRef 30 0) ∈ dom table_nested) as Hin
    by (apply (bool_decide_unpack _); vm_compute; exact I).
  destruct (resolve_shallow_identity table_nested (constructor table_nested) (mkRef 30 0)
              true 0 (reachable_fresh _) Hin (or_introl eq_refl)) as (H1 & _ & H2 & _).
  split; [exact H1|]. split; [apply H2; reflexivity|].
  destruct (resolve_shallow_identity table_nested st1 (mkRef 30 0)
              true 0 reachable_after_deep_30 Hin (or_introl eq_refl)) as (H3 & _ & _ & H4).
  split; [exact H3|].
  destruct (H4 table_nested_alias_free) as [Hcached Hafter].
  assert (is_Some (resolvedCache st1 !! key_of (mkRef 30 0))) as Hc.
  { apply (Hafter (constructor table_nested) 3%nat true "30 0" (reachable_fresh _)).
    - apply not_elem_of_empty.
    - vm_compute. reflexivity. }
  exact (Hcached Hc).
Defined.




(** The cache only ever holds keys of the table. *)
Lemma resolve_cache_dom (T : gmap string PDFIndirectObject) fuel : ∀ r deep s st,
  dom (indirectObjectsMap st) = dom T → dom (resolvedCache st) ⊆ dom T →
  post (λ st', dom (resolvedCache st') ⊆ dom T) (λ _ st', dom (resolvedCache st') ⊆ dom T)
       (λ _, True) (resolveIndirectReference fuel r deep s st).
Proof.
  induction fuel as [|fuel IH]; intros r deep s st Hd Hc; [simpl; done|].
  rewrite resolve_unfold. cbv zeta.
  destruct (resolvedCache st !! key_of r); [simpl; done|].
  destruct (indirectObjectsMap st !! key_of r) as [o|] eqn:Ho; [|simpl; done].
  case_decide as Hstack; [destruct s; simpl; done|].
  destruct deep; [|simpl; done].
  set (st1 := set_stack _ st).
  pose proof (deepResolve_with_rule (resolveIndirectReference fuel) s
    (λ st', dom (indirectObjectsMap st') = dom T ∧ dom (resolvedCache st') ⊆ dom T)
    (λ _ st', dom (resolvedCache st') ⊆ dom T)
    (λ _, True) (λ _, True) (λ _, True) (λ _, True)) as Hrule.
  assert (∀ r' st', True →
      dom (indirectObjectsMap st') = dom T ∧ dom (resolvedCache st') ⊆ dom T →
      post (λ st', dom (indirectObjectsMap st') = dom T ∧ dom (resolvedCache st') ⊆ dom T)
           (λ _ st', dom (resolvedCache st') ⊆ dom T)
           (λ _ : string, True ∧ True)
           (resolveIndirectReference fuel r' true s st')) as Hok.
  { intros r' st' _ [Hd' Hc'].
    eapply post_mono; [apply post_and; [apply (resolve_frame fuel)|by apply IH]| | |].
    - intros st'' [[H1 _] H2]. split; [|done]. by rewrite (same_ids_dom _ _ H1).
    - by intros e st'' [_ H].
    - auto. }
  specialize (Hrule Hok ltac:(by intros ?? _ [_ ?] _) (value o) st1).
  specialize (Hrule ltac:(by apply Forall_true) ltac:(by apply Forall_true) ltac:(done)).
  destruct (deepResolve_with _ _ _ st1) as [st2 [v|e]]; simpl in *; [|done].
  destruct Hrule as [[Hd2 Hc2] _]. split; [|done].
  rewrite dom_insert. apply union_least; [|done].
  apply singleton_subseteq_l. rewrite <- Hd. apply elem_of_dom. eauto.
Qed.

Lemma reachable_cache_dom (T : gmap string PDFIndirectObject) st : reachable T st → dom (resolvedCache st) ⊆ dom T.
Proof.
  induction 1 as [|st fuel r deep s st' out Hreach IH Hcall _]; [simpl; set_solver|].
  pose proof (resolve_cache_dom T fuel r deep s st
                (inv_dom _ _ (reachable_Inv _ _ Hreach)) IH) as H.
  rewrite Hcall in H. destruct out; simpl in H; tauto.
Qed.

(** X1: A reference to an object the table does not have is refused, in every
    state the resolver can reach and in every mode, and the resolver is left
    as it was. *)
Theorem resolve_unknown_reference T st r deep silent fuel :
  reachable T st → key_of r ∉ dom T →
  resolveIndirectReference (S fuel) r deep silent st
  = (st, Throw (UnknownReference (key_of r))).
Proof.
  intros Hreach Hr. rewrite resolve_unfold. cbv zeta.
  assert (resolvedCache st !! key_of r = None) as ->.
  { apply not_elem_of_dom. intros Hin. apply Hr. by apply (reachable_cache_dom T st). }
  assert (indirectObjectsMap st !! key_of r = None) as ->; [|done].
  apply not_elem_of_dom. by rewrite (inv_dom _ _ (reachable_Inv _ _ Hreach)).
Qed.

Lemma resolve_in_progress k fuel : ∀ r s st,
  in_progress k st →
  post (in_progress k) (λ _, in_progress k) (λ _, True)
       (resolveIndirectReference fuel r true s st).
Proof.
  induction fuel as [|fuel IH]; intros r s st HJ; [simpl; done|].
  rewrite resolve_unfold. cbv zeta.
  destruct (resolvedCache st !! key_of r) eqn:Hc; [simpl; done|].
  destruct (indirectObjectsMap st !! key_of r) as [o|] eqn:Ho; [|simpl; done].
  case_decide as Hstack; [destruct s; simpl; done|].
  assert (key_of r ≠ k) as Hne by (intros Heq; rewrite Heq in Hstack; by destruct HJ).
  set (st1 := set_stack _ st).
  pose proof (deepResolve_with_rule (resolveIndirectReference fuel) s
    (in_progress k) (λ _, in_progress k)
    (λ _, True) (λ _, True) (λ _, True) (λ _, True)) as Hrule.
  assert (∀ r' st', True → in_progress k st' →
      post (in_progress k) (λ _, in_progress k) (λ _ : string, True ∧ True)
           (resolveIndirectReference fuel r' true s st')) as Hok.
  { intros r' st' _ HJ'. eapply post_mono; [by apply IH| | |]; auto. }
  specialize (Hrule Hok ltac:(by intros) (value o) st1).
  specialize (Hrule ltac:(by apply Forall_true) ltac:(by apply Forall_true)).
  destruct HJ as (HJ1 & HJ2 & HJ3).
  specialize (Hrule ltac:(subst st1; split; [simpl; set_solver|done])).
  destruct (deepResolve_with _ _ _ st1) as [st2 [v|e]]; simpl in *; [|done].
  destruct Hrule as [(H1 & H2 & H3) _]. split; [|done]. split; [|split].
  - simpl. set_solver.
  - simpl. by rewrite lookup_insert_ne.
  - simpl. destruct (indirectObjectsMap st2 !! key_of r); [|done].
    rewrite dom_insert. set_solver.
Qed.

(** X2: A deep call that throws leaves the key of its reference on the
    resolving stack: from then on a call for the same reference is answered as
    a cycle would be, with the circular reference error when cycles are not
    silent and with the table's object as it stands when they are, and the
    object is never resolved. *)
Theorem throw_poisons_key fuel r silent st st' e :
  resolvedCache st !! key_of r = None →
  key_of r ∈ dom (indirectObjectsMap st) →
  key_of r ∉ resolvingStack st →
  resolveIndirectReference (S fuel) r true silent st = (st', Throw e) →
  in_progress (key_of r) st' ∧
  ∀ fuel' deep,
    resolveIndirectReference (S fuel') r deep false st'
      = (st', Throw (CircularReference (key_of r))) ∧
    resolveIndirectReference (S fuel') r deep true st' = (st', Return (key_of r)).
Proof.
  intros Hc [o Ho]%elem_of_dom Hstack. rewrite resolve_unfold. cbv zeta.
  rewrite Hc, Ho, decide_False by done.
  set (st1 := set_stack _ st).
  pose proof (deepResolve_with_rule (resolveIndirectReference fuel) silent
    (in_progress (key_of r)) (λ _, in_progress (key_of r))
    (λ _, True) (λ _, True) (λ _, True) (λ _, True)) as Hrule.
  assert (∀ r' st0, True → in_progress (key_of r) st0 →
      post (in_progress (key_of r)) (λ _, in_progress (key_of r)) (λ _ : string, True ∧ True)
           (resolveIndirectReference fuel r' true silent st0)) as Hok.
  { intros r' st0 _ HJ'. eapply post_mono; [by apply resolve_in_progress| | |]; auto. }
  specialize (Hrule Hok ltac:(by intros) (value o) st1).
  specialize (Hrule ltac:(by apply Forall_true) ltac:(by apply Forall_true)).
  specialize (Hrule ltac:(subst st1; split; [simpl; set_solver|split; [done|]];
                          simpl; apply elem_of_dom; eauto)).
  destruct (deepResolve_with _ _ _ st1) as [st2 [v|e2]]; simpl in *; [done|].
  intros Heq. injection Heq as <- <-. split; [exact Hrule|].
  destruct Hrule as (H1 & H2 & [o2 H3]%elem_of_dom).
  intros fuel' deep. rewrite !resolve_unfold. cbv zeta.
  by rewrite H2, H3, !decide_True by done.
Qed.



Lemma resolve_unknown_reference_witness :
  resolveIndirectReference 1 (mkRef 99 0) true false (constructor table_nested)
  = (constructor table_nested, Throw (UnknownReference "99 0")).
Proof.
  apply (resolve_unknown_reference table_nested (constructor table_nested) (mkRef 99 0)
           true false 0).
  - apply reachable_fresh.
  - apply not_elem_of_dom. reflexivity.
Defined.

Lemma throw_poisons_key_witness :
  ∃ st',
    resolveIndirectReference 3 (mkRef 1 0) true true (constructor table_dangling)
    = (st', Throw (UnknownReference "9 0")) ∧
    resolveIndirectReference 3 (mkRef 1 0) true false st'
    = (st', Throw (CircularReference "1 0")) ∧
    resolveIndirectReference 3 (mkRef 1 0) false true st' = (st', Return "1 0").
Proof.
  destruct (resolveIndirectReference 3 (mkRef 1 0) true true (constructor table_dangling))
    as [st' [v|e]] eqn:Hcall; [vm_compute in Hcall; discriminate Hcall|].
  assert (e = UnknownReference "9 0") as ->.
  { vm_compute in Hcall. injection Hcall as _ <-. reflexivity. }
  exists st'. split; [reflexivity|].
  assert (key_of (mkRef 1 0) ∈ dom (indirectObjectsMap (constructor table_dangling))) as Hdom.
  { apply elem_of_dom. eexists. reflexivity. }
  assert (key_of (mkRef 1 0) ∉ resolvingStack (constructor table_dangling)) as Hstack.
  { simpl. apply not_elem_of_empty. }
  destruct (throw_poisons_key 2 (mkRef 1 0) true (constructor table_dangling) st' _
              eq_refl Hdom Hstack Hcall) as [_ Hlater].
  split; [apply (Hlater 2%nat true)|apply (Hlater 2%nat false)].
Defined.

End ResolverFacts.

(** ** The page builder *)
Module PageFacts.
Import Resolver Page.

Lemma bind_return {S E A B} (m : SE S E A) (f : A → SE S E B) st st' b :
  bind m f st = (st', Return b) →
  ∃ st1 a, m st = (st1, Return a) ∧ f a st1 = (st', Return b).
Proof.
  unfold bind. destruct (m st) as [st1 [a|e]]; [eauto|done].
Qed.

(** [resolveBox] never throws and never touches the resolver; it allocates
    exactly when the dictionary has a truthy entry of that name. *)
Lemma resolveBox_spec dict name w :
  ∃ w' ob, resolveBox dict name w = (w', Return ob) ∧ resolver w' = resolver w ∧
    (ob = None ↔ truthy (dict_get name dict) = false) ∧
    (length (heap w) ≤ length (heap w'))%nat ∧
    (∀ l, ob = Some l → (l < length (heap w'))%nat).
Proof.
  unfold resolveBox. destruct (truthy (dict_get name dict)) eqn:Ht; simpl.
  - destruct (dict_get name dict) as [b|]; [|done].
    eexists _, _. split; [reflexivity|]. simpl. split; [done|].
    rewrite length_app. simpl. split; [done|]. split; [lia|].
    intros l [= <-]. lia.
  - eexists _, _. split; [reflexivity|]. split; [done|]. split; [done|].
    split; [lia|done].
Qed.

Lemma lift_heap {A} (m : Resolver.M A) w : heap (lift m w).1 = heap w.
Proof. unfold lift. by destruct (m (resolver w)) as [st' [a|e]]. Qed.

Lemma bind_heap {A B} (m : PM A) (f : A → PM B) w :
  (∀ w0, heap (m w0).1 = heap w0) → (∀ a w0, heap (f a w0).1 = heap w0) →
  heap (bind m f w).1 = heap w.
Proof.
  intros Hm Hf. unfold bind. specialize (Hm w).
  destruct (m w) as [w1 [a|e]]; simpl in *; [|done]. by rewrite Hf.
Qed.

Lemma key_of_value_heap v w : heap (key_of_value v w).1 = heap w.
Proof.
  destruct v as [[]|]; try done. simpl. by destruct (deref (resolver w) loc).
Qed.

Lemma method_get_heap d k w : heap (method_get d k w).1 = heap w.
Proof. by destruct d. Qed.

Lemma resolve_value_heap fuel v deep w : heap (resolve_value fuel v deep w).1 = heap w.
Proof.
  unfold resolve_value. apply bind_heap; [apply key_of_value_heap|].
  intros key w0. apply bind_heap; [intros; apply lift_heap|].
  intros l w1. by destruct (deref (resolver w1) l).
Qed.

(** Resolving the resources allocates no rectangle. *)
Lemma resolveResources_heap fuel dict par w :
  heap (resolveResources fuel dict par w).1 = heap w.
Proof.
  unfold resolveResources. apply bind_heap.
  - intros w0. case_match; [|done].
    apply bind_heap; [intros; apply resolve_value_heap|].
    intros d w1. case_match; [apply method_get_heap|done].
  - intros r0 w0. apply bind_heap; [intros; apply resolve_value_heap|].
    intros d w1. repeat (apply bind_heap; [intros; apply method_get_heap|]; intros ? ?).
    done.
Qed.

(** What a page that got built holds: every box is the leaf dictionary's
    own entry of that name or undefined, the crop box falls back on the media
    box, the rotation is the leaf's own entry or 0, and the boxes are arrays of
    the heap. *)
Lemma constructor_fields fuel ref dict w w' p :
  Page.constructor fuel ref dict w = (w', Return p) →
  (mediaBox p = None ↔ truthy (dict_get "MediaBox" dict) = false) ∧
  (cropBox p = None ↔
     truthy (dict_get "CropBox" dict) = false ∧ truthy (dict_get "MediaBox" dict) = false) ∧
  rotate p = js_or (dict_get "Rotate" dict) (ONumber 0) ∧
  page_allocated p w'.
Proof.
  unfold Page.constructor. intros H.
  apply bind_return in H as (w1 & m & Hm & H).
  apply bind_return in H as (w2 & c & Hc & H).
  apply bind_return in H as (w3 & bl & Hbl & H).
  apply bind_return in H as (w4 & tr & Htr & H).
  apply bind_return in H as (w5 & ar & Har & H).
  apply bind_return in H as (w6 & rs & Hrs & H).
  injection H as <- <-. simpl.
  pose proof (resolveResources_heap fuel dict (dict_get "Parent" dict) w5) as Hheap.
  rewrite Hrs in Hheap. simpl in Hheap.
  destruct (resolveBox_spec dict "MediaBox" w) as (? & ? & E1 & _ & N1 & L1 & A1).
  rewrite Hm in E1. injection E1 as <- <-.
  destruct (resolveBox_spec dict "CropBox" w1) as (? & ? & E2 & _ & N2 & L2 & A2).
  rewrite Hc in E2. injection E2 as <- <-.
  destruct (resolveBox_spec dict "BleedBox" w2) as (? & ? & E3 & _ & N3 & L3 & A3).
  rewrite Hbl in E3. injection E3 as <- <-.
  destruct (resolveBox_spec dict "TrimBox" w3) as (? & ? & E4 & _ & N4 & L4 & A4).
  rewrite Htr in E4. injection E4 as <- <-.
  destruct (resolveBox_spec dict "ArtBox" w4) as (? & ? & E5 & _ & N5 & L5 & A5).
  rewrite Har in E5. injection E5 as <- <-.
  split; [done|]. split; [|split; [done|]].
  - destruct c as [lc|]; [|rewrite N1; naive_solver].
    split; [done|]. intros [Hc' _]. apply N2 in Hc'. done.
  - intros b l. rewrite Hheap. destruct b; simpl.
    + intros Hl. specialize (A1 l Hl). lia.
    + destruct c as [lc|].
      * intros [= <-]. specialize (A2 lc eq_refl). lia.
      * intros Hl. specialize (A1 l Hl). lia.
    + intros Hl. specialize (A3 l Hl). lia.
    + intros Hl. specialize (A4 l Hl). lia.
    + intros Hl. specialize (A5 l Hl). lia.
Qed.








(** C4, the code at the failing input: a leaf without MediaBox whose parent
    carries one.  The page gets built, the parent is consulted for Resources
    only, and the page has no media box and no crop box; [getMediaBox] then
    throws. *)
Theorem constructor_without_mediabox :
  (∃ o, table_inherit !! "2 0" = Some o ∧
        ∃ entries, value o = ODict entries ∧ dict_get "MediaBox" entries = Some letter) ∧
  ∃ w p,
    Page.constructor 3 (mkRef 4 0) leaf_without_mediabox (fresh_world table_inherit)
      = (w, Return p) ∧
    mediaBox p = None ∧ cropBox p = None ∧
    ProcSet (resources p) = OArray [OString "PDF"] ∧
    (getMediaBox p w).2 = Throw (TypeError "undefined is not iterable").
Proof.
  split.
  - eexists. split; [reflexivity|]. eexists. split; reflexivity.
  - eexists _, _. split; [vm_compute; reflexivity|]. repeat split.
Qed.

(** A leaf without MediaBox never gets one: the constructor looks at the
    leaf's own dictionary and nowhere else. *)
Lemma constructor_mediabox_leaf_only fuel ref dict w w' p :
  dict_get "MediaBox" dict = None →
  Page.constructor fuel ref dict w = (w', Return p) →
  mediaBox p = None.
Proof.
  intros Hd Hc. apply (constructor_fields _ _ _ _ _ _ Hc). by rewrite Hd.
Qed.

(** C8, as stated, fails: a leaf with Rotate 45 gives a page whose rotate
    is 45. *)
Lemma rotate_not_normalized :
  ∃ w p,
    Page.constructor 3 (mkRef 4 0) leaf_rotate_45 (fresh_world table_inherit) = (w, Return p) ∧
    getRotation p = ONumber 45 ∧ ¬ right_angle (rotate p).
Proof.
  eexists _, _. split; [vm_compute; reflexivity|]. split; [reflexivity|].
  simpl. intros [H|[H|[H|H]]]; discriminate H.
Qed.

(** C8, amended: the rotate attribute of a page is the Rotate entry of the
    leaf's own dictionary, as it stands, or 0 when the entry is missing or
    falsy; it is one of 0, 90, 180, 270 exactly when that entry is (or is
    missing or falsy).  Nothing is normalized. *)
Theorem rotate_is_leaf_entry fuel ref dict w w' p :
  Page.constructor fuel ref dict w = (w', Return p) →
  rotate p = js_or (dict_get "Rotate" dict) (ONumber 0) ∧
  (right_angle (rotate p) ↔
   truthy (dict_get "Rotate" dict) = false ∨
   ∃ v, dict_get "Rotate" dict = Some v ∧ right_angle v).
Proof.
  intros Hc. destruct (constructor_fields _ _ _ _ _ _ Hc) as (_ & _ & Hr & _).
  split; [done|]. rewrite Hr. unfold js_or.
  destruct (dict_get "Rotate" dict) as [v|] eqn:Hv.
  - destruct (truthy (Some v)) eqn:Ht.
    + split; [intros H; right; eauto|]. intros [H|(v' & [= <-] & H)]; done.
    + split; [by left|]. intros _. by left.
  - split; [by left|]. intros _. by left.
Qed.

Lemma rotate_is_leaf_entry_witness :
  ∃ w p,
    Page.constructor 3 (mkRef 4 0) leaf_rotate_45 (fresh_world table_inherit) = (w, Return p) ∧
    rotate p = ONumber 45.
Proof.
  destruct (Page.constructor 3 (mkRef 4 0) leaf_rotate_45 (fresh_world table_inherit))
    as [w [p|e]] eqn:Hcons; [|vm_compute in Hcons; discriminate Hcons].
  exists w, p. split; [reflexivity|].
  destruct (rotate_is_leaf_entry 3 (mkRef 4 0) leaf_rotate_45 _ w p Hcons) as [Hr _].
  rewrite Hr. reflexivity.
Defined.

Lemma resolveBox_eq dict name w :
  resolveBox dict name w =
  match dict_get name dict with
  | Some v =>
      if truthy (Some v)
      then ({| resolver := resolver w;
               heap := heap w ++ [[js_index v 0; js_index v 1; js_index v 2; js_index v 3]] |},
            Return (Some (length (heap w))))
      else (w, Return None)
  | None => (w, Return None)
  end.
Proof.
  unfold resolveBox. destruct (dict_get name dict) as [v|]; [|done].
  by destruct (truthy (Some v)).
Qed.

(** What [resolveBox] leaves in the heap: what was there, and the new
    rectangle when it made one. *)
Lemma resolveBox_heap dict name w w' ob :
  resolveBox dict name w = (w', Return ob) →
  resolver w' = resolver w ∧
  (∀ l rect, heap w !! l = Some rect → heap w' !! l = Some rect) ∧
  match ob with
  | Some l =>
      ∃ v, dict_get name dict = Some v ∧ truthy (Some v) = true ∧
           heap w' !! l = Some [js_index v 0; js_index v 1; js_index v 2; js_index v 3]
  | None => truthy (dict_get name dict) = false
  end.
Proof.
  rewrite resolveBox_eq. destruct (dict_get name dict) as [v|]; [|by intros [= <- <-]].
  destruct (truthy (Some v)) eqn:Ht; [|by intros [= <- <-]].
  intros [= <- <-]. simpl. split; [done|]. split.
  - intros l rect Hl. by apply lookup_app_l_Some.
  - exists v. split; [done|]. split; [done|].
    rewrite lookup_app_r by lia. by rewrite Nat.sub_diag.
Qed.

(** X4: Every box of a page that got built is an array of exactly four
    elements: the first four of the entry it was read from, undefined where
    the entry has fewer (or is no array), with no check of what they are.  A
    page without CropBox holds its media box as its crop box, the same
    array. *)
Theorem constructor_boxes fuel ref dict w w' p :
  Page.constructor fuel ref dict w = (w', Return p) →
  (∀ b, match stored p b with
        | Some l =>
            ∃ v, box_entry dict b = Some v ∧ truthy (Some v) = true ∧
                 heap w' !! l
                 = Some [js_index v 0; js_index v 1; js_index v 2; js_index v 3]
        | None => truthy (box_entry dict b) = false
        end) ∧
  (truthy (dict_get "CropBox" dict) = false → cropBox p = mediaBox p).
Proof.
  unfold Page.constructor. intros H.
  apply bind_return in H as (w1 & m & Hm & H).
  apply bind_return in H as (w2 & c & Hc & H).
  apply bind_return in H as (w3 & bl & Hbl & H).
  apply bind_return in H as (w4 & tr & Htr & H).
  apply bind_return in H as (w5 & ar & Har & H).
  apply bind_return in H as (w6 & rs & Hrs & H).
  injection H as <- <-.
  pose proof (resolveResources_heap fuel dict (dict_get "Parent" dict) w5) as Hheap.
  rewrite Hrs in Hheap. simpl in Hheap.
  apply resolveBox_heap in Hm as (_ & K1 & B1). apply resolveBox_heap in Hc as (_ & K2 & B2).
  apply resolveBox_heap in Hbl as (_ & K3 & B3). apply resolveBox_heap in Htr as (_ & K4 & B4).
  apply resolveBox_heap in Har as (_ & K5 & B5).
  split.
  - intros b. rewrite Hheap. destruct b; simpl.
    + destruct m as [l|]; [|done]. destruct B1 as (v & ? & ? & Hl). exists v.
      split; [done|]. split; [done|]. auto.
    + destruct c as [l|].
      * destruct B2 as (v & Hv & Ht & Hl). exists v. rewrite Hv, Ht.
        split; [done|]. split; [done|]. auto.
      * rewrite B2. destruct m as [l|]; [|done]. destruct B1 as (v & ? & ? & Hl). exists v.
        split; [done|]. split; [done|]. auto.
    + destruct bl as [l|]; [|done]. destruct B3 as (v & ? & ? & Hl). exists v.
      split; [done|]. split; [done|]. auto.
    + destruct tr as [l|]; [|done]. destruct B4 as (v & ? & ? & Hl). exists v.
      split; [done|]. split; [done|]. auto.
    + destruct ar as [l|]; [|done]. destruct B5 as (v & ? & ? & Hl). exists v.
      split; [done|]. split; [done|]. auto.
  - simpl. intros Ht. destruct c as [l|]; [|done].
    destruct B2 as (v & Hv & Ht' & _). rewrite Hv in Ht. congruence.
Qed.

Lemma bind_throw {S E A B} (m : SE S E A) (f : A → SE S E B) st st' e :
  m st = (st', Throw e) → bind m f st = (st', Throw e).
Proof. unfold bind. by intros ->. Qed.

Lemma bind_run {S E A B} (m : SE S E A) (f : A → SE S E B) st st' a :
  m st = (st', Return a) → bind m f st = f a st'.
Proof. unfold bind. by intros ->. Qed.

(** A shallow call for a key that is neither cached nor being resolved
    returns the key's object and leaves the resolver as it was. *)
Lemma resolve_at_shallow fuel k s st o :
  resolvedCache st !! k = None → indirectObjectsMap st !! k = Some o →
  k ∉ resolvingStack st →
  resolve_at (S fuel) k false s st = (st, Return k).
Proof.
  intros Hc Ho Hs. simpl. rewrite Hc, Ho, decide_False by done. f_equal.
  destruct st as [m S c]. unfold set_stack. simpl in *. f_equal. set_solver.
Qed.

(** The five calls of [resolveBox] at the start of the constructor always
    return, leaving the resolver alone. *)
Lemma constructor_after_boxes fuel ref dict w :
  ∃ w5, resolver w5 = resolver w ∧
    ∀ e w', resolveResources fuel dict (dict_get "Parent" dict) w5 = (w', Throw e) →
            Page.constructor fuel ref dict w = (w', Throw e).
Proof.
  unfold Page.constructor.
  destruct (resolveBox_spec dict "MediaBox" w) as (w1 & m & E1 & R1 & _).
  destruct (resolveBox_spec dict "CropBox" w1) as (w2 & c & E2 & R2 & _).
  destruct (resolveBox_spec dict "BleedBox" w2) as (w3 & bl & E3 & R3 & _).
  destruct (resolveBox_spec dict "TrimBox" w3) as (w4 & tr & E4 & R4 & _).
  destruct (resolveBox_spec dict "ArtBox" w4) as (w5 & ar & E5 & R5 & _).
  exists w5. split; [congruence|]. intros e w' Hr.
  rewrite (bind_run _ _ _ _ _ E1), (bind_run _ _ _ _ _ E2), (bind_run _ _ _ _ _ E3),
    (bind_run _ _ _ _ _ E4), (bind_run _ _ _ _ _ E5).
  by apply bind_throw.
Qed.

(** X5: The constructor needs the Resources as an indirect reference, in the
    leaf or in its direct parent.  A Resources dictionary written in the page
    itself is taken for a reference without numbers and refused as unknown; a
    page without Resources and without Parent, or whose parent has none,
    makes the constructor fail on undefined, whatever the rest of the page
    tree holds. *)
Theorem constructor_needs_resources_reference fuel ref dict w :
  let st := resolver w in
  (∀ entries, dict_get "Resources" dict = Some (ODict entries) →
     resolvedCache st !! "undefined undefined" = None →
     indirectObjectsMap st !! "undefined undefined" = None →
     ∃ w', Page.constructor (S fuel) ref dict w
           = (w', Throw (ResolverError (UnknownReference "undefined undefined")))) ∧
  (dict_get "Resources" dict = None → dict_get "Parent" dict = None →
     ∃ w', Page.constructor fuel ref dict w
           = (w', Throw (TypeError "Cannot read properties of undefined"))) ∧
  (∀ pr o entries,
     dict_get "Resources" dict = None → dict_get "Parent" dict = Some (ORef pr) →
     resolvedCache st = ∅ → resolvingStack st = ∅ →
     indirectObjectsMap st !! key_of pr = Some o → value o = ODict entries →
     dict_get "Resources" entries = None →
     ∃ w', Page.constructor (S fuel) ref dict w
           = (w', Throw (TypeError "Cannot read properties of undefined"))).
Proof.
  intros st. subst st. split; [|split].
  - intros entries Hres Hc Ht.
    destruct (constructor_after_boxes (S fuel) ref dict w) as (w5 & Hr5 & Hcons).
    eexists. apply Hcons. unfold resolveResources. rewrite Hres. simpl.
    erewrite (bind_run (ret _)) by reflexivity.
    apply bind_throw. unfold resolve_value.
    erewrite (bind_run (key_of_value _)) by reflexivity.
    apply bind_throw. unfold lift. simpl. rewrite Hr5, Hc, Ht. reflexivity.
  - intros Hres Hpar.
    destruct (constructor_after_boxes fuel ref dict w) as (w5 & Hr5 & Hcons).
    eexists. apply Hcons. unfold resolveResources. rewrite Hres, Hpar. simpl.
    erewrite (bind_run (ret _)) by reflexivity.
    apply bind_throw. unfold resolve_value. by apply bind_throw.
  - intros pr o entries Hres Hpar Hc Hs Ho Hv Hent.
    destruct (constructor_after_boxes (S fuel) ref dict w) as (w5 & Hr5 & Hcons).
    eexists. apply Hcons. unfold resolveResources. rewrite Hres, Hpar. simpl.
    assert (resolve_value (S fuel) (Some (ORef pr)) false w5 = (w5, Return (ODict entries)))
      as Hpv.
    { unfold resolve_value. erewrite (bind_run (key_of_value _)) by reflexivity.
      assert (lift (resolve_at (S fuel) (key_of pr) false true) w5 = (w5, Return (key_of pr)))
        as Hl.
      { unfold lift. rewrite (resolve_at_shallow fuel (key_of pr) true (resolver w5) o).
        - by destruct w5.
        - by rewrite Hr5, Hc.
        - by rewrite Hr5.
        - rewrite Hr5, Hs. set_solver. }
      rewrite (bind_run _ _ _ _ _ Hl). unfold deref. by rewrite Hr5, Ho, Hv. }
    erewrite (bind_run (bind _ _)).
    2:{ rewrite (bind_run _ _ _ _ _ Hpv). simpl. unfold ret. by rewrite Hent. }
    apply bind_throw. unfold resolve_value. by apply bind_throw.
Qed.

(** X6: No call fills the content cache: [getTextContent] and [render] fail
    with "Method not implemented", whatever the page and the state of the
    cache, and after any sequence of calls on a new page [isContentCached]
    still answers false. *)
Theorem content_never_parsed this calls :
  let run := foldl (λ cache c, (content_call this c cache).1) new_cache calls in
  isContentCached run = false ∧
  (getTextContent this run).2 = Throw MethodNotImplemented ∧
  ∀ paint, (render paint this run).2 = Throw MethodNotImplemented.
Proof.
  intros run.
  assert (∀ cache, _isContentParsed cache = false →
            (getTextContent this cache = (cache, Throw MethodNotImplemented)) ∧
            ∀ paint, render paint this cache = (cache, Throw MethodNotImplemented)) as Hfail.
  { intros cache Hc. unfold getTextContent, render, ensure_parsed, bind. rewrite Hc. done. }
  assert (_isContentParsed run = false) as Hrun.
  { subst run. generalize new_cache (eq_refl : _isContentParsed new_cache = false).
    induction calls as [|c calls IH]; intros cache Hc; [done|].
    simpl. apply IH. destruct (Hfail cache Hc) as [Hg Hr].
    destruct c as [|paint|]; simpl; [by rewrite Hg|by rewrite Hr|done]. }
  destruct (Hfail run Hrun) as [Hg Hr]. split; [done|]. split; [by rewrite Hg|].
  intros paint. by rewrite Hr.
Qed.

Lemma constructor_boxes_witness :
  ∃ w p,
    Page.constructor 3 (mkRef 4 0) leaf_letter (fresh_world table_inherit) = (w, Return p) ∧
    cropBox p = mediaBox p.
Proof.
  destruct (Page.constructor 3 (mkRef 4 0) leaf_letter (fresh_world table_inherit))
    as [w [p|e]] eqn:Hcons; [|vm_compute in Hcons; discriminate Hcons].
  exists w, p. split; [reflexivity|].
  exact (proj2 (constructor_boxes 3 (mkRef 4 0) leaf_letter _ w p Hcons) eq_refl).
Defined.

End PageFacts.

(** ** The tokenizer *)
Module TokenizerFacts.
Import Tokenizer.

Lemma isEOF_false this : isEOF this = false ↔ (position this < length (buffer this))%nat.
Proof. unfold isEOF. rewrite bool_decide_eq_false. lia. Qed.

Lemma isEOF_true this : isEOF this = true ↔ (length (buffer this) ≤ position this)%nat.
Proof. unfold isEOF. by rewrite bool_decide_eq_true. Qed.

Lemma read_octal_frame this nextByte :
  buffer (read_octal this nextByte).1 = buffer this ∧
  (position this ≤ position (read_octal this nextByte).1)%nat.
Proof.
  unfold read_octal. repeat case_match; simpl; split; try done; lia.
Qed.

(** A turn of the loop keeps the buffer and moves the cursor forward. *)
Lemma literal_body_frame s :
  buffer (lit_this (literal_body s).1) = buffer (lit_this s) ∧
  (position (lit_this s) < position (lit_this (literal_body s).1))%nat.
Proof.
  unfold literal_body.
  destruct (current (lit_this s) =? 40); [simpl; split; [done|lia]|].
  destruct (current (lit_this s) =? 41); [simpl; split; [done|lia]|].
  destruct (current (lit_this s) =? 92); [|simpl; split; [done|lia]].
  destruct (isEOF (advance (lit_this s))); [simpl; split; [done|lia]|].
  pose proof (read_octal_frame (advance (advance (lit_this s)))
                (current (advance (lit_this s)))) as [Hb Hp].
  destruct (read_octal _ _) as [this' octal]. simpl in Hb, Hp.
  repeat case_match; simpl; split; try done; try lia.
Qed.

(** The loop of [readLiteralString] ends, within as many turns as the
    buffer has bytes left; if it ends with a parenthesis still open, the cursor
    is at the end of the buffer. *)
Lemma literal_loop_total fuel : ∀ s,
  (length (buffer (lit_this s)) - position (lit_this s) ≤ fuel)%nat →
  ∃ s', literal_loop fuel s = Some s' ∧
        buffer (lit_this s') = buffer (lit_this s) ∧
        (0 < lit_depth s' → isEOF (lit_this s') = true).
Proof.
  induction fuel as [|fuel IH]; intros s Hfuel.
  - simpl. destruct (isEOF (lit_this s)) eqn:He.
    + simpl. exists s. auto.
    + apply isEOF_false in He. lia.
  - simpl. destruct (isEOF (lit_this s)) eqn:He; simpl.
    { exists s. auto. }
    destruct (0 <? lit_depth s) eqn:Hd.
    2:{ exists s. split; [done|]. split; [done|]. lia. }
    pose proof (literal_body_frame s) as [Hb Hp].
    destruct (literal_body s) as [s1 broke] eqn:Hbody. simpl in Hb, Hp.
    destruct broke.
    + exists s1. split; [done|]. split; [done|]. intros _.
      (* the only break is at the end of the buffer *)
      revert Hbody. unfold literal_body.
      repeat case_match; intros Heq; inversion Heq; subst; simpl; done.
    + destruct (IH s1) as (s' & Hs' & Hb' & He'); [rewrite Hb; lia|].
      exists s'. split; [done|]. split; [congruence|done].
Qed.

Lemma current_lookup this b :
  isEOF this = false → current this = b → buffer this !! position this = Some b.
Proof.
  intros He%isEOF_false <-. unfold current.
  destruct (lookup_lt_is_Some_2 _ _ He) as [b ->]. done.
Qed.

(** A turn of the loop that reads no closing parenthesis does not close
    one. *)
Lemma literal_body_depth s :
  isEOF (lit_this s) = false →
  buffer (lit_this s) !! position (lit_this s) ≠ Some 41 →
  lit_depth s ≤ lit_depth (literal_body s).1.
Proof.
  intros He Hno. unfold literal_body.
  destruct (current (lit_this s) =? 40); [simpl; lia|].
  destruct (current (lit_this s) =? 41) eqn:H41.
  { apply Z.eqb_eq in H41. by destruct Hno; apply current_lookup. }
  destruct (current (lit_this s) =? 92); [|simpl; lia].
  destruct (isEOF (advance (lit_this s))); [simpl; lia|].
  destruct (read_octal _ _) as [this' octal].
  repeat case_match; simpl; lia.
Qed.

(** With no closing parenthesis from the cursor on, the loop ends with the
    parentheses it started with still open. *)
Lemma literal_loop_open fuel : ∀ s s',
  (∀ i, (position (lit_this s) ≤ i)%nat → buffer (lit_this s) !! i ≠ Some 41) →
  literal_loop fuel s = Some s' →
  lit_depth s ≤ lit_depth s'.
Proof.
  induction fuel as [|fuel IH]; intros s s' Hno; simpl.
  - case_match; [done|]. intros [= <-]. lia.
  - destruct (negb (isEOF (lit_this s)) && (0 <? lit_depth s)) eqn:Hc;
      [|intros [= <-]; lia].
    apply andb_true_iff in Hc as [He%negb_true_iff _].
    pose proof (literal_body_frame s) as [Hb Hp].
    pose proof (literal_body_depth s He (Hno _ (Nat.le_refl _))) as Hd.
    destruct (literal_body s) as [s1 broke]. simpl in Hb, Hp, Hd.
    destruct broke; [intros [= <-]; done|].
    intros Hs'. apply IH in Hs'; [lia|].
    intros i Hi. rewrite Hb. apply Hno. lia.
Qed.

(** The loop of [readHexString] ends, at a byte 62 it has moved up to or at
    the end of the buffer. *)
Lemma hex_loop_total fuel : ∀ this hexString,
  (length (buffer this) - position this ≤ fuel)%nat →
  ∃ this' hexString', hex_loop fuel this hexString = Some (this', hexString') ∧
        buffer this' = buffer this ∧
        (position this ≤ position this')%nat ∧
        (isEOF this' = true ∨ buffer this' !! position this' = Some 62).
Proof.
  induction fuel as [|fuel IH]; intros this hexString Hfuel.
  - simpl. destruct (isEOF this) eqn:He.
    + simpl. eauto 8.
    + apply isEOF_false in He. lia.
  - simpl. destruct (isEOF this) eqn:He; simpl; [eauto 8|].
    destruct (current this =? 62) eqn:Hc; simpl.
    { apply Z.eqb_eq in Hc. apply (current_lookup _ _ He) in Hc. eauto 8. }
    apply isEOF_false in He.
    destruct (isWhitespace (current this)); simpl;
      edestruct (IH (advance this)) as (this' & hex' & -> & Hb & Hp & Hend);
      try (simpl; lia); simpl in Hp; eexists _, _; (split; [done|]);
      (split; [done|]); (split; [lia|done]).
Qed.

(** C6, as stated, fails: "(abc" running into the end of the buffer gives
    the STRING token "abc", and "<4142" running into the end of the buffer
    gives the HEX_STRING token "AB"; nothing is raised. *)
Lemma unterminated_strings_are_tokens :
  (readLiteralString (mkTokenizer buffer_open_literal 9)
     = Some (mkTokenizer buffer_open_literal 13, mkToken STRING (bytes_of "abc")) ∧
   lit_depth <$> literal_scan (mkTokenizer buffer_open_literal 9) = Some 1) ∧
  readHexString (mkTokenizer buffer_open_hex 9)
    = Some (mkTokenizer buffer_open_hex 14, mkToken HEX_STRING (bytes_of "AB")).
Proof. repeat split; vm_compute; reflexivity. Qed.

(** C6, amended: in every state of the tokenizer, [readLiteralString]
    returns a STRING token and [readHexString] a HEX_STRING token; neither
    raises.  When the literal's parentheses are still open at the end (as
    they are when no closing parenthesis follows), or the hex string met no
    closing angle bracket, the cursor is at the end of the buffer and the
    token holds what was decoded up to there. *)
Theorem strings_never_raise this :
  (∃ s, literal_scan this = Some s ∧
        readLiteralString this = Some (lit_this s, mkToken STRING (lit_result s)) ∧
        (0 < lit_depth s → isEOF (lit_this s) = true) ∧
        ((∀ i, (position this < i)%nat → buffer this !! i ≠ Some 41) →
         0 < lit_depth s)) ∧
  (∃ this' hexString,
        hex_scan this = Some (this', hexString) ∧
        readHexString this
          = Some (if negb (isEOF this') then advance this' else this',
                  mkToken HEX_STRING
                    (hex_to_binary
                       (if Z.of_nat (length hexString) mod 2 =? 1
                        then hexString ++ [48] else hexString))) ∧
        ((∀ i, (position this < i)%nat → buffer this !! i ≠ Some 62) →
         isEOF this' = true)).
Proof.
  split.
  - destruct (literal_loop_total (length (buffer this)) (mkLiteral (advance this) [] 1))
      as (s & Hs & _ & He); [simpl; lia|].
    exists s. unfold readLiteralString, literal_scan. rewrite Hs.
    split; [done|]. split; [done|]. split; [done|].
    intros Hno. apply literal_loop_open in Hs; [simpl in Hs; lia|].
    intros i Hi. simpl in *. apply Hno. lia.
  - destruct (hex_loop_total (length (buffer this)) (advance this) [])
      as (this' & hex & Hs & Hb & Hp & He); [simpl; lia|].
    exists this', hex. unfold readHexString, hex_scan. rewrite Hs. simpl.
    split; [done|]. split; [reflexivity|].
    intros Hno. destruct He as [He|He]; [done|].
    simpl in Hb, Hp. rewrite Hb in He. by destruct (Hno (position this')); [lia|].
Qed.

Lemma strings_never_raise_witness :
  ∃ s, readLiteralString (mkTokenizer buffer_open_literal 9)
         = Some (lit_this s, mkToken STRING (lit_result s)) ∧
       isEOF (lit_this s) = true.
Proof.
  destruct (strings_never_raise (mkTokenizer buffer_open_literal 9))
    as [(s & Hscan & Hread & Hopen & _) _].
  exists s. split; [exact Hread|]. apply Hopen.
  vm_compute in Hscan. injection Hscan as <-. reflexivity.
Defined.

(** C7, the code at the failing input: the literal string (\777) decodes
    to the single code unit 511, which is no byte; the octal value modulo 256
    is 255. *)
Theorem octal_escape_overflows :
  readLiteralString (mkTokenizer buffer_octal_777 9)
    = Some (mkTokenizer buffer_octal_777 15, mkToken STRING [511]) ∧
  511 mod 256 = 255.
Proof. split; vm_compute; reflexivity. Qed.

(** An escape of three octal digits decodes to the code unit of its value,
    whatever the value: it is the value modulo 256 only when the first digit
    is at most 3. *)
Lemma octal_three_digits a b c :
  0 ≤ a ≤ 7 → 0 ≤ b ≤ 7 → 0 ≤ c ≤ 7 →
  readLiteralString (mkTokenizer [40; 92; 48 + a; 48 + b; 48 + c; 41] 0)
    = Some (mkTokenizer [40; 92; 48 + a; 48 + b; 48 + c; 41] 6,
            mkToken STRING [64 * a + 8 * b + c]).
Proof.
  intros Ha Hb Hc.
  assert (a = 0 ∨ a = 1 ∨ a = 2 ∨ a = 3 ∨ a = 4 ∨ a = 5 ∨ a = 6 ∨ a = 7) as Ha' by lia.
  assert (b = 0 ∨ b = 1 ∨ b = 2 ∨ b = 3 ∨ b = 4 ∨ b = 5 ∨ b = 6 ∨ b = 7) as Hb' by lia.
  assert (c = 0 ∨ c = 1 ∨ c = 2 ∨ c = 3 ∨ c = 4 ∨ c = 5 ∨ c = 6 ∨ c = 7) as Hc' by lia.
  clear Ha Hb Hc.
  destruct Ha' as [->|[->|[->|[->|[->|[->|[->| ->]]]]]]];
  destruct Hb' as [->|[->|[->|[->|[->|[->|[->| ->]]]]]]];
  destruct Hc' as [->|[->|[->|[->|[->|[->|[->| ->]]]]]]];
  vm_compute; reflexivity.
Qed.

(** An escape of one or two octal digits decodes to its value, a byte. *)
Lemma octal_one_two_digits a b :
  0 ≤ a ≤ 7 → 0 ≤ b ≤ 7 →
  readLiteralString (mkTokenizer [40; 92; 48 + a; 41] 0)
    = Some (mkTokenizer [40; 92; 48 + a; 41] 4, mkToken STRING [a]) ∧
  readLiteralString (mkTokenizer [40; 92; 48 + a; 48 + b; 41] 0)
    = Some (mkTokenizer [40; 92; 48 + a; 48 + b; 41] 5, mkToken STRING [8 * a + b]).
Proof.
  intros Ha Hb.
  assert (a = 0 ∨ a = 1 ∨ a = 2 ∨ a = 3 ∨ a = 4 ∨ a = 5 ∨ a = 6 ∨ a = 7) as Ha' by lia.
  assert (b = 0 ∨ b = 1 ∨ b = 2 ∨ b = 3 ∨ b = 4 ∨ b = 5 ∨ b = 6 ∨ b = 7) as Hb' by lia.
  clear Ha Hb.
  destruct Ha' as [->|[->|[->|[->|[->|[->|[->| ->]]]]]]];
  destruct Hb' as [->|[->|[->|[->|[->|[->|[->| ->]]]]]]];
  split; vm_compute; reflexivity.
Qed.

Lemma starts_with_spec pat : ∀ l, starts_with pat l = true ↔ ∃ post, l = pat ++ post.
Proof.
  induction pat as [|p pat IH]; intros l; simpl.
  - split; [eauto|done].
  - destruct l as [|b l].
    + split; [done|]. by intros [post ?].
    + rewrite andb_true_iff, Z.eqb_eq, IH. split.
      * intros [-> [post ->]]. eauto.
      * intros [post [= -> ->]]. eauto.
Qed.

(** [indexOf] finds the first place where the pattern occurs. *)
Lemma indexOf_Some pat : ∀ l i, indexOf pat l = Some i →
  (i ≤ length l)%nat ∧ (∃ post, drop i l = pat ++ post) ∧
  ∀ j, (j < i)%nat → ¬ ∃ post, drop j l = pat ++ post.
Proof.
  induction l as [|b l IH]; intros i; simpl.
  - destruct (starts_with pat []) eqn:Hs; [|done]. intros [= <-].
    apply starts_with_spec in Hs. split; [done|]. split; [done|]. lia.
  - destruct (starts_with pat (b :: l)) eqn:Hs.
    + intros [= <-]. apply starts_with_spec in Hs. split; [lia|]. split; [done|]. lia.
    + destruct (indexOf pat l) as [i'|] eqn:Hi; [|done]. intros [= <-].
      destruct (IH i' eq_refl) as (Hle & Hocc & Hfirst).
      split; [simpl; lia|]. split; [done|].
      intros [|j] Hj.
      * simpl. intros Hex. apply starts_with_spec in Hex. congruence.
      * simpl. apply Hfirst. lia.
Qed.

Lemma indexOf_None pat : ∀ l, indexOf pat l = None → ∀ pre post, l ≠ pre ++ pat ++ post.
Proof.
  induction l as [|b l IH]; simpl.
  - destruct (starts_with pat []) eqn:Hs; [done|]. intros _ pre post Heq.
    destruct pre; simpl in Heq.
    + assert (starts_with pat [] = true) by (apply starts_with_spec; eauto). congruence.
    + done.
  - destruct (starts_with pat (b :: l)) eqn:Hs; [done|].
    destruct (indexOf pat l) eqn:Hi; [done|]. intros _ pre post Heq.
    destruct pre as [|b' pre]; simpl in Heq.
    + assert (starts_with pat (b :: l) = true) by (apply starts_with_spec; eauto). congruence.
    + injection Heq as -> Heq. by apply (IH eq_refl pre post).
Qed.

Lemma indexOf_occurs pat pre post :
  ∃ i, indexOf pat (pre ++ pat ++ post) = Some i ∧ (i ≤ length pre)%nat.
Proof.
  destruct (indexOf pat (pre ++ pat ++ post)) as [i|] eqn:Hi.
  - exists i. split; [done|]. destruct (indexOf_Some _ _ _ Hi) as (_ & _ & Hfirst).
    destruct (decide (i ≤ length pre)%nat); [done|].
    destruct (Hfirst (length pre)); [lia|]. exists post. by rewrite drop_app_length.
  - by destruct (indexOf_None _ _ Hi pre post).
Qed.

(** The loops that move the cursor while a test on the byte holds. *)
Lemma advance_while_spec cond fuel : ∀ this,
  (length (buffer this) - position this ≤ fuel)%nat →
  ∃ this', advance_while cond fuel this = Some this' ∧
    buffer this' = buffer this ∧
    (position this ≤ position this')%nat ∧
    (position this ≤ length (buffer this) → position this' ≤ length (buffer this))%nat ∧
    (isEOF this' = true ∨ cond (current this') = false) ∧
    (∀ i, (position this ≤ i < position this')%nat →
       ∃ b, buffer this !! i = Some b ∧ cond b = true).
Proof.
  induction fuel as [|fuel IH]; intros this Hfuel; simpl.
  - destruct (isEOF this) eqn:He; simpl.
    + exists this. repeat split; auto; intros; lia.
    + apply isEOF_false in He. lia.
  - destruct (isEOF this) eqn:He; simpl.
    { exists this. repeat split; auto; intros; lia. }
    destruct (cond (current this)) eqn:Hc.
    2:{ exists this. repeat split; auto; intros; lia. }
    destruct (IH (advance this)) as (this' & Hs & Hb & Hp & Hl & Hend & Hall).
    { simpl. lia. }
    simpl in *. exists this'. split; [done|]. split; [done|]. split; [lia|].
    apply isEOF_false in He as He'. split; [intros; apply Hl; lia|]. split; [done|].
    intros i Hi. destruct (decide (i = position this)) as [->|Hne].
    + exists (current this). split; [|done]. by apply current_lookup.
    + apply Hall. lia.
Qed.

Lemma scan_advance_while cond this :
  ∃ this', scan (advance_while cond) this = (this', Return tt) ∧
    buffer this' = buffer this ∧
    (position this ≤ position this')%nat ∧
    (position this ≤ length (buffer this) → position this' ≤ length (buffer this))%nat ∧
    (isEOF this' = true ∨ cond (current this') = false) ∧
    (∀ i, (position this ≤ i < position this')%nat →
       ∃ b, buffer this !! i = Some b ∧ cond b = true).
Proof.
  destruct (advance_while_spec cond (length (buffer this)) this) as (this' & Hs & H);
    [lia|].
  exists this'. unfold scan. by rewrite Hs.
Qed.

Lemma skip_comment_spec this :
  isEOF this = false → current this = 37 →
  ∃ this', skip_comment (length (buffer this)) this = Some this' ∧
    buffer this' = buffer this ∧ (position this < position this')%nat ∧
    (position this' ≤ length (buffer this))%nat.
Proof.
  intros He Hc. unfold skip_comment.
  destruct (advance_while_spec (λ b, negb (isEOL b)) (length (buffer this)) this)
    as (this1 & -> & Hb & Hp & Hl & Hend & Hall); [lia|].
  simpl. eexists. split; [reflexivity|].
  apply isEOF_false in He as He'.
  assert (position this < position this1)%nat as Hlt.
  { destruct (decide (position this1 = position this)) as [Heq|]; [|lia].
    assert (this1 = this) as -> by (destruct this, this1; simpl in *; congruence).
    rewrite He, Hc in Hend. by destruct Hend. }
  specialize (Hl ltac:(lia)).
  destruct (isEOF this1) eqn:He1; simpl.
  - split; [done|]. lia.
  - apply isEOF_false in He1. rewrite Hb in He1.
    case_match; simpl; (split; [done|]).
    + apply andb_true_iff in H as [[_ H%bool_decide_eq_true]%andb_true_iff _].
      rewrite Hb in H. lia.
    + lia.
Qed.

Lemma skip_loop_spec fuel : ∀ this,
  (length (buffer this) - position this ≤ fuel)%nat →
  ∃ this', skip_loop fuel this = Some this' ∧
    buffer this' = buffer this ∧
    (position this ≤ position this')%nat ∧
    (position this ≤ length (buffer this) → position this' ≤ length (buffer this))%nat ∧
    (isEOF this' = true ∨ (isWhitespace (current this') = false ∧ current this' ≠ 37)).
Proof.
  induction fuel as [|fuel IH]; intros this Hfuel.
  - simpl. destruct (isEOF this) eqn:He; simpl.
    + exists this. auto 6.
    + apply isEOF_false in He. lia.
  - simpl. destruct (isEOF this) eqn:He; simpl; [exists this; auto 6|].
    apply isEOF_false in He as He'.
    destruct (isWhitespace (current this)) eqn:Hw.
    { destruct (IH (advance this)) as (this' & Hs & Hb & Hp & Hl & Hend); [simpl; lia|].
      simpl in *. exists this'. split; [done|]. split; [done|]. split; [lia|].
      split; [intros; apply Hl; lia|done]. }
    destruct (current this =? 37) eqn:Hc.
    2:{ exists this. apply Z.eqb_neq in Hc. auto 8. }
    apply Z.eqb_eq in Hc.
    destruct (skip_comment_spec this He Hc) as (this1 & -> & Hb1 & Hp1 & Hl1). simpl.
    destruct (IH this1) as (this' & Hs & Hb & Hp & Hl & Hend); [rewrite Hb1; lia|].
    exists this'. split; [done|]. split; [congruence|]. split; [lia|].
    split; [|done]. intros _. rewrite <- Hb1. apply Hl. rewrite Hb1. done.
Qed.

Lemma skip_loop_whitespace fuel this :
  isEOF this = false → isWhitespace (current this) = true →
  skip_loop (S fuel) this = skip_loop fuel (advance this).
Proof. intros He Hw. simpl. by rewrite He, Hw. Qed.

(** What [skip_loop] does where nothing is to be skipped. *)
Lemma skip_loop_stay fuel this :
  isEOF this = true ∨ (isWhitespace (current this) = false ∧ current this ≠ 37) →
  skip_loop fuel this = Some this.
Proof.
  intros [He|[Hw Hc]]; destruct fuel; simpl; try (rewrite He; done);
    destruct (isEOF this); simpl; try done; rewrite Hw;
    apply Z.eqb_neq in Hc; by rewrite Hc.
Qed.

(** Where the loop over white space and comments stops. *)
Lemma skip_stops this :
  ∃ this', skipWhitespaceAndComments this = (this', Return tt) ∧
    buffer this' = buffer this ∧
    (position this ≤ position this')%nat ∧
    (isEOF this' = true ∨ (isWhitespace (current this') = false ∧ current this' ≠ 37)) ∧
    skipWhitespaceAndComments this' = (this', Return tt).
Proof.
  destruct (skip_loop_spec (length (buffer this)) this) as (this' & Hs & Hb & Hp & _ & Hend);
    [lia|].
  exists this'. unfold skipWhitespaceAndComments, scan. rewrite Hs.
  split; [done|]. split; [done|]. split; [done|]. split; [done|].
  by rewrite skip_loop_stay.
Qed.

(** X7: [skipWhitespaceAndComments] always returns.  It keeps the buffer and
    never moves the cursor back; it stops at the end of the buffer or at a
    byte that is neither white space nor the start of a comment, and a second
    call then changes nothing. *)
Theorem skipWhitespaceAndComments_stops this :
  ∃ this', skipWhitespaceAndComments this = (this', Return tt) ∧
    buffer this' = buffer this ∧
    (position this ≤ position this')%nat ∧
    (isEOF this' = true ∨ (isWhitespace (current this') = false ∧ current this' ≠ 37)) ∧
    skipWhitespaceAndComments this' = (this', Return tt).
Proof. apply skip_stops. Qed.


Ltac run := unfold bind, get, move, ret, throw; simpl.

Lemma advance_while_stay cond fuel this :
  isEOF this = true ∨ cond (current this) = false →
  advance_while cond fuel this = Some this.
Proof.
  intros [He|Hc]; destruct fuel; simpl; try (rewrite He; done);
    destruct (isEOF this); simpl; try done; by rewrite Hc.
Qed.

Lemma same_tokenizer (this this' : PDFTokenizer) :
  buffer this' = buffer this → position this' = position this → this' = this.
Proof. destruct this, this'; simpl; congruence. Qed.

Lemma at_current pre b l : current (at_ pre (b :: l)) = b.
Proof. unfold current, at_. simpl. by rewrite list_lookup_middle. Qed.

Lemma at_isEOF pre l : isEOF (at_ pre l) = bool_decide (l = []).
Proof.
  unfold isEOF, at_. simpl. rewrite length_app. destruct l; simpl.
  - rewrite bool_decide_eq_true_2 by lia. done.
  - rewrite bool_decide_eq_false_2 by lia. done.
Qed.

Lemma at_advance pre b l : advance (at_ pre (b :: l)) = at_ (pre ++ [b]) l.
Proof.
  unfold advance, at_. simpl. rewrite <- app_assoc. simpl. f_equal.
  rewrite length_app. simpl. lia.
Qed.

Lemma at_byteAt pre l i : byteAt (at_ pre l) (length pre + i) = default 0 (l !! i).
Proof. unfold byteAt, at_. simpl. by rewrite lookup_app_r, Nat.add_comm, Nat.add_sub by lia. Qed.

Lemma at_app pre w l : at_ (pre ++ w) l = mkTokenizer (pre ++ w ++ l) (length pre + length w).
Proof. unfold at_. by rewrite <- app_assoc, length_app. Qed.

Lemma at_slice pre w l : slice (length pre) (length pre + length w) (pre ++ w ++ l) = w.
Proof.
  unfold slice. rewrite drop_app_length.
  replace (length pre + length w - length pre)%nat with (length w) by lia.
  by rewrite take_app_length.
Qed.

Lemma advance_while_exact cond w : ∀ pre rest fuel,
  Forall (λ b, cond b = true) w → ends cond rest → (length w ≤ fuel)%nat →
  advance_while cond fuel (at_ pre (w ++ rest)) = Some (at_ (pre ++ w) rest).
Proof.
  induction w as [|b w IH]; intros pre rest fuel Hw Hrest Hfuel.
  - simpl. rewrite app_nil_r. apply advance_while_stay. rewrite at_isEOF.
    destruct rest as [|b rest]; [by left|right]. by rewrite at_current.
  - apply Forall_cons in Hw as [Hb Hw]. destruct fuel as [|fuel]; [simpl in Hfuel; lia|].
    simpl. rewrite at_isEOF, at_current, Hb. simpl.
    rewrite at_advance, IH; [|done|done|simpl in Hfuel; lia].
    by rewrite <- app_assoc.
Qed.

Lemma tm_bind {A B} (m : TM A) (f : A → TM B) this this1 a :
  m this = (this1, Return a) → bind m f this = f a this1.
Proof. unfold bind. by intros ->. Qed.

Section readers.
Context `{Utf8}.

Lemma readNumber_moves this :
  isEOF this = false →
  isDigit (current this) = true ∨ current this = 43 ∨ current this = 45 →
  moves 1 (readNumber this) this ∧ ∃ this' tok, readNumber this = (this', Return tok).
Proof.
  intros He Hc. unfold readNumber.
  rewrite (tm_bind get _ this this this) by done.
  set (this1 := if (current this =? 43) || (current this =? 45) then advance this else this).
  rewrite (tm_bind _ _ this this1 tt) by (subst this1; by case_match).
  assert (buffer this1 = buffer this) as Hb1 by (subst this1; by case_match).
  destruct (scan_advance_while isDigit this1) as (this2 & Hs2 & Hb2 & Hp2 & _ & Hend2 & _).
  rewrite (tm_bind _ _ this1 this2 tt), (tm_bind get _ this2 this2 this2) by done.
  assert (position this < position this2)%nat as Hlt.
  { subst this1. destruct ((current this =? 43) || (current this =? 45)) eqn:Hs.
    - simpl in Hp2. lia.
    - destruct (decide (position this2 = position this)) as [Heq|]; [|lia].
      assert (this2 = this) as -> by (destruct this, this2; simpl in *; congruence).
      apply orb_false_iff in Hs as [?%Z.eqb_neq ?%Z.eqb_neq].
      destruct Hc as [Hc|[|]]; try done. rewrite He, Hc in Hend2. by destruct Hend2. }
  destruct (negb (isEOF this2) && (current this2 =? 46)).
  - destruct (scan_advance_while isDigit (advance this2)) as (this3 & Hs3 & Hb3 & Hp3 & _).
    rewrite (tm_bind (move advance) _ this2 (advance this2) tt) by done.
    rewrite (tm_bind _ _ _ this3 tt), (tm_bind get _ this3 this3 this3) by done.
    simpl in *. split; [|eauto]. split; [congruence|lia].
  - simpl. split; [|eauto]. split; [congruence|lia].
Qed.

Lemma name_loop_spec fuel : ∀ this,
  (length (buffer this) - position this ≤ fuel)%nat →
  ∃ this', name_loop fuel this = Some this' ∧
    buffer this' = buffer this ∧ (position this ≤ position this')%nat ∧
    (isEOF this' = true ∨ isDelimiter (current this') = true
     ∨ isWhitespace (current this') = true).
Proof.
  induction fuel as [|fuel IH]; intros this Hfuel; simpl.
  - destruct (isEOF this) eqn:He; simpl; [exists this; auto 6|].
    apply isEOF_false in He. lia.
  - destruct (isEOF this) eqn:He; simpl; [exists this; auto 6|].
    destruct (isDelimiter (current this)) eqn:Hd; simpl; [exists this; auto 6|].
    destruct (isWhitespace (current this)) eqn:Hw; simpl; [exists this; auto 8|].
    apply isEOF_false in He.
    case_match.
    + destruct (IH (advance_by 3 this)) as (this' & Hs & Hb & Hp & Hend); [simpl; lia|].
      simpl in *. exists this'. split; [done|]. split; [done|]. split; [lia|done].
    + destruct (IH (advance this)) as (this' & Hs & Hb & Hp & Hend); [simpl; lia|].
      simpl in *. exists this'. split; [done|]. split; [done|]. split; [lia|done].
Qed.

Lemma readName_moves this :
  moves 1 (readName this) this ∧ ∃ this' tok, readName this = (this', Return tok).
Proof.
  unfold readName. run. unfold scan.
  destruct (name_loop_spec (length (buffer (advance this))) (advance this))
    as (this' & -> & Hb & Hp & _); [simpl; lia|].
  simpl in *. split; [|eauto]. split; [done|lia].
Qed.

Lemma readStream_moves this :
  moves 9 (readStream this) this.
Proof.
  unfold readStream. run.
  destruct (scan_advance_while isWhitespace this) as (this1 & -> & Hb1 & Hp1 & _).
  unfold indexOf_from. destruct (indexOf _ _) as [i|]; simpl; [|done].
  split; [done|lia].
Qed.

Lemma literal_loop_mono fuel : ∀ s s',
  literal_loop fuel s = Some s' →
  buffer (lit_this s') = buffer (lit_this s) ∧
  (position (lit_this s) ≤ position (lit_this s'))%nat.
Proof.
  induction fuel as [|fuel IH]; intros s s'; simpl.
  - case_match; [done|]. by intros [= <-].
  - case_match; [|by intros [= <-]].
    pose proof (literal_body_frame s) as [Hb Hp].
    destruct (literal_body s) as [s1 broke]. simpl in *.
    destruct broke; [intros [= <-]; split; [done|lia]|].
    intros [Hb' Hp']%IH. split; [congruence|lia].
Qed.

Lemma literal_reader_moves this :
  moves 1 (string_reader readLiteralString this) this ∧
  ∃ this' s, string_reader readLiteralString this = (this', Return (mkTok STRING (VString s))).
Proof.
  unfold string_reader, readLiteralString, literal_scan.
  destruct (literal_loop_total (length (buffer this)) (mkLiteral (advance this) [] 1))
    as (s & Hs & _); [simpl; lia|].
  rewrite Hs. simpl. apply literal_loop_mono in Hs as [Hb Hp]. simpl in *.
  split; [|eauto]. split; [done|lia].
Qed.

Lemma hex_reader_moves this :
  moves 1 (string_reader readHexString this) this ∧
  ∃ this' s, string_reader readHexString this = (this', Return (mkTok HEX_STRING (VString s))).
Proof.
  unfold string_reader, readHexString, hex_scan.
  destruct (hex_loop_total (length (buffer this)) (advance this) [])
    as (this' & hex & Hs & Hb & Hp & _); [simpl; lia|].
  rewrite Hs. simpl in *. split; [|eauto]. split; [by case_match|].
  case_match; simpl; lia.
Qed.

Lemma readKeywordOrReference_moves this :
  moves 0 (readKeywordOrReference this) this.
Proof.
  unfold readKeywordOrReference. run.
  destruct (scan_advance_while (λ b, negb (isWhitespace b) && negb (isDelimiter b)) this)
    as (this1 & -> & Hb1 & Hp1 & _).
  repeat case_match; simpl; try (split; [done|lia]).
  pose proof (readStream_moves this1) as Hm.
  destruct (readStream this1) as [this2 [tok|e]]; simpl in *; [|done].
  destruct Hm. split; [congruence|lia].
Qed.

(** A keyword that is no reserved word becomes a KEYWORD token. *)
Lemma readKeywordOrReference_keyword this this1 :
  advance_while (λ b, negb (isWhitespace b) && negb (isDelimiter b))
    (length (buffer this)) this = Some this1 →
  toString (slice (position this) (position this1) (buffer this1)) ∉ reserved →
  readKeywordOrReference this
  = (this1, Return (mkTok KEYWORD
                      (VString (toString (slice (position this) (position this1)
                                            (buffer this1)))))).
Proof.
  intros Hs Hk. unfold readKeywordOrReference. run. unfold scan. rewrite Hs.
  set (k := toString _) in *.
  rewrite !bool_decide_eq_false_2; [done|..]; intros Heq; apply Hk; rewrite Heq;
    unfold reserved; set_solver.
Qed.

Lemma toString_nil : toString [] = [].
Proof. by apply toString_ascii. Qed.

Lemma slice_nil n l : slice n n l = [].
Proof. unfold slice. by rewrite Nat.sub_diag. Qed.

Lemma readHeader_spec this :
  match indexOf pdfHeader (buffer this) with
  | None => readHeader this = (this, Throw HeaderNotFound)
  | Some startPos =>
      ∃ endPos,
        readHeader this
        = ({| buffer := buffer this; position := endPos |},
           Return (mkTok HEADER (VString (toString (slice startPos endPos (buffer this)))))) ∧
        (startPos + 5 ≤ endPos ≤ length (buffer this))%nat ∧
        (∀ i, (startPos + 5 ≤ i < endPos)%nat →
           ∃ b, buffer this !! i = Some b ∧ isEOL b = false) ∧
        (endPos = length (buffer this) ∨
         ∃ b, buffer this !! endPos = Some b ∧ isEOL b = true)
  end.
Proof.
  unfold readHeader. destruct (indexOf pdfHeader (buffer this)) as [startPos|] eqn:Hi; [|done].
  destruct (indexOf_Some _ _ _ Hi) as (Hle & [post Hocc] & _).
  assert (startPos + 5 ≤ length (buffer this))%nat as Hle5.
  { apply (f_equal length) in Hocc. rewrite length_drop, length_app in Hocc.
    change (length pdfHeader) with 5%nat in Hocc. lia. }
  destruct (advance_while_spec (λ b, negb (isEOL b)) (length (buffer this))
              {| buffer := buffer this; position := startPos + length pdfHeader |})
    as (this1 & -> & Hb & Hp & Hl & Hend & Hall); [simpl; lia|].
  simpl in *. change (length pdfHeader) with 5%nat in *.
  exists (position this1). split; [done|]. split; [lia|]. split.
  - intros i Hi'. destruct (Hall i Hi') as (b & Hb' & Hc). exists b. split; [done|].
    by apply negb_true_iff.
  - destruct Hend as [He|Hc].
    + left. apply isEOF_true in He. rewrite Hb in He. lia.
    + destruct (isEOF this1) eqn:He.
      * left. apply isEOF_true in He. rewrite Hb in He. lia.
      * right. exists (current this1). apply negb_false_iff in Hc. split; [|done].
        rewrite <- Hb. by apply current_lookup.
Qed.


(** The first call of [nextToken]. *)
Lemma nextToken_header this :
  position this = 0%nat →
  match indexOf pdfHeader (buffer this) with
  | None => nextToken this = (this, Throw HeaderNotFound)
  | Some startPos =>
      ∃ endPos,
        nextToken this
        = ({| buffer := buffer this; position := endPos |},
           Return (mkTok HEADER
                     (VToken HEADER
                        (VString (toString (slice startPos endPos (buffer this))))))) ∧
        (startPos + 5 ≤ endPos ≤ length (buffer this))%nat ∧
        (∀ i, (startPos + 5 ≤ i < endPos)%nat →
           ∃ b, buffer this !! i = Some b ∧ isEOL b = false) ∧
        (endPos = length (buffer this) ∨
         ∃ b, buffer this !! endPos = Some b ∧ isEOL b = true)
  end.
Proof.
  intros Hp. unfold nextToken. rewrite (tm_bind get _ this this this) by done.
  rewrite Hp. simpl. pose proof (readHeader_spec this) as Hh.
  destruct (indexOf pdfHeader (buffer this)) as [startPos|].
  - destruct Hh as (endPos & Hr & Hrest). exists endPos. split; [|done].
    by rewrite (tm_bind _ _ _ _ _ Hr).
  - unfold bind. by rewrite Hh.
Qed.

(** X8: The first call of [nextToken], the cursor at 0, looks for "%PDF-"
    anywhere in the buffer.  With none it throws, also on an empty buffer;
    otherwise it hands out a HEADER token whose value is itself the HEADER
    token of the bytes from there to the end of that line, and leaves the
    cursor at the end of that line: what is written before the header is
    skipped. *)
Theorem nextToken_first_is_header this :
  position this = 0%nat →
  match indexOf pdfHeader (buffer this) with
  | None => nextToken this = (this, Throw HeaderNotFound)
  | Some startPos =>
      ∃ endPos,
        nextToken this
        = ({| buffer := buffer this; position := endPos |},
           Return (mkTok HEADER
                     (VToken HEADER
                        (VString (toString (slice startPos endPos (buffer this))))))) ∧
        (startPos + 5 ≤ endPos ≤ length (buffer this))%nat ∧
        (∀ i, (startPos + 5 ≤ i < endPos)%nat →
           ∃ b, buffer this !! i = Some b ∧ isEOL b = false) ∧
        (endPos = length (buffer this) ∨
         ∃ b, buffer this !! endPos = Some b ∧ isEOL b = true)
  end.
Proof. apply nextToken_header. Qed.

(** What a call of [nextToken] does to the cursor. *)
Lemma nextToken_steps this this' tok :
  nextToken this = (this', Return tok) →
  buffer this' = buffer this ∧
  (position this ≤ position this')%nat ∧
  (position this' = position this →
     (tok = mkTok EOF VNull ∧ isEOF this = true) ∨
     (tok = mkTok KEYWORD (VString []) ∧ isEOF this = false ∧
      (current this = 41 ∨ current this = 123 ∨ current this = 125))).
Proof.
  destruct (decide (position this = 0%nat)) as [Hz|Hnz].
  { pose proof (nextToken_header this Hz) as Hh.
    destruct (indexOf pdfHeader (buffer this)) as [startPos|].
    - destruct Hh as (endPos & -> & Hle & _). intros [= <- <-]. simpl.
      split; [done|]. split; [lia|]. lia.
    - rewrite Hh. done. }
  unfold nextToken. rewrite (tm_bind get _ this this this) by done.
  apply Nat.eqb_neq in Hnz as ->.
  destruct (skip_stops this) as (this1 & Hs & Hb1 & Hp1 & Hend & _).
  rewrite (tm_bind _ _ _ _ _ Hs), (tm_bind get _ this1 this1 this1) by done.
  destruct (isEOF this1) eqn:He1.
  { intros [= <- <-]. split; [done|]. split; [done|]. intros Heq. left. split; [done|].
    by rewrite <- (same_tokenizer this this1). }
  destruct Hend as [He|[Hw H37]]; [congruence|].
  match goal with
  | |- _ → ?G =>
      assert (∀ n (r : PDFTokenizer * Outcome TokenError Token),
                moves (S n) r this1 → r = (this', Return tok) → G) as Hmoves
  end.
  { intros n r Hm ->. simpl in Hm. destruct Hm as [Hb Hp].
    split; [congruence|]. split; [lia|]. intros Heq. lia. }
  case_match eqn:Hnum.
  { intros Hk. refine (Hmoves 0%nat _ (proj1 (readNumber_moves this1 He1 _)) Hk).
    apply orb_true_iff in Hnum as [Hnum|?%Z.eqb_eq]; [|by auto].
    apply orb_true_iff in Hnum as [Hnum|?%Z.eqb_eq]; [|by auto]. by left. }
  case_match eqn:H47.
  { intros Hk. exact (Hmoves 0%nat _ (proj1 (readName_moves this1)) Hk). }
  case_match eqn:H40.
  { intros Hk. exact (Hmoves 0%nat _ (proj1 (literal_reader_moves this1)) Hk). }
  case_match eqn:H60.
  { case_match.
    - intros Hk. refine (Hmoves 1%nat _ _ Hk). run. split; [done|lia].
    - intros Hk. exact (Hmoves 0%nat _ (proj1 (hex_reader_moves this1)) Hk). }
  case_match eqn:H62.
  { case_match; [|done]. intros Hk. refine (Hmoves 1%nat _ _ Hk). run. split; [done|lia]. }
  case_match eqn:H91.
  { intros Hk. refine (Hmoves 0%nat _ _ Hk). run. split; [done|lia]. }
  case_match eqn:H93.
  { intros Hk. refine (Hmoves 0%nat _ _ Hk). run. split; [done|lia]. }
  intros Hk. pose proof (readKeywordOrReference_moves this1) as Hm. rewrite Hk in Hm.
  destruct Hm as [Hb Hp]. split; [congruence|]. split; [lia|]. intros Heq. right.
  assert (this1 = this) as -> by (apply same_tokenizer; [done|lia]).
  clear Hs Hb1 Hp1.
  assert (isDelimiter (current this) = true) as Hd.
  { revert Hk. unfold readKeywordOrReference.
    rewrite (tm_bind get _ this this this) by done.
    destruct (scan_advance_while (λ b, negb (isWhitespace b) && negb (isDelimiter b)) this)
      as (this2 & Hs2 & Hb2 & Hp2 & _ & Hend2 & _).
    rewrite (tm_bind _ _ _ _ _ Hs2), (tm_bind get _ this2 this2 this2) by done.
    intros Hk.
    assert (position this2 = position this) as Hp2'.
    { assert (moves 0 (this', Return tok) this2) as [_ Hm'].
      { rewrite <- Hk. repeat case_match; try (simpl; split; [done|lia]).
        pose proof (readStream_moves this2) as Hm.
        destruct (readStream this2) as [this3 [tok3|e]]; simpl in *; [|done].
        destruct Hm. split; [done|lia]. }
      lia. }
    rewrite (same_tokenizer this this2) in Hend2 by done.
    destruct Hend2 as [|Hc]; [congruence|]. rewrite Hw in Hc. simpl in Hc.
    by apply negb_false_iff in Hc. }
  assert (current this = 41 ∨ current this = 123 ∨ current this = 125) as Hcur.
  { unfold isDelimiter in Hd. apply bool_decide_eq_true in Hd.
    apply Z.eqb_neq in H47, H40, H60, H62, H91, H93.
    set_solver. }
  split; [|done]. revert Hk.
  rewrite (readKeywordOrReference_keyword this this).
  - rewrite slice_nil, toString_nil. by intros [= _ <-].
  - apply advance_while_stay. right. by rewrite Hd, andb_false_r.
  - rewrite slice_nil, toString_nil. unfold reserved. vm_compute. set_solver.
Qed.

(** X9: [nextToken] never moves the cursor back and never touches the buffer;
    a call that returns without having moved the cursor has returned the
    EOF token, at the end of the buffer, or an empty KEYWORD, at a closing
    parenthesis or a brace. *)
Theorem nextToken_progress this this' tok :
  nextToken this = (this', Return tok) →
  buffer this' = buffer this ∧
  (position this ≤ position this')%nat ∧
  (position this' = position this →
     (tok = mkTok EOF VNull ∧ isEOF this = true) ∨
     (tok = mkTok KEYWORD (VString []) ∧ isEOF this = false ∧
      (current this = 41 ∨ current this = 123 ∨ current this = 125))).
Proof. apply nextToken_steps. Qed.


(** Where nothing is to be skipped, [nextToken] goes on from where
    [skipWhitespaceAndComments] stopped. *)
Lemma nextToken_skip this this1 :
  position this ≠ 0%nat →
  skipWhitespaceAndComments this = (this1, Return tt) →
  nextToken this = nextToken this1.
Proof.
  intros Hnz Hs.
  destruct (skip_stops this) as (this1' & Hs' & _ & Hp & _ & Hidem).
  rewrite Hs in Hs'. injection Hs' as <-.
  unfold nextToken. rewrite !(tm_bind get _ _ _ _ eq_refl).
  apply Nat.eqb_neq in Hnz as Hnz'. rewrite Hnz'.
  assert (position this1 ≠ 0%nat) as ->%Nat.eqb_neq by lia.
  by rewrite (tm_bind _ _ _ _ _ Hs), (tm_bind _ _ _ _ _ Hidem).
Qed.

(** The branches of [nextToken] behind the header test and the skipping,
    at a byte that is there. *)
Lemma nextToken_at this :
  position this ≠ 0%nat → isEOF this = false →
  isWhitespace (current this) = false → current this ≠ 37 →
  nextToken this =
    let currentByte := current this in
    if ((48 <=? currentByte) && (currentByte <=? 57))
       || (currentByte =? 43) || (currentByte =? 45) then readNumber this
    else if currentByte =? 47 then readName this
    else if currentByte =? 40 then string_reader readLiteralString this
    else if currentByte =? 60 then
      if bool_decide (position this + 1 < length (buffer this))%nat
         && (byteAt this (position this + 1) =? 60)
      then (advance_by 2 this, Return (mkTok DICT_START (VString (bytes_of "<<"))))
      else string_reader readHexString this
    else if currentByte =? 62 then
      if bool_decide (position this + 1 < length (buffer this))%nat
         && (byteAt this (position this + 1) =? 62)
      then (advance_by 2 this, Return (mkTok DICT_END (VString (bytes_of ">>"))))
      else (this, Throw (InvalidCharacter (position this)))
    else if currentByte =? 91 then
      (advance this, Return (mkTok ARRAY_START (VString (bytes_of "["))))
    else if currentByte =? 93 then
      (advance this, Return (mkTok ARRAY_END (VString (bytes_of "]"))))
    else readKeywordOrReference this.
Proof.
  intros Hnz He Hw H37. unfold nextToken. rewrite (tm_bind get _ this this this) by done.
  apply Nat.eqb_neq in Hnz as ->.
  assert (skipWhitespaceAndComments this = (this, Return tt)) as Hs.
  { unfold skipWhitespaceAndComments, scan. rewrite skip_loop_stay; auto. }
  rewrite (tm_bind _ _ _ _ _ Hs), (tm_bind get _ this this this) by done.
  rewrite He. cbv zeta. repeat case_match; done.
Qed.

Lemma nextToken_stray this :
  position this ≠ 0%nat → isEOF this = false →
  current this = 41 ∨ current this = 123 ∨ current this = 125 →
  nextToken this = (this, Return (mkTok KEYWORD (VString []))).
Proof.
  intros Hnz He Hc.
  rewrite nextToken_at; [|done|done|by destruct Hc as [->|[->| ->]]
                         |by destruct Hc as [->|[->| ->]]].
  cbv zeta.
  assert (readKeywordOrReference this = (this, Return (mkTok KEYWORD (VString [])))) as Hk.
  { rewrite (readKeywordOrReference_keyword this this).
    - by rewrite slice_nil, toString_nil.
    - apply advance_while_stay. right. by destruct Hc as [->|[->| ->]].
    - rewrite slice_nil, toString_nil. unfold reserved. vm_compute. set_solver. }
  by destruct Hc as [->|[->| ->]].
Qed.

(** X10: At a closing parenthesis or a brace where a token should start,
    [nextToken] hands out an empty KEYWORD and stays where it is, so the loop
    of [getAllTokens] never ends; a header line followed by such a byte is
    enough. *)
Theorem getAllTokens_stray_delimiter d :
  d = 41 ∨ d = 123 ∨ d = 125 →
  (∀ this, position this ≠ 0%nat → isEOF this = false → current this = d →
     nextToken this = (this, Return (mkTok KEYWORD (VString []))) ∧
     ∀ fuel tokens, getAllTokens_loop fuel tokens this = (this, Throw OutOfFuel)) ∧
  (∀ line rest fuel, Forall (λ b, isEOL b = false) line →
     (getAllTokens fuel (mkTokenizer (pdfHeader ++ line ++ 10 :: d :: rest) 0)).2
     = Throw OutOfFuel).
Proof.
  intros Hd.
  assert (∀ this, position this ≠ 0%nat → isEOF this = false → current this = d →
     nextToken this = (this, Return (mkTok KEYWORD (VString []))) ∧
     ∀ fuel tokens, getAllTokens_loop fuel tokens this = (this, Throw OutOfFuel)) as Hstuck.
  { intros this Hnz He Hc.
    assert (nextToken this = (this, Return (mkTok KEYWORD (VString [])))) as Hn
      by (apply nextToken_stray; [done|done|by rewrite Hc]).
    split; [done|]. induction fuel as [|fuel IH]; intros tokens; [done|].
    simpl. rewrite (tm_bind _ _ _ _ _ Hn). simpl. apply IH. }
  split; [done|]. intros line rest fuel Hline.
  set (buf := pdfHeader ++ line ++ 10 :: d :: rest).
  destruct fuel as [|fuel]; [done|].
  unfold getAllTokens. cbn [getAllTokens_loop].
  pose proof (nextToken_header (mkTokenizer buf 0) eq_refl) as Hh.
  assert (indexOf pdfHeader buf = Some 0%nat) as Hi.
  { subst buf. unfold indexOf. destruct line; reflexivity. }
  cbn [buffer] in Hh. rewrite Hi in Hh.
  destruct Hh as (endPos & Hn & Hle & Hall & Hend).
  assert (endPos = (5 + length line)%nat) as ->.
  { assert (∀ i, (i < length line)%nat → ∃ b, buf !! (5 + i)%nat = Some b ∧ isEOL b = false)
      as Hin.
    { intros i Hi'. destruct (lookup_lt_is_Some_2 line i Hi') as [b Hb]. exists b.
      split; [|by eapply (proj1 (Forall_lookup _ _) Hline)].
      subst buf. change (5 + i)%nat with (length pdfHeader + i)%nat.
      by rewrite lookup_app_r, Nat.add_comm, Nat.add_sub, lookup_app_l by lia. }
    assert (buf !! (5 + length line)%nat = Some 10) as H10.
    { subst buf. change (5 + length line)%nat with (length pdfHeader + length line)%nat.
      rewrite lookup_app_r, Nat.add_comm, Nat.add_sub by lia. by rewrite list_lookup_middle. }
    destruct (decide (endPos < 5 + length line)%nat) as [Hlt|Hge].
    - destruct Hend as [->|(b & Hb & Heol)].
      + subst buf. rewrite !length_app in Hlt. simpl in Hlt. lia.
      + destruct (Hin (endPos - 5)%nat) as (b' & Hb' & Hne); [lia|].
        replace (5 + (endPos - 5))%nat with endPos in Hb' by lia. congruence.
    - destruct (decide (endPos = 5 + length line)%nat) as [|Hne]; [done|].
      destruct (Hall (5 + length line)%nat) as (b & Hb & Hne'); [lia|].
      rewrite H10 in Hb. by injection Hb as <-. }
  rewrite (tm_bind _ _ _ _ _ Hn). cbv zeta. cbn [tok_type].
  rewrite bool_decide_eq_false_2 by done.
  destruct fuel as [|fuel]; [done|]. cbn [getAllTokens_loop].
  set (this1 := {| buffer := buf; position := 5 + length line |}).
  set (this2 := {| buffer := buf; position := S (5 + length line) |}).
  assert (this1 = at_ (pdfHeader ++ line) (10 :: d :: rest)) as E1.
  { subst this1 buf. unfold at_. rewrite <- app_assoc, length_app. done. }
  assert (this2 = at_ ((pdfHeader ++ line) ++ [10]) (d :: rest)) as E2.
  { subst this2 buf. unfold at_. rewrite !length_app. simpl. f_equal; [|lia].
    by rewrite <- !app_assoc. }
  assert (nextToken this1 = nextToken this2) as Hskip.
  { apply nextToken_skip; [done|].
    unfold skipWhitespaceAndComments, scan.
    assert (length (buffer this1) = S (length (buffer this1) - 1)) as ->.
    { subst this1 buf. simpl. rewrite !length_app. simpl. lia. }
    rewrite skip_loop_whitespace.
    - change (advance this1) with this2. rewrite skip_loop_stay; [done|].
      right. rewrite E2, at_current. by destruct Hd as [->|[->| ->]].
    - by rewrite E1, at_isEOF.
    - by rewrite E1, at_current. }
  destruct (Hstuck this2) as [Hn2 Hloop].
  { done. }
  { by rewrite E2, at_isEOF. }
  { by rewrite E2, at_current. }
  rewrite (tm_bind nextToken _ this1 this2 (mkTok KEYWORD (VString [])))
    by (by rewrite Hskip).
  cbn [tok_type]. rewrite bool_decide_eq_false_2 by done. by rewrite Hloop.
Qed.


Lemma scan_exact cond pre w rest :
  Forall (λ b, cond b = true) w → ends cond rest →
  scan (advance_while cond) (at_ pre (w ++ rest)) = (at_ (pre ++ w) rest, Return tt).
Proof.
  intros Hw Hrest. unfold scan. rewrite advance_while_exact; [done..|].
  unfold at_. simpl. rewrite !length_app. lia.
Qed.

Lemma at_nonzero pre l : pre ≠ [] → position (at_ pre l) ≠ 0%nat.
Proof. destruct pre; [done|]. simpl. lia. Qed.

(** *** Numbers *)

Lemma digits_decimal ds : ∀ acc, Forall (λ d, 0 ≤ d ≤ 9) ds →
  digits 10 (digit_bytes ds) acc
  = match ds with
    | [] => acc
    | _ => Some (foldl (λ acc d, acc * 10 + d) (default 0 acc) ds)
    end.
Proof.
  induction ds as [|d ds IH]; intros acc Hds; [done|].
  apply Forall_cons in Hds as [Hd Hds]. cbn [digit_bytes fmap list_fmap digits].
  fold (digit_bytes ds). unfold digit_value.
  replace ((48 <=? 48 + d) && (48 + d <=? 57)) with true
    by (symmetry; apply andb_true_iff; split; apply Z.leb_le; lia).
  replace (48 + d - 48 <? 10) with true by (symmetry; apply Z.ltb_lt; lia).
  rewrite IH by done. replace (48 + d - 48) with d by lia.
  destruct ds; done.
Qed.

Lemma parseInt_unsigned c tail :
  48 ≤ c ≤ 57 → parseInt (c :: tail) 10 = (λ n, 1 * n) <$> digits 10 (c :: tail) None.
Proof.
  intros Hc.
  assert (c = 48 ∨ c = 49 ∨ c = 50 ∨ c = 51 ∨ c = 52 ∨ c = 53 ∨ c = 54 ∨ c = 55 ∨ c = 56
          ∨ c = 57) as Hc' by lia.
  destruct Hc' as [->|[->|[->|[->|[->|[->|[->|[->|[->| ->]]]]]]]]]; reflexivity.
Qed.

Lemma parseInt_decimal sign ds :
  sign = [] ∨ sign = [43] ∨ sign = [45] → ds ≠ [] → Forall (λ d, 0 ≤ d ≤ 9) ds →
  parseInt (sign ++ digit_bytes ds) 10
  = Some (if bool_decide (sign = [45]) then - decimal ds else decimal ds).
Proof.
  intros Hsign Hne Hds.
  assert (digits 10 (digit_bytes ds) None = Some (decimal ds)) as Hdig.
  { rewrite digits_decimal by done. by destruct ds. }
  destruct Hsign as [->|[->| ->]].
  - rewrite bool_decide_eq_false_2 by done. rewrite <- (Z.mul_1_l (decimal _)).
    destruct ds as [|d ds]; [done|]. apply Forall_cons in Hds as [Hd Hds].
    change ([] ++ digit_bytes (d :: ds)) with ((48 + d) :: digit_bytes ds).
    rewrite parseInt_unsigned by lia.
    change ((48 + d) :: digit_bytes ds) with (digit_bytes (d :: ds)). by rewrite Hdig.
  - rewrite bool_decide_eq_false_2 by done. rewrite <- (Z.mul_1_l (decimal _)).
    change (parseInt ([43] ++ digit_bytes ds) 10)
      with ((λ n, 1 * n) <$> digits 10 (digit_bytes ds) None).
    by rewrite Hdig.
  - rewrite bool_decide_eq_true_2 by done. rewrite <- (Z.mul_1_l (decimal _)), <- Z.mul_opp_l.
    change (parseInt ([45] ++ digit_bytes ds) 10)
      with ((λ n, -1 * n) <$> digits 10 (digit_bytes ds) None).
    by rewrite Hdig.
Qed.

Lemma digit_bytes_ascii ds :
  Forall (λ d, 0 ≤ d ≤ 9) ds → Forall (λ b, 0 ≤ b < 128) (digit_bytes ds).
Proof. intros Hds. apply Forall_fmap. eapply Forall_impl; [done|]. simpl. lia. Qed.

Lemma digit_bytes_isDigit ds :
  Forall (λ d, 0 ≤ d ≤ 9) ds → Forall (λ b, isDigit b = true) (digit_bytes ds).
Proof.
  intros Hds. apply Forall_fmap. eapply Forall_impl; [done|]. simpl. intros d Hd.
  unfold isDigit. apply andb_true_iff. split; apply Z.leb_le; lia.
Qed.

(** X11: An integer of at most fifteen digits (so that the number [parseInt]
    gives is exact), with or without a sign, is read back as the INTEGER
    token of its value, and the cursor is left behind its last digit. *)
Theorem nextToken_integer pre sign ds rest :
  pre ≠ [] →
  sign = [] ∨ sign = [43] ∨ sign = [45] →
  ds ≠ [] → Forall (λ d, 0 ≤ d ≤ 9) ds → (length ds ≤ 15)%nat →
  match rest with [] => True | b :: _ => isDigit b = false ∧ b ≠ 46 end →
  nextToken (at_ pre (sign ++ digit_bytes ds ++ rest))
  = (at_ (pre ++ sign ++ digit_bytes ds) rest,
     Return (mkTok INTEGER
               (VNumber (Some (if bool_decide (sign = [45])
                               then - decimal ds else decimal ds))))).
Proof.
  intros Hpre Hsign Hne Hds _ Hrest.
  set (this := at_ pre (sign ++ digit_bytes ds ++ rest)).
  assert (∃ c tail, sign ++ digit_bytes ds ++ rest = c :: tail ∧
            ((48 <=? c) && (c <=? 57) || (c =? 43) || (c =? 45) = true) ∧
            isWhitespace c = false ∧ c ≠ 37) as (c & tail & Hct & Hnum & Hw & H37).
  { destruct Hsign as [->|[->| ->]]; [|by eexists _, _..].
    destruct ds as [|d ds]; [done|]. apply Forall_cons in Hds as [Hd _].
    exists (48 + d), (digit_bytes ds ++ rest). split; [done|].
    assert (d = 0 ∨ d = 1 ∨ d = 2 ∨ d = 3 ∨ d = 4 ∨ d = 5 ∨ d = 6 ∨ d = 7 ∨ d = 8 ∨ d = 9)
      as Hd' by lia.
    destruct Hd' as [->|[->|[->|[->|[->|[->|[->|[->|[->| ->]]]]]]]]]; done. }
  rewrite nextToken_at.
  2:{ by apply at_nonzero. }
  2:{ subst this. by rewrite Hct, at_isEOF. }
  2:{ subst this. by rewrite Hct, at_current. }
  2:{ subst this. by rewrite Hct, at_current. }
  cbv zeta. assert (current this = c) as Hc by (subst this; by rewrite Hct, at_current).
  rewrite Hc, Hnum.
  unfold readNumber. rewrite (tm_bind get _ this this this) by done.
  rewrite (tm_bind _ _ this (at_ (pre ++ sign) (digit_bytes ds ++ rest)) tt).
  2:{ subst this. destruct Hsign as [->|[->| ->]].
      - rewrite app_nil_r. rewrite Hc. simpl in Hct.
        destruct ds as [|d ds]; [done|]. apply Forall_cons in Hds as [Hd _].
        injection Hct as <- _.
        assert (d = 0 ∨ d = 1 ∨ d = 2 ∨ d = 3 ∨ d = 4 ∨ d = 5 ∨ d = 6 ∨ d = 7 ∨ d = 8 ∨ d = 9)
          as Hd' by lia.
        destruct Hd' as [->|[->|[->|[->|[->|[->|[->|[->|[->| ->]]]]]]]]]; done.
      - cbn [app]. rewrite at_current. simpl. unfold move. by rewrite at_advance.
      - cbn [app]. rewrite at_current. simpl. unfold move. by rewrite at_advance. }
  rewrite (tm_bind _ _ _ _ _
             (scan_exact isDigit (pre ++ sign) (digit_bytes ds) rest
                (digit_bytes_isDigit ds Hds)
                ltac:(destruct rest; [done|apply Hrest]))).
  rewrite (tm_bind get _ _ _ _ eq_refl).
  assert (negb (isEOF (at_ ((pre ++ sign) ++ digit_bytes ds) rest))
          && (current (at_ ((pre ++ sign) ++ digit_bytes ds) rest) =? 46) = false) as ->.
  { rewrite at_isEOF. destruct rest as [|b rest]; [done|]. rewrite at_current.
    destruct Hrest as [_ ->%Z.eqb_neq]. by rewrite andb_false_r. }
  unfold ret. rewrite <- app_assoc. f_equal. do 3 f_equal.
  assert (slice (position this) (position (at_ (pre ++ sign ++ digit_bytes ds) rest))
            (buffer (at_ (pre ++ sign ++ digit_bytes ds) rest)) = sign ++ digit_bytes ds) as ->.
  { subst this. simpl. rewrite length_app, <- !app_assoc.
    rewrite (app_assoc sign). apply at_slice. }
  rewrite toString_ascii.
  - by apply parseInt_decimal.
  - apply Forall_app. split; [|by apply digit_bytes_ascii].
    destruct Hsign as [->|[->| ->]]; repeat constructor; lia.
Qed.


(** *** Keywords *)

(** X12: A word of regular ASCII bytes that does not start like a number and is
    none of the reserved words is read back as a KEYWORD token; a number
    written with a leading dot is such a word. *)
Theorem nextToken_keyword pre c w rest :
  pre ≠ [] →
  Forall (λ b, 0 ≤ b < 128 ∧ regular b = true) (c :: w) →
  ((48 <=? c) && (c <=? 57)) || (c =? 43) || (c =? 45) = false →
  ends regular rest →
  c :: w ∉ reserved →
  nextToken (at_ pre ((c :: w) ++ rest))
  = (at_ (pre ++ c :: w) rest, Return (mkTok KEYWORD (VString (c :: w)))).
Proof.
  intros Hpre Hw Hnum Hrest Hres. cbn [app].
  assert (Forall (λ b, regular b = true) (c :: w)) as Hreg
    by (eapply Forall_impl; [exact Hw|]; by intros ? [_ ?]).
  assert (Forall (λ b, 0 ≤ b < 128) (c :: w)) as Hascii
    by (eapply Forall_impl; [exact Hw|]; by intros ? [? _]).
  apply Forall_cons in Hreg as [Hc Hreg'].
  unfold regular in Hc. apply andb_true_iff in Hc as [Hcw%negb_true_iff Hcd%negb_true_iff].
  assert (c ≠ 37 ∧ c ≠ 47 ∧ c ≠ 40 ∧ c ≠ 60 ∧ c ≠ 62 ∧ c ≠ 91 ∧ c ≠ 93) as Hc.
  { unfold isDelimiter in Hcd. apply bool_decide_eq_false in Hcd. set_solver. }
  destruct Hc as (H37 & H47 & H40 & H60 & H62 & H91 & H93).
  rewrite nextToken_at.
  2:{ by apply at_nonzero. }
  2:{ by rewrite at_isEOF. }
  2:{ by rewrite at_current. }
  2:{ by rewrite at_current. }
  cbv zeta. rewrite at_current, Hnum.
  apply Z.eqb_neq in H47 as ->. apply Z.eqb_neq in H40 as ->. apply Z.eqb_neq in H60 as ->.
  apply Z.eqb_neq in H62 as ->. apply Z.eqb_neq in H91 as ->. apply Z.eqb_neq in H93 as ->.
  assert (slice (position (at_ pre (c :: w ++ rest))) (position (at_ (pre ++ c :: w) rest))
            (buffer (at_ (pre ++ c :: w) rest)) = c :: w) as Hslice.
  { simpl. rewrite length_app, <- app_assoc. apply at_slice. }
  rewrite (readKeywordOrReference_keyword _ (at_ (pre ++ c :: w) rest)).
  - by rewrite Hslice, toString_ascii.
  - apply (advance_while_exact _ (c :: w));
      [by constructor; [unfold regular in *; rewrite Hcw, Hcd|]|done|].
    simpl. rewrite !length_app. simpl. rewrite !length_app. lia.
  - by rewrite Hslice, toString_ascii.
Qed.

(** *** Names *)

Lemma isHexDigit_regular b : isHexDigit b = true → regular b = true.
Proof.
  unfold isHexDigit. intros Hb.
  assert (48 ≤ b ≤ 57 ∨ 65 ≤ b ≤ 70 ∨ 97 ≤ b ≤ 102) as Hr.
  { destruct (Z.leb_spec 48 b), (Z.leb_spec b 57), (Z.leb_spec 65 b), (Z.leb_spec b 70),
      (Z.leb_spec 97 b), (Z.leb_spec b 102); simpl in Hb; try done; lia. }
  unfold regular, isWhitespace, isDelimiter. apply andb_true_iff. split.
  - apply negb_true_iff. repeat (apply orb_false_iff; split); apply Z.eqb_neq; lia.
  - apply negb_true_iff, bool_decide_eq_false. intros Hin.
    repeat (apply elem_of_cons in Hin as [->|Hin]; [lia|]). by apply elem_of_nil in Hin.
Qed.

Lemma name_loop_exact n : ∀ raw pre rest fuel,
  (length raw ≤ n)%nat →
  Forall (λ b, regular b = true) raw → ends regular rest → (length raw ≤ fuel)%nat →
  name_loop fuel (at_ pre (raw ++ rest)) = Some (at_ (pre ++ raw) rest).
Proof.
  induction n as [|n IH]; intros raw pre rest fuel Hn Hraw Hrest Hfuel.
  - destruct raw; [|simpl in Hn; lia]. simpl. rewrite app_nil_r.
    destruct fuel; simpl; rewrite at_isEOF; (destruct rest as [|b rest]; [done|]);
      rewrite at_current; simpl in Hrest; unfold regular in Hrest;
      apply andb_false_iff in Hrest as [->%negb_false_iff| ->%negb_false_iff]; simpl;
      by rewrite ?andb_false_r.
  - destruct raw as [|b raw].
    { apply (IH [] pre rest fuel); [simpl; lia|done..]. }
    apply Forall_cons in Hraw as [Hb Hraw]. destruct fuel as [|fuel]; [simpl in Hfuel; lia|].
    cbn [app name_loop]. rewrite at_isEOF, at_current.
    unfold regular in Hb. apply andb_true_iff in Hb as [Hw%negb_true_iff Hd%negb_true_iff].
    rewrite Hw, Hd. cbn [bool_decide decide_rel negb andb].
    rewrite bool_decide_eq_false_2 by done. cbn [negb andb].
    assert (name_loop fuel (advance (at_ pre (b :: raw ++ rest)))
            = Some (at_ (pre ++ b :: raw) rest)) as Hstep.
    { rewrite at_advance, (IH raw (pre ++ [b]) rest fuel); [|simpl in *; lia|done|done|
                                                              simpl in *; lia].
      by rewrite <- app_assoc. }
    case_match eqn:Hjump; [|done].
    apply andb_true_iff in Hjump as [Hjump Hh2]. apply andb_true_iff in Hjump as [Hjump Hh1].
    apply andb_true_iff in Hjump as [_ Hlen%bool_decide_eq_true].
    change (position (at_ pre (b :: raw ++ rest))) with (length pre) in *.
    rewrite at_byteAt in Hh1, Hh2. simpl in Hlen. rewrite length_app in Hlen. simpl in Hlen.
    destruct raw as [|a raw].
    { destruct rest as [|r rest]; simpl in *; [lia|].
      apply isHexDigit_regular in Hh1. congruence. }
    destruct raw as [|a' raw].
    { destruct rest as [|r rest]; simpl in *; [lia|].
      apply isHexDigit_regular in Hh2. congruence. }
    apply Forall_cons in Hraw as [_ Hraw]. apply Forall_cons in Hraw as [_ Hraw].
    assert (advance_by 3 (at_ pre (b :: (a :: a' :: raw) ++ rest))
            = at_ (pre ++ [b; a; a']) (raw ++ rest)) as ->.
    { unfold advance_by, at_. simpl. rewrite <- app_assoc, length_app. simpl.
      f_equal. lia. }
    rewrite (IH raw (pre ++ [b; a; a']) rest fuel); [|simpl in *; lia|done|done|simpl in *; lia].
    by rewrite <- app_assoc.
Qed.

Lemma decode_name_plain raw : 35 ∉ raw → decode_name raw = raw.
Proof.
  induction raw as [|c raw IH]; [done|]. intros Hno.
  assert (c ≠ 35) as Hc by set_solver. assert (35 ∉ raw) as Hraw by set_solver.
  apply Z.eqb_neq in Hc. cbn [decode_name]. rewrite Hc, IH by done.
  by destruct raw as [|? [|? ?]].
Qed.

Lemma isHexDigit_cases b : isHexDigit b = true → b ∈ hex_digits.
Proof.
  unfold isHexDigit. intros Hb.
  assert (48 ≤ b ≤ 57 ∨ 65 ≤ b ≤ 70 ∨ 97 ≤ b ≤ 102) as Hr.
  { destruct (Z.leb_spec 48 b), (Z.leb_spec b 57), (Z.leb_spec 65 b), (Z.leb_spec b 70),
      (Z.leb_spec 97 b), (Z.leb_spec b 102); simpl in Hb; try done; lia. }
  assert (b = 48 ∨ b = 49 ∨ b = 50 ∨ b = 51 ∨ b = 52 ∨ b = 53 ∨ b = 54 ∨ b = 55 ∨ b = 56 ∨
          b = 57 ∨ b = 65 ∨ b = 66 ∨ b = 67 ∨ b = 68 ∨ b = 69 ∨ b = 70 ∨
          b = 97 ∨ b = 98 ∨ b = 99 ∨ b = 100 ∨ b = 101 ∨ b = 102) as Hc by lia.
  unfold hex_digits. rewrite !elem_of_cons. tauto.
Qed.

Lemma parseInt_hex_pair a b :
  isHexDigit a = true → isHexDigit b = true →
  fromCharCode (parseInt [a; b] 16) = 16 * hex_value a + hex_value b.
Proof.
  intros Ha%isHexDigit_cases Hb%isHexDigit_cases.
  assert (Forall (λ a, Forall (λ b,
            fromCharCode (parseInt [a; b] 16) = 16 * hex_value a + hex_value b)
            hex_digits) hex_digits) as Hall.
  { apply (bool_decide_unpack _). vm_compute. exact I. }
  rewrite Forall_forall in Hall. specialize (Hall a Ha).
  rewrite Forall_forall in Hall. by apply Hall.
Qed.

(** X13: A name of regular ASCII bytes is read back as the NAME token of its
    decoding, the cursor left behind it; a name without number sign is kept
    as it is, and a number sign followed by two hexadecimal digits stands for
    the character of that code. *)
Theorem nextToken_name pre raw rest :
  pre ≠ [] →
  Forall (λ b, 0 ≤ b < 128 ∧ regular b = true) raw →
  ends regular rest →
  nextToken (at_ pre (47 :: raw ++ rest))
  = (at_ (pre ++ 47 :: raw) rest, Return (mkTok NAME (VString (decode_name raw)))) ∧
  (35 ∉ raw → decode_name raw = raw) ∧
  (∀ u a b v, raw = u ++ 35 :: a :: b :: v → 35 ∉ u →
     isHexDigit a = true → isHexDigit b = true →
     decode_name raw = u ++ (16 * hex_value a + hex_value b) :: decode_name v).
Proof.
  intros Hpre Hraw Hrest.
  assert (Forall (λ b, regular b = true) raw) as Hreg
    by (eapply Forall_impl; [exact Hraw|]; by intros ? [_ ?]).
  assert (Forall (λ b, 0 ≤ b < 128) raw) as Hascii
    by (eapply Forall_impl; [exact Hraw|]; by intros ? [? _]).
  split; [|split; [apply decode_name_plain|]].
  - rewrite nextToken_at; [|by apply at_nonzero|by rewrite at_isEOF
                           |by rewrite at_current|by rewrite at_current].
    cbv zeta. rewrite at_current. cbn [Z.leb Z.eqb Z.compare Pos.compare Pos.compare_cont
                                         Pos.eqb andb orb].
    unfold readName. rewrite (tm_bind (move advance) _ _ _ tt eq_refl).
    rewrite (tm_bind get _ _ _ _ eq_refl). rewrite at_advance.
    rewrite (tm_bind _ _ _ (at_ ((pre ++ [47]) ++ raw) rest) tt).
    2:{ unfold scan. rewrite (name_loop_exact (length raw)); [done|done|done|done|].
        simpl. rewrite !length_app. lia. }
    rewrite (tm_bind get _ _ _ _ eq_refl). unfold ret.
    rewrite <- app_assoc. f_equal. do 3 f_equal.
    assert (slice (position (at_ (pre ++ [47]) (raw ++ rest)))
              (position (at_ (pre ++ [47] ++ raw) rest))
              (buffer (at_ (pre ++ [47] ++ raw) rest)) = raw) as ->.
    { unfold at_. cbn [position buffer].
      rewrite (app_assoc pre [47] raw), <- (app_assoc (pre ++ [47]) raw rest).
      rewrite (length_app (pre ++ [47]) raw). apply at_slice. }
    by rewrite toString_ascii.
  - intros u a b v -> Hu Ha Hb. clear Hraw Hreg Hascii.
    induction u as [|c u IH].
    + cbn [app decode_name]. by rewrite parseInt_hex_pair.
    + assert (c ≠ 35) as Hc by set_solver. assert (35 ∉ u) as Hu' by set_solver.
      apply Z.eqb_neq in Hc. cbn [app decode_name]. rewrite Hc. fold (app u (35 :: a :: b :: v)).
      rewrite IH by done. by destruct u as [|? [|? ?]].
Qed.


(** *** Streams *)

(** X14: Behind the keyword stream and the white space that follows it, all of
    it, the bytes up to the first endstream are the data of the STREAM token,
    and the cursor is left behind that endstream; with no endstream to come,
    the call throws. *)
Theorem nextToken_stream pre ws data rest :
  pre ≠ [] → ws ≠ [] → Forall (λ b, isWhitespace b = true) ws → ends isWhitespace data →
  (indexOf endstream (data ++ endstream ++ rest) = Some (length data) →
   nextToken (at_ pre (bytes_of "stream" ++ ws ++ data ++ endstream ++ rest))
   = (at_ (pre ++ bytes_of "stream" ++ ws ++ data ++ endstream) rest,
      Return (mkTok STREAM (VBuffer data)))) ∧
  (indexOf endstream data = None →
   nextToken (at_ pre (bytes_of "stream" ++ ws ++ data))
   = (at_ (pre ++ bytes_of "stream" ++ ws) data, Throw MissingEndstream)).
Proof.
  intros Hpre Hne Hws Hdata.
  assert (∀ tail, ends isWhitespace tail →
    nextToken (at_ pre (bytes_of "stream" ++ ws ++ tail))
    = (let! this := get in
       let streamStart := position this in
       match indexOf_from (bytes_of "endstream") (buffer this) streamStart with
       | None => throw MissingEndstream
       | Some endStreamPos =>
           let streamData := slice streamStart endStreamPos (buffer this) in
           let! _ := move (λ this, {| buffer := buffer this; position := endStreamPos + 9 |}) in
           ret (mkTok STREAM (VBuffer streamData))
       end) (at_ ((pre ++ bytes_of "stream") ++ ws) tail)) as Hkw.
  { intros tail Htail.
    assert (bytes_of "stream" ++ ws ++ tail = 115 :: bytes_of "tream" ++ ws ++ tail) as Hs
      by done.
    rewrite nextToken_at; [|by apply at_nonzero|by rewrite Hs, at_isEOF
                           |by rewrite Hs, at_current..].
    assert (current (at_ pre (bytes_of "stream" ++ ws ++ tail)) = 115) as Hc
      by (by rewrite Hs, at_current).
    cbv zeta. rewrite Hc.
    cbn [Z.leb Z.eqb Z.compare Pos.compare Pos.compare_cont Pos.eqb andb orb].
    unfold readKeywordOrReference. rewrite (tm_bind get _ _ _ _ eq_refl).
    rewrite (tm_bind _ _ _ _ _
               (scan_exact regular pre (bytes_of "stream") (ws ++ tail)
                  ltac:(by repeat constructor)
                  ltac:(destruct ws as [|b ws]; [done|]; apply Forall_cons in Hws as [Hb _];
                        simpl; unfold regular; by rewrite Hb))).
    rewrite (tm_bind get _ _ _ _ eq_refl).
    assert (slice (position (at_ pre (bytes_of "stream" ++ ws ++ tail)))
              (position (at_ (pre ++ bytes_of "stream") (ws ++ tail)))
              (buffer (at_ (pre ++ bytes_of "stream") (ws ++ tail))) = bytes_of "stream") as ->.
    { unfold at_. cbn [position buffer]. rewrite length_app, <- app_assoc. apply at_slice. }
    rewrite toString_ascii by (repeat constructor; lia).
    rewrite (bool_decide_eq_false_2 (_ = bytes_of "true")) by done.
    rewrite (bool_decide_eq_false_2 (_ = bytes_of "false")) by done.
    rewrite (bool_decide_eq_false_2 (_ = bytes_of "null")) by done.
    rewrite (bool_decide_eq_true_2 (_ = bytes_of "stream")) by done.
    unfold readStream.
    by rewrite (tm_bind _ _ _ _ _
                  (scan_exact isWhitespace (pre ++ bytes_of "stream") ws tail Hws Htail)). }
  split.
  - intros Hi. rewrite Hkw.
    2:{ destruct data as [|b data]; [done|]. apply Hdata. }
    rewrite (tm_bind get _ _ _ _ eq_refl). cbv zeta.
    unfold indexOf_from, at_. cbn [position buffer]. rewrite drop_app_length.
    fold endstream. rewrite Hi. cbn [fmap option_fmap option_map].
    rewrite (tm_bind (move _) _ _ _ tt eq_refl). unfold ret. f_equal.
    + cbn [buffer]. rewrite !length_app, <- !app_assoc. f_equal.
      change (length endstream) with 9%nat. lia.
    + do 3 f_equal. apply at_slice.
  - intros Hi. rewrite Hkw by (destruct data as [|b data]; [done|apply Hdata]).
    rewrite (tm_bind get _ _ _ _ eq_refl). cbv zeta.
    unfold indexOf_from, at_. cbn [position buffer]. rewrite drop_app_length.
    fold endstream. rewrite Hi. cbn [fmap option_fmap option_map]. unfold throw.
    by rewrite <- !app_assoc.
Qed.

(** *** All the tokens of a buffer *)

Lemma never_EOF_bind {A} (m : TM A) (f : A → TM Token) :
  (∀ a, never_EOF (f a)) → never_EOF (bind m f).
Proof.
  intros Hf this this' tok. unfold bind. destruct (m this) as [this1 [a|e]]; [|done].
  apply Hf.
Qed.

Lemma never_EOF_ret tok : tok_type tok ≠ EOF → never_EOF (ret tok).
Proof. intros Ht this this' tok'. unfold ret. by intros [= _ <-]. Qed.

Lemma never_EOF_throw e : never_EOF (throw e).
Proof. by intros this this' tok. Qed.

Lemma readStream_never_EOF : never_EOF readStream.
Proof.
  unfold readStream. do 2 (apply never_EOF_bind; intros ?). case_match.
  - apply never_EOF_bind; intros ?. by apply never_EOF_ret.
  - apply never_EOF_throw.
Qed.

Lemma string_reader_never_EOF read :
  (∀ this this' t, read this = Some (this', t) → token_type t ≠ EOF) →
  never_EOF (string_reader read).
Proof.
  intros Hr this this' tok. unfold string_reader.
  destruct (read this) as [[this1 t]|] eqn:Hread; [|done].
  intros [= _ <-]. simpl. by eapply Hr.
Qed.

Ltac never_EOF :=
  repeat first
    [ apply readStream_never_EOF
    | apply never_EOF_throw
    | apply never_EOF_ret; done
    | apply never_EOF_bind; intros ?
    | case_match ].

Lemma readNumber_never_EOF : never_EOF readNumber.
Proof. unfold readNumber. never_EOF. Qed.

Lemma readName_never_EOF : never_EOF readName.
Proof. unfold readName. never_EOF. Qed.

Lemma readKeywordOrReference_never_EOF : never_EOF readKeywordOrReference.
Proof. unfold readKeywordOrReference. never_EOF. Qed.

Lemma literal_reader_never_EOF : never_EOF (string_reader readLiteralString).
Proof.
  apply string_reader_never_EOF. intros t0 t1 t. unfold readLiteralString.
  destruct (literal_scan t0); simpl; [|done]. by intros [= _ <-].
Qed.

Lemma hex_reader_never_EOF : never_EOF (string_reader readHexString).
Proof.
  apply string_reader_never_EOF. intros t0 t1 t. unfold readHexString.
  destruct (hex_scan t0) as [[? ?]|]; simpl; [|done]. by intros [= _ <-].
Qed.

(** A call of [nextToken] that returns a token of type EOF has found the
    end of the buffer. *)
Lemma nextToken_EOF this this' tok :
  nextToken this = (this', Return tok) → tok_type tok = EOF →
  tok = mkTok EOF VNull ∧ isEOF this' = true.
Proof.
  unfold nextToken. rewrite (tm_bind get _ this this this) by done.
  destruct (position this =? 0)%nat.
  { intros Hr Ht. exfalso. revert Hr Ht.
    apply (never_EOF_bind readHeader). intros ?. by apply never_EOF_ret. }
  destruct (skip_stops this) as (this1 & Hs & _).
  rewrite (tm_bind _ _ _ _ _ Hs), (tm_bind get _ this1 this1 this1) by done.
  destruct (isEOF this1) eqn:He; [by intros [= <- <-]|].
  intros Hr Ht. exfalso. revert Hr Ht.
  repeat case_match.
  - apply readNumber_never_EOF.
  - apply readName_never_EOF.
  - apply literal_reader_never_EOF.
  - apply (never_EOF_bind (move (advance_by 2))). intros ?. by apply never_EOF_ret.
  - apply hex_reader_never_EOF.
  - apply (never_EOF_bind (move (advance_by 2))). intros ?. by apply never_EOF_ret.
  - apply never_EOF_throw.
  - apply (never_EOF_bind (move advance)). intros ?. by apply never_EOF_ret.
  - apply (never_EOF_bind (move advance)). intros ?. by apply never_EOF_ret.
  - apply readKeywordOrReference_never_EOF.
Qed.

Lemma getAllTokens_loop_shape fuel : ∀ this this' acc tokens,
  position this ≠ 0%nat →
  getAllTokens_loop fuel acc this = (this', Return tokens) →
  ∃ middle, tokens = acc ++ middle ++ [mkTok EOF VNull] ∧
    Forall (λ t, tok_type t ≠ EOF) middle ∧
    isEOF this' = true ∧ buffer this' = buffer this.
Proof.
  induction fuel as [|fuel IH]; intros this this' acc tokens Hnz; [done|].
  cbn [getAllTokens_loop]. unfold bind at 1.
  destruct (nextToken this) as [this1 [tok|e]] eqn:Hn; [|done].
  destruct (nextToken_steps _ _ _ Hn) as (Hb & Hp & _).
  case_bool_decide as Ht.
  - intros [= <- <-]. destruct (nextToken_EOF _ _ _ Hn Ht) as [-> He].
    exists []. by rewrite app_nil_l.
  - intros Hloop. apply IH in Hloop as (middle & -> & Hmid & He & Hb'); [|lia].
    exists (tok :: middle). rewrite <- app_assoc. split; [done|].
    split; [by constructor|]. split; [done|congruence].
Qed.

(** X15: The tokens [getAllTokens] gives for a fresh tokenizer, when it
    returns: the HEADER token first, the EOF token last and nowhere else, the
    cursor at the end of the buffer. *)
Theorem getAllTokens_shape fuel this this' tokens :
  position this = 0%nat →
  getAllTokens fuel this = (this', Return tokens) →
  ∃ header middle,
    tokens = header :: middle ++ [mkTok EOF VNull] ∧
    tok_type header = HEADER ∧
    Forall (λ t, tok_type t ≠ EOF) middle ∧
    isEOF this' = true ∧ buffer this' = buffer this.
Proof.
  intros Hz. unfold getAllTokens. destruct fuel as [|fuel]; [done|].
  cbn [getAllTokens_loop]. unfold bind at 1.
  pose proof (nextToken_header this Hz) as Hh.
  destruct (indexOf pdfHeader (buffer this)) as [startPos|]; [|by rewrite Hh].
  destruct Hh as (endPos & -> & Hle & _). cbn [tok_type].
  rewrite bool_decide_eq_false_2 by done.
  intros Hloop. apply getAllTokens_loop_shape in Hloop as (middle & -> & Hmid & He & Hb).
  - eexists _, middle. split; [reflexivity|]. done.
  - simpl. lia.
Qed.

End readers.

(** *** Strings *)

Lemma literal_loop_unfold fuel s :
  literal_loop (S fuel) s =
  if negb (isEOF (lit_this s)) && (0 <? lit_depth s) then
    let '(s', broke) := literal_body s in
    if broke then Some s' else literal_loop fuel s'
  else Some s.
Proof. reflexivity. Qed.

Lemma literal_body_plain pre b l result depth :
  b ≠ 40 → b ≠ 41 → b ≠ 92 → 0 ≤ b < 65536 →
  literal_body (mkLiteral (at_ pre (b :: l)) result depth)
  = (mkLiteral (at_ (pre ++ [b]) l) (result ++ [b]) depth, false).
Proof.
  intros H40%Z.eqb_neq H41%Z.eqb_neq H92%Z.eqb_neq Hb. unfold literal_body.
  cbn [lit_this lit_result lit_depth]. cbv zeta. rewrite at_current, at_advance, H40, H41, H92.
  unfold fromCharCode. by rewrite Z.mod_small by lia.
Qed.

Lemma literal_body_escaped pre b l result depth :
  b = 40 ∨ b = 41 ∨ b = 92 →
  literal_body (mkLiteral (at_ pre (92 :: b :: l)) result depth)
  = (mkLiteral (at_ (pre ++ [92; b]) l) (result ++ [b]) depth, false).
Proof.
  intros Hb. unfold literal_body.
  cbn [lit_this lit_result lit_depth]. cbv zeta. rewrite at_current, at_advance.
  cbn [Z.eqb Pos.eqb]. rewrite at_isEOF, bool_decide_eq_false_2 by done.
  rewrite at_current, at_advance, <- app_assoc. cbn [app].
  by destruct Hb as [-> | [-> | ->]].
Qed.

Lemma literal_body_close pre l result :
  literal_body (mkLiteral (at_ pre (41 :: l)) result 1)
  = (mkLiteral (at_ (pre ++ [41]) l) result 0, false).
Proof.
  unfold literal_body. cbn [lit_this lit_result lit_depth]. cbv zeta.
  by rewrite at_current, at_advance.
Qed.

(** The loop of [readLiteralString] over escaped bytes and the closing
    parenthesis. *)
Lemma literal_loop_escaped bs : ∀ pre rest result fuel,
  Forall (λ b, 0 ≤ b < 256) bs → (length bs < fuel)%nat →
  literal_loop fuel (mkLiteral (at_ pre (flat_map escape bs ++ 41 :: rest)) result 1)
  = Some (mkLiteral (at_ (pre ++ flat_map escape bs ++ [41]) rest) (result ++ bs) 0).
Proof.
  induction bs as [|b bs IH]; intros pre rest result fuel Hbs Hfuel.
  - destruct fuel as [|fuel]; [simpl in Hfuel; lia|].
    cbn [flat_map app]. rewrite literal_loop_unfold. cbn [lit_this lit_depth].
    rewrite at_isEOF, bool_decide_eq_false_2 by done. cbn [negb andb Z.ltb Z.compare].
    rewrite literal_body_close. rewrite app_nil_r.
    destruct fuel; simpl; by rewrite andb_false_r.
  - apply Forall_cons in Hbs as [Hb Hbs].
    destruct fuel as [|fuel]; [simpl in Hfuel; lia|].
    rewrite literal_loop_unfold. cbn [lit_this lit_depth flat_map].
    rewrite <- app_assoc.
    assert (isEOF (at_ pre (escape b ++ flat_map escape bs ++ 41 :: rest)) = false) as ->.
    { rewrite at_isEOF. apply bool_decide_eq_false_2. unfold escape. by case_match. }
    cbn [negb andb Z.ltb Z.compare].
    destruct ((b =? 40) || (b =? 41) || (b =? 92)) eqn:Hesc.
    + assert (escape b = [92; b]) as -> by (unfold escape; by rewrite Hesc).
      cbn [app]. rewrite literal_body_escaped.
      2:{ apply orb_true_iff in Hesc as [Hesc|Hesc];
            [apply orb_true_iff in Hesc as [Hesc|Hesc]|]; apply Z.eqb_eq in Hesc; auto. }
      rewrite IH by (done || simpl in Hfuel; lia).
      rewrite <- !app_assoc. cbn [app]. done.
    + assert (escape b = [b]) as -> by (unfold escape; by rewrite Hesc).
      apply orb_false_iff in Hesc as [Hesc H92]. apply orb_false_iff in Hesc as [H40 H41].
      apply Z.eqb_neq in H40, H41, H92.
      cbn [app]. rewrite literal_body_plain by (done || lia).
      rewrite IH by (done || simpl in Hfuel; lia).
      rewrite <- !app_assoc. cbn [app]. done.
Qed.

Lemma length_escaped bs : (length bs ≤ length (flat_map escape bs))%nat.
Proof.
  induction bs as [|b bs IH]; [done|]. cbn [flat_map]. rewrite length_app.
  assert (1 ≤ length (escape b))%nat by (unfold escape; case_match; simpl; lia).
  simpl. lia.
Qed.

Lemma hex_loop_unfold fuel this hexString :
  hex_loop (S fuel) this hexString =
  if negb (isEOF this) && negb (current this =? 62) then
    let currentByte := current this in
    let this := advance this in
    if negb (isWhitespace currentByte)
    then hex_loop fuel this (hexString ++ [fromCharCode (Some currentByte)])
    else hex_loop fuel this hexString
  else Some (this, hexString).
Proof. reflexivity. Qed.

(** The loop of [readHexString] over digits, up to the closing bracket. *)
Lemma hex_loop_exact w : ∀ pre rest acc fuel,
  Forall (λ c, isHexDigit c = true) w → (length w ≤ fuel)%nat →
  hex_loop fuel (at_ pre (w ++ 62 :: rest)) acc = Some (at_ (pre ++ w) (62 :: rest), acc ++ w).
Proof.
  induction w as [|c w IH]; intros pre rest acc fuel Hw Hfuel.
  - rewrite !app_nil_r. cbn [app].
    destruct fuel; simpl; by rewrite at_isEOF, at_current.
  - apply Forall_cons in Hw as [Hc Hw]. destruct fuel as [|fuel]; [simpl in Hfuel; lia|].
    cbn [app]. rewrite hex_loop_unfold, at_isEOF, at_current, at_advance.
    rewrite bool_decide_eq_false_2 by done.
    pose proof (isHexDigit_regular c Hc) as Hreg. unfold regular in Hreg.
    apply andb_true_iff in Hreg as [Hws _].
    assert (c ≠ 62) as H62 by (intros ->; discriminate Hc).
    apply Z.eqb_neq in H62. rewrite H62. cbv zeta. rewrite Hws. cbn [negb andb].
    rewrite IH by (done || simpl in Hfuel; lia).
    assert (fromCharCode (Some c) = c) as ->.
    { apply isHexDigit_cases in Hc. unfold fromCharCode. apply Z.mod_small.
      unfold hex_digits in Hc. set_solver by lia. }
    by rewrite <- !app_assoc.
Qed.

Lemma hex_char_digit d : 0 ≤ d < 16 → isHexDigit (hex_char d) = true ∧ hex_value (hex_char d) = d.
Proof.
  intros Hd. assert (d ∈ [0; 1; 2; 3; 4; 5; 6; 7; 8; 9; 10; 11; 12; 13; 14; 15]) as Hin.
  { assert (d = 0 ∨ d = 1 ∨ d = 2 ∨ d = 3 ∨ d = 4 ∨ d = 5 ∨ d = 6 ∨ d = 7 ∨ d = 8 ∨ d = 9 ∨
            d = 10 ∨ d = 11 ∨ d = 12 ∨ d = 13 ∨ d = 14 ∨ d = 15) as Hc by lia.
    set_solver. }
  assert (Forall (λ d, isHexDigit (hex_char d) = true ∧ hex_value (hex_char d) = d)
            [0; 1; 2; 3; 4; 5; 6; 7; 8; 9; 10; 11; 12; 13; 14; 15]) as Hall.
  { repeat constructor. }
  rewrite Forall_forall in Hall. by apply Hall.
Qed.

Lemma hex_of_digits bs :
  Forall (λ b, 0 ≤ b < 256) bs → Forall (λ c, isHexDigit c = true) (hex_of bs).
Proof.
  induction 1 as [|b bs Hb _ IH]; [constructor|]. cbn [hex_of flat_map app].
  constructor; [apply hex_char_digit; split; [apply Z.div_pos|apply Z.div_lt_upper_bound]; lia|].
  constructor; [apply hex_char_digit; apply Z.mod_pos_bound; lia|done].
Qed.

Lemma hex_to_binary_of bs l :
  Forall (λ b, 0 ≤ b < 256) bs → hex_to_binary (hex_of bs ++ l) = bs ++ hex_to_binary l.
Proof.
  induction 1 as [|b bs Hb _ IH]; [done|]. cbn [hex_of flat_map app hex_to_binary].
  fold (hex_of bs). rewrite IH. f_equal.
  destruct (hex_char_digit (b / 16)) as [H1 H2];
    [split; [apply Z.div_pos|apply Z.div_lt_upper_bound]; lia|].
  destruct (hex_char_digit (b mod 16)) as [H3 H4]; [apply Z.mod_pos_bound; lia|].
  rewrite parseInt_hex_pair, H2, H4 by done. rewrite (Z.div_mod b 16) at 3 by lia. lia.
Qed.

Lemma length_hex_of bs : length (hex_of bs) = (2 * length bs)%nat.
Proof. induction bs as [|b bs IH]; [done|]. cbn [hex_of flat_map app length]. fold (hex_of bs). lia. Qed.

Section strings.
Context `{Utf8}.

(** X16: A literal string written with a backslash before every parenthesis and
    backslash of its bytes is read back as the STRING token of those bytes,
    each byte one character of the value, and the cursor is left behind the
    closing parenthesis. *)
Theorem nextToken_literal_round_trip pre bs rest :
  pre ≠ [] → Forall (λ b, 0 ≤ b < 256) bs →
  nextToken (at_ pre (40 :: flat_map escape bs ++ 41 :: rest))
  = (at_ (pre ++ 40 :: flat_map escape bs ++ [41]) rest,
     Return (mkTok STRING (VString bs))).
Proof.
  intros Hpre Hbs.
  rewrite nextToken_at; [|by apply at_nonzero|by rewrite at_isEOF
                         |by rewrite at_current|by rewrite at_current].
  cbv zeta. rewrite at_current.
  cbn [Z.leb Z.eqb Z.compare Pos.compare Pos.compare_cont Pos.eqb andb orb].
  unfold string_reader, readLiteralString, literal_scan. rewrite at_advance.
  rewrite literal_loop_escaped; [|done|].
  2:{ unfold at_. cbn [buffer]. rewrite length_app. cbn [length]. rewrite length_app.
      pose proof (length_escaped bs). simpl. lia. }
  cbn [mbind option_bind lit_this lit_result token_type token_value app].
  by rewrite <- app_assoc.
Qed.

(** X17: A hex string written with two digits for every byte is read back as
    the HEX_STRING token of those bytes, the cursor left behind the closing
    bracket; a last digit written alone counts as followed by 0. *)
Theorem nextToken_hex_round_trip pre bs rest :
  pre ≠ [] → Forall (λ b, 0 ≤ b < 256) bs →
  nextToken (at_ pre (60 :: hex_of bs ++ 62 :: rest))
  = (at_ (pre ++ 60 :: hex_of bs ++ [62]) rest, Return (mkTok HEX_STRING (VString bs))) ∧
  ∀ d, 0 ≤ d < 16 →
    nextToken (at_ pre (60 :: (hex_of bs ++ [hex_char d]) ++ 62 :: rest))
    = (at_ (pre ++ 60 :: (hex_of bs ++ [hex_char d]) ++ [62]) rest,
       Return (mkTok HEX_STRING (VString (bs ++ [16 * d])))).
Proof.
  intros Hpre Hbs.
  assert (∀ w, Forall (λ c, isHexDigit c = true) w →
            nextToken (at_ pre (60 :: w ++ 62 :: rest))
            = (at_ (pre ++ 60 :: w ++ [62]) rest,
               Return (mkTok HEX_STRING
                         (VString (hex_to_binary
                                     (if Z.of_nat (length w) mod 2 =? 1 then w ++ [48] else w))))))
    as Hread.
  { intros w Hw.
    rewrite nextToken_at; [|by apply at_nonzero|by rewrite at_isEOF
                           |by rewrite at_current|by rewrite at_current].
    cbv zeta. rewrite at_current.
    cbn [Z.leb Z.eqb Z.compare Pos.compare Pos.compare_cont Pos.eqb andb orb].
    assert ((byteAt (at_ pre (60 :: w ++ 62 :: rest))
               (position (at_ pre (60 :: w ++ 62 :: rest)) + 1) =? 60) = false) as ->.
    { unfold at_ at 2. cbn [position]. rewrite at_byteAt. cbn [lookup list_lookup].
      destruct w as [|c w]; [done|]. apply Forall_cons in Hw as [Hc _]. simpl.
      apply Z.eqb_neq. intros ->. discriminate Hc. }
    rewrite andb_false_r.
    unfold string_reader, readHexString, hex_scan. rewrite at_advance.
    rewrite hex_loop_exact; [|done|].
    2:{ unfold at_. cbn [buffer]. rewrite length_app. cbn [length]. rewrite length_app. lia. }
    cbn [mbind option_bind]. rewrite at_isEOF, bool_decide_eq_false_2 by done.
    cbn [negb]. rewrite at_advance. rewrite app_nil_l.
    cbn [token_type token_value]. rewrite <- !app_assoc. done. }
  split.
  - rewrite Hread by (by apply hex_of_digits).
    rewrite length_hex_of.
    replace (Z.of_nat (2 * length bs) mod 2 =? 1) with false.
    2:{ symmetry. apply Z.eqb_neq. rewrite Nat2Z.inj_mul, Z.mul_comm, Z.mod_mul by lia. lia. }
    assert (hex_to_binary (hex_of bs) = bs) as ->; [|done].
    rewrite <- (app_nil_r (hex_of bs)), hex_to_binary_of by done. apply app_nil_r.
  - intros d Hd. destruct (hex_char_digit d Hd) as [H1 H2].
    rewrite Hread.
    2:{ apply Forall_app. split; [by apply hex_of_digits|by repeat constructor]. }
    rewrite length_app, length_hex_of. cbn [length].
    replace (Z.of_nat (2 * length bs + 1) mod 2 =? 1) with true.
    2:{ symmetry. apply Z.eqb_eq. rewrite Nat2Z.inj_add, Nat2Z.inj_mul, Z.add_comm, Z.mul_comm.
        rewrite Z.mod_add by lia. done. }
    assert (hex_to_binary ((hex_of bs ++ [hex_char d]) ++ [48]) = bs ++ [16 * d]) as ->; [|done].
    rewrite <- app_assoc, hex_to_binary_of by done. cbn [app hex_to_binary].
    rewrite parseInt_hex_pair by done. rewrite H2. do 2 f_equal.
    change (hex_value 48) with 0. lia.
Qed.

End strings.

(** *** The properties at work *)

Lemma nextToken_first_is_header_witness :
  ∃ endPos,
    nextToken (H := ascii_decoder) (mkTokenizer (bytes_of "junk %PDF-1.4" ++ [10; 49]) 0)
    = (mkTokenizer (bytes_of "junk %PDF-1.4" ++ [10; 49]) endPos,
       Return (mkTok HEADER (VToken HEADER (VString (bytes_of "%PDF-1.4"))))) ∧
    endPos = 13%nat.
Proof.
  pose proof (nextToken_first_is_header (H := ascii_decoder)
                (mkTokenizer (bytes_of "junk %PDF-1.4" ++ [10; 49]) 0) eq_refl) as Hh.
  destruct Hh as (endPos & Hcall & _ & _ & _).
  assert (endPos = 13%nat) as Hpos.
  { pose proof Hcall as Hc. vm_compute in Hc. injection Hc as Hc _. symmetry. exact Hc. }
  exists endPos. split; [|exact Hpos]. rewrite Hcall, Hpos. reflexivity.
Defined.

Lemma nextToken_progress_witness :
  nextToken (H := ascii_decoder) (mkTokenizer (bytes_of "x [1]") 2)
  = (mkTokenizer (bytes_of "x [1]") 3, Return (mkTok ARRAY_START (VString (bytes_of "[")))) ∧
  (2 ≤ 3)%nat.
Proof.
  assert (nextToken (H := ascii_decoder) (mkTokenizer (bytes_of "x [1]") 2)
          = (mkTokenizer (bytes_of "x [1]") 3,
             Return (mkTok ARRAY_START (VString (bytes_of "[")))))
    as Hcall by (vm_compute; reflexivity).
  split; [exact Hcall|].
  exact (proj1 (proj2 (nextToken_progress (H := ascii_decoder) _ _ _ Hcall))).
Defined.

Lemma getAllTokens_stray_delimiter_witness :
  (getAllTokens (H := ascii_decoder) 100
     (mkTokenizer (bytes_of "%PDF-1.4" ++ [10] ++ bytes_of ") 1 0 obj") 0)).2
  = Throw OutOfFuel.
Proof.
  apply (proj2 (getAllTokens_stray_delimiter (H := ascii_decoder) 41 (or_introl eq_refl))
           (bytes_of "1.4") (bytes_of " 1 0 obj") 100%nat).
  repeat constructor.
Defined.

Lemma nextToken_integer_witness :
  nextToken (H := ascii_decoder) (at_ [32] (bytes_of "-12 "))
  = (at_ (bytes_of " -12") [32], Return (mkTok INTEGER (VNumber (Some (-12))))).
Proof.
  apply (nextToken_integer (H := ascii_decoder) [32] [45] [1; 2] [32]).
  - discriminate.
  - right. right. reflexivity.
  - discriminate.
  - repeat constructor; lia.
  - simpl. lia.
  - split; [reflexivity|discriminate].
Defined.

Lemma nextToken_keyword_witness :
  nextToken (H := ascii_decoder) (at_ [32] (bytes_of ".5"))
  = (at_ (bytes_of " .5") [], Return (mkTok KEYWORD (VString (bytes_of ".5")))).
Proof.
  apply (nextToken_keyword (H := ascii_decoder) [32] 46 [53] []).
  - discriminate.
  - repeat constructor; lia.
  - reflexivity.
  - exact I.
  - apply (bool_decide_unpack _). vm_compute. exact I.
Defined.

Lemma nextToken_name_witness :
  nextToken (H := ascii_decoder) (at_ [32] (bytes_of "/A#42 "))
  = (at_ (bytes_of " /A#42") [32], Return (mkTok NAME (VString (bytes_of "AB")))).
Proof.
  apply (proj1 (nextToken_name (H := ascii_decoder) [32] (bytes_of "A#42") [32]
                  ltac:(discriminate) ltac:(repeat constructor; lia) eq_refl)).
Defined.

Lemma nextToken_stream_witness :
  nextToken (H := ascii_decoder)
    (at_ [32] (bytes_of "stream" ++ [13; 10] ++ bytes_of "abc" ++ endstream ++ bytes_of " endobj"))
  = (at_ ([32] ++ bytes_of "stream" ++ [13; 10] ++ bytes_of "abc" ++ endstream)
         (bytes_of " endobj"),
     Return (mkTok STREAM (VBuffer (bytes_of "abc")))).
Proof.
  apply (proj1 (nextToken_stream (H := ascii_decoder) [32] [13; 10] (bytes_of "abc")
                  (bytes_of " endobj")
                  ltac:(discriminate) ltac:(discriminate) ltac:(repeat constructor)
                  eq_refl)).
  reflexivity.
Defined.

Lemma getAllTokens_shape_witness :
  ∃ this' header middle,
    getAllTokens (H := ascii_decoder) 10
      (mkTokenizer (bytes_of "%PDF-1.4" ++ [10] ++ bytes_of "1 0 obj") 0)
    = (this', Return (header :: middle ++ [mkTok EOF VNull])) ∧
    tok_type header = HEADER ∧ length middle = 3%nat ∧ isEOF this' = true.
Proof.
  destruct (getAllTokens (H := ascii_decoder) 10
              (mkTokenizer (bytes_of "%PDF-1.4" ++ [10] ++ bytes_of "1 0 obj") 0))
    as [this' [tokens|e]] eqn:Hcall; [|vm_compute in Hcall; discriminate Hcall].
  destruct (getAllTokens_shape (H := ascii_decoder) 10
              (mkTokenizer (bytes_of "%PDF-1.4" ++ [10] ++ bytes_of "1 0 obj") 0)
              this' tokens eq_refl Hcall)
    as (header & middle & -> & Hh & _ & Heof & _).
  exists this', header, middle. split; [reflexivity|]. split; [exact Hh|].
  split; [|exact Heof].
  assert (match (getAllTokens (H := ascii_decoder) 10
                   (mkTokenizer (bytes_of "%PDF-1.4" ++ [10] ++ bytes_of "1 0 obj") 0)).2 with
          | Return l => length l
          | Throw _ => 0%nat
          end = 5%nat) as Hlen by (vm_compute; reflexivity).
  rewrite Hcall in Hlen. simpl in Hlen. rewrite length_app in Hlen. simpl in Hlen. lia.
Defined.

Lemma nextToken_literal_round_trip_witness :
  nextToken (H := ascii_decoder) (at_ [32] (bytes_of "(a\(b\)) "))
  = (at_ (bytes_of " (a\(b\))") [32], Return (mkTok STRING (VString (bytes_of "a(b)")))).
Proof.
  apply (nextToken_literal_round_trip (H := ascii_decoder) [32] (bytes_of "a(b)") [32]).
  - discriminate.
  - repeat constructor; lia.
Defined.

Lemma nextToken_hex_round_trip_witness :
  nextToken (H := ascii_decoder) (at_ [32] (bytes_of "<4142> "))
  = (at_ (bytes_of " <4142>") [32], Return (mkTok HEX_STRING (VString (bytes_of "AB")))).
Proof.
  apply (proj1 (nextToken_hex_round_trip (H := ascii_decoder) [32] (bytes_of "AB") [32]
                  ltac:(discriminate) ltac:(repeat constructor; lia))).
Defined.

End TokenizerFacts.

(** ** The structure parser *)
Module ParserFacts.
Import Parser.

Lemma peek_drop k toks idx m objs x tr ver l :
  drop idx toks = l →
  peek k (mkParser toks idx m objs x tr ver)
  = (mkParser toks idx m objs x tr ver, Return (l !! k)).
Proof. intros <-. unfold peek. simpl. by rewrite lookup_drop. Qed.

Lemma drop_step {A} (l : list A) n a r : drop n l = a :: r → drop (S n) l = r.
Proof.
  intros H. replace (S n) with (n + 1)%nat by lia.
  rewrite <- drop_drop, H. done.
Qed.

Lemma drop_steps {A} (l : list A) n p r : drop n l = p ++ r → drop (n + length p) l = r.
Proof.
  intros H. rewrite <- drop_drop, H. by rewrite drop_app_length.
Qed.

Lemma bind_step {A B} (m : M A) (f : A → M B) this this1 a :
  m this = (this1, Return a) → bind m f this = f a this1.
Proof. unfold bind. by intros ->. Qed.

Lemma skip_eq toks idx m objs x tr ver :
  skip (mkParser toks idx m objs x tr ver)
  = (mkParser toks (S idx) m objs x tr ver, Return tt).
Proof. reflexivity. Qed.

Ltac step_peek k H := erewrite (bind_step (peek k)) by (apply peek_drop; exact H).
Ltac step_skip := erewrite (bind_step skip) by apply skip_eq.
Ltac decide_types :=
  repeat match goal with
  | |- context [bool_decide (?a = ?b)] =>
      let v := eval vm_compute in (bool_decide (a = b)) in
      change (bool_decide (a = b)) with v
  | |- context [bool_decide (?a ≠ ?b)] =>
      let v := eval vm_compute in (bool_decide (a ≠ b)) in
      change (bool_decide (a ≠ b)) with v
  end.

(** A value written flat parses to its object, the cursor moving past its
    tokens, when the token after it is not an integer. *)
Lemma parseNextObject_flat v f toks idx m objs x tr ver nxt rest :
  drop idx toks = value_tokens v ++ nxt :: rest →
  type nxt ≠ INTEGER →
  parseNextObject (S f) (mkParser toks idx m objs x tr ver)
  = (mkParser toks (idx + length (value_tokens v)) m objs x tr ver,
     Return (value_object v)).
Proof.
  intros Hd Hn. cbn [parseNextObject]. step_peek 0%nat Hd.
  destruct v; cbn [value_tokens app lookup list_lookup length value_object] in *;
    try (step_skip; rewrite Nat.add_1_r; reflexivity).
  - (* an integer followed by something that is no integer *)
    step_peek 1%nat Hd. step_peek 2%nat Hd.
    cbn [lookup list_lookup].
    assert (is_type INTEGER (Some nxt) = false) as -> by (simpl; by apply bool_decide_eq_false).
    cbn [andb]. step_skip. rewrite Nat.add_1_r. reflexivity.
  - (* a reference *)
    step_peek 1%nat Hd. step_peek 2%nat Hd.
    cbn [lookup list_lookup is_type type]. 
    decide_types. cbn [andb].
    unfold parseIndirectReference.
    step_peek 0%nat Hd. step_skip.
    pose proof (drop_step _ _ _ _ Hd) as Hd1. step_peek 0%nat Hd1.
    step_skip. step_skip.
    cbn [lookup list_lookup int_value]. unfold ret. do 2 f_equal. lia.
Qed.

Lemma nextToken_drop toks idx m objs x tr ver t r :
  drop idx toks = t :: r →
  nextToken (mkParser toks idx m objs x tr ver)
  = (mkParser toks (S idx) m objs x tr ver, Return (Some t)).
Proof.
  intros H. unfold nextToken. simpl.
  assert (toks !! idx = Some t) as ->; [|done].
  rewrite <- (Nat.add_0_r idx), <- lookup_drop, H. done.
Qed.

Ltac step_next H := erewrite (bind_step nextToken) by (eapply nextToken_drop; exact H).

Lemma value_tokens_head v l : ∃ t l', value_tokens v ++ l = t :: l'.
Proof. destruct v; simpl; eauto. Qed.

Lemma entry_tokens_next entries rest :
  ∃ nxt l, entry_tokens entries ++ TDictEnd :: rest = nxt :: l ∧ type nxt ≠ INTEGER.
Proof.
  destruct entries as [|[k v] entries]; simpl; eexists _, _; split; try reflexivity; done.
Qed.

(** The loop of [parseDictionary] over entries written flat: it sets them
    one after the other and stops before the closing token. *)
Lemma parseDictionary_loop_flat entries : ∀ fuel f d toks idx m objs x tr ver rest,
  drop idx toks = entry_tokens entries ++ TDictEnd :: rest →
  (length entries ≤ fuel)%nat →
  parseDictionary_loop fuel (parseNextObject (S f)) d (mkParser toks idx m objs x tr ver)
  = (mkParser toks (idx + length (entry_tokens entries)) m objs x tr ver,
     Return (entries_dict entries d)).
Proof.
  induction entries as [|[k v] entries IH]; intros fuel f d toks idx m objs x tr ver rest Hd Hf.
  - simpl in Hd. destruct fuel; cbn [parseDictionary_loop]; step_peek 0%nat Hd;
      cbn [lookup list_lookup type]; decide_types; simpl; by rewrite Nat.add_0_r.
  - destruct fuel as [|fuel]; [simpl in Hf; lia|].
    cbn [entry_tokens flat_map fst snd app] in Hd.
    change (flat_map _ entries) with (entry_tokens entries) in Hd.
    rewrite <- app_assoc in Hd.
    cbn [parseDictionary_loop]. step_peek 0%nat Hd.
    cbn [lookup list_lookup type]. decide_types. cbn iota. step_skip.
    pose proof (drop_step _ _ _ _ Hd) as Hd1.
    destruct (value_tokens_head v (entry_tokens entries ++ TDictEnd :: rest))
      as (t & l' & Hhead).
    assert (drop (S idx) toks = t :: l') as Hd1' by (by rewrite Hd1, Hhead).
    step_peek 0%nat Hd1'. cbn [lookup list_lookup].
    destruct (entry_tokens_next entries rest) as (nxt & l & Hnext & Hnxt).
    rewrite Hnext in Hd1.
    erewrite (bind_step (parseNextObject (S f)))
      by (eapply parseNextObject_flat; [exact Hd1|exact Hnxt]).
    rewrite <- Hnext in Hd1. apply drop_steps in Hd1.
    rewrite (IH fuel f _ toks _ m objs x tr ver rest Hd1) by (simpl in Hf; lia).
    cbn [entry_tokens flat_map fst snd].
    change (flat_map _ entries) with (entry_tokens entries).
    rewrite !length_app. cbn [length entries_dict foldl fst snd].
    do 2 f_equal. lia.
Qed.

Lemma dict_set_keys k v d k' :
  is_Some (dict_get k' (dict_set k v d)) ↔ k' = k ∨ is_Some (dict_get k' d).
Proof.
  induction d as [|[k0 v0] d IH]; simpl.
  - case_decide; [subst; split; eauto|]. split; [by intros []|]. intros [->|[]]; done.
  - destruct (decide (k0 = k)) as [->|Hne]; simpl.
    + destruct (decide (k = k')) as [->|Hne']; [split; eauto|]. split; [eauto|].
      intros [->|]; done.
    + destruct (decide (k0 = k')) as [->|Hne']; [split; eauto|]. done.
Qed.

(** A key that no entry is written with is not in the Map. *)
Lemma entries_dict_absent k entries : ∀ d,
  k ∉ entries.*1 → dict_get k d = None → dict_get k (entries_dict entries d) = None.
Proof.
  induction entries as [|[k0 v0] entries IH]; intros d Hk Hd; [done|].
  simpl in *. apply not_elem_of_cons in Hk as [Hne Hk]. apply IH; [done|].
  apply eq_None_not_Some. rewrite dict_set_keys. intros [->|H]; [done|].
  rewrite Hd in H. by destruct H.
Qed.

(** C5, as stated, fails: the file whose trailer dictionary is empty parses
    to the end, and the trailer it records has neither Size nor Root. *)
Lemma empty_trailer_parses :
  let res := parse 3 (constructor (file_with_trailer [] 0)) in
  res.2 = Return tt ∧
  (Size <$> getTrailer res.1) = Some None ∧
  (Root <$> getTrailer res.1) = Some None ∧
  getRootObjectId res.1 = ONull.
Proof. repeat split. Qed.

(** [parseTrailer] on a trailer written flat, whatever was parsed before
    and whatever follows: it returns, past the trailer, having recorded the
    dictionary as it is. *)
Lemma parseTrailer_flat entries startxref f toks idx m objs x tr ver rest :
  drop idx toks = trailer_tokens entries startxref ++ rest →
  (length entries ≤ S f)%nat →
  parseTrailer (S f) (mkParser toks idx m objs x tr ver)
  = (mkParser toks (idx + length (trailer_tokens entries startxref)) m objs x
       (Some (trailer_of (entries_dict entries []))) ver, Return tt).
Proof.
  intros H0 Hf. unfold trailer_tokens in *.
  cbn [app] in H0. rewrite <- !app_assoc in H0. cbn [app] in H0.
  pose proof (drop_step _ _ _ _ H0) as H1.
  pose proof (drop_step _ _ _ _ H1) as H2.
  pose proof (drop_steps toks (S (S idx)) (entry_tokens entries) _ H2) as H3.
  pose proof (drop_step _ _ _ _ H3) as H4.
  pose proof (drop_step _ _ _ _ H4) as H5.
  unfold parseTrailer.
  step_next H0. cbn [is_keyword]. decide_types. cbn [negb].
  step_next H1. cbn [is_type type]. decide_types. cbn [negb].
  erewrite (bind_step backToken) by reflexivity.
  cbn [Nat.ltb Nat.leb Nat.sub].
  erewrite (bind_step (parseDictionary _ _)); cycle 1.
  { unfold parseDictionary. step_skip.
    erewrite (bind_step (parseDictionary_loop _ _ _))
      by (eapply parseDictionary_loop_flat; [exact H2|lia]).
    step_peek 0%nat H3. cbn [lookup list_lookup]. step_skip.
    step_peek 0%nat H4. reflexivity. }
  cbn [get_entry].
  do 6 (erewrite (bind_step (ret _)) by reflexivity).
  erewrite (bind_step (set_trailer _)) by reflexivity.
  step_next H4. cbn [is_keyword]. decide_types. cbn [negb].
  step_next H5. cbn [is_type type]. decide_types. cbn [negb].
  unfold ret, trailer_of. do 2 f_equal.
  cbn [tokens currentTokenIndex]. rewrite !length_app. simpl. lia.
Qed.

(** C5, amended: [parse] does not look for Size or Root.  A trailer whose
    dictionary is written flat, with whatever keys, is accepted by
    [parseTrailer] after whatever body, and a file with such a trailer parses
    to the end (given fuel for its entries); the trailer recorded holds under
    Size and Root what the dictionary holds under those keys, and holds
    nothing there when the dictionary has no such key. *)
Theorem trailer_keys_not_required entries startxref fuel :
  (length entries + 2 ≤ fuel)%nat →
  (∀ this rest, remaining this = trailer_tokens entries startxref ++ rest →
     ∃ this', parseTrailer fuel this = (this', Return tt) ∧
              remaining this' = rest ∧
              getTrailer this' = Some (trailer_of (entries_dict entries []))) ∧
  (∃ this,
     parse fuel (constructor (file_with_trailer entries startxref)) = (this, Return tt) ∧
     getTrailer this = Some (trailer_of (entries_dict entries []))) ∧
  ("Size" ∉ entries.*1 → Size (trailer_of (entries_dict entries [])) = None) ∧
  ("Root" ∉ entries.*1 → Root (trailer_of (entries_dict entries [])) = None).
Proof.
  intros Hfuel.
  destruct fuel as [|[|f]]; [lia|lia|].
  split; [|split].
  - intros [toks idx m objs x tr ver] rest Hrem. unfold remaining in Hrem.
    cbn [currentTokenIndex tokens] in Hrem.
    eexists. split; [apply (parseTrailer_flat _ _ _ _ _ _ _ _ _ _ rest Hrem); lia|].
    split; [|reflexivity]. unfold remaining. cbn [currentTokenIndex tokens].
    by apply drop_steps.
  - set (toks := file_with_trailer entries startxref).
    assert (drop 0 toks = THeader "%PDF-1.7" :: TKeyword "xref" ::
              trailer_tokens entries startxref ++ [TEOF]) as H0 by done.
    pose proof (drop_step toks 0 _ _ H0) as H1.
    pose proof (drop_step _ _ _ _ H1) as H2.
    pose proof (drop_steps toks 2 (trailer_tokens entries startxref) _ H2) as H3.
    assert (∃ l, drop 2 toks = TKeyword "trailer" :: l) as [l H2'] by (rewrite H2; by eexists).
    eexists. split.
    { unfold parse, constructor. fold toks.
      erewrite (bind_step parseHeader); cycle 1.
      { unfold parseHeader. step_next H0. reflexivity. }
      erewrite (bind_step (parse_loop _)); cycle 1.
      { cbn [parse_loop].
        (* parseBody: the body is empty *)
        erewrite (bind_step (parseBody _)); cycle 1.
        { cbn [parseBody]. step_peek 0%nat H1. reflexivity. }
        erewrite (bind_step (parseXRefAndTrailer _)); cycle 1.
        { unfold parseXRefAndTrailer. step_next H1. cbn [is_keyword]. decide_types.
          cbn [negb].
          (* parseXRefTable: no subsection *)
          erewrite (bind_step (parseXRefTable _)); cycle 1.
          { cbn [parseXRefTable]. step_next H2'. reflexivity. }
          apply (parseTrailer_flat _ _ _ _ _ _ _ _ _ _ [TEOF] H2); lia. }
        step_peek 0%nat H3. reflexivity. }
      step_next H3. reflexivity. }
    reflexivity.
  - split; intros Hk; by apply entries_dict_absent.
Qed.

Lemma trailer_keys_not_required_witness :
  ∃ this tr,
    parse 3 (constructor (file_with_trailer [("Size", FInt 6)] 420)) = (this, Return tt) ∧
    getTrailer this = Some tr ∧ Size tr = Some (ONumber 6) ∧ Root tr = None.
Proof.
  destruct (trailer_keys_not_required [("Size", FInt 6)] 420 3 ltac:(simpl; lia))
    as (_ & (this & Hparse & Htr) & _ & Hroot).
  exists this, (trailer_of (entries_dict [("Size", FInt 6)] [])).
  split; [exact Hparse|]. split; [exact Htr|]. split; [reflexivity|].
  apply Hroot. simpl. intros H. apply list_elem_of_singleton in H. discriminate H.
Defined.


(** No value starts with a token that closes, or that belongs to the
    structure of the file. *)
Lemma tokens_of_head v l :
  ∃ t l', tokens_of v ++ l = t :: l' ∧
    type t ≠ ARRAY_END ∧ type t ≠ DICT_END ∧ type t ≠ STREAM ∧
    type t ≠ OBJ_START ∧ type t ≠ INDIRECT_REFERENCE.
Proof. destruct v as [[]| | |]; simpl; eexists _, _; (split; [reflexivity|done]). Qed.

(** After an item of an array comes another item or the closing bracket. *)
Lemma follows_items items rest :
  follows (flat_map tokens_of items ++ TArrayEnd :: rest).
Proof.
  destruct items as [|v items]; [done|]. cbn [flat_map]. rewrite <- app_assoc.
  destruct v as [[]| | |]; try done; simpl.
  destruct items as [|v' items]; [done|]. cbn [flat_map]. rewrite <- app_assoc.
  destruct (tokens_of_head v' (flat_map tokens_of items ++ TArrayEnd :: rest))
    as (t & l' & -> & _ & _ & _ & ? & ?). done.
Qed.

(** After a value of a dictionary comes a key or the closing token. *)
Lemma follows_entries entries rest :
  follows (entries_tokens entries ++ TDictEnd :: rest).
Proof. by destruct entries. Qed.

Lemma need_items {A} (f : A → nat) (l : list A) k n :
  (foldr (λ a n, Nat.max (f a) n) k l ≤ n)%nat ↔ (k ≤ n)%nat ∧ Forall (λ a, (f a ≤ n)%nat) l.
Proof.
  induction l as [|a l IH]; simpl.
  - split; [intros; split; [done|constructor]|by intros []].
  - rewrite Forall_cons. rewrite Nat.max_lub_iff, IH. tauto.
Qed.

Lemma parseArray_loop_unfold fuel p array :
  parseArray_loop fuel p array =
  let! t := peek 0 in
  match t with
  | Some t0 =>
      if bool_decide (type t0 ≠ ARRAY_END) then
        match fuel with
        | O => throw OutOfFuel
        | S fuel' => let! item := p in parseArray_loop fuel' p (array ++ [item])
        end
      else ret array
  | None => ret array
  end.
Proof. by destruct fuel. Qed.

Lemma parseArray_loop_values items : ∀ fuel f acc toks idx m objs x tr ver rest,
  Forall parses items →
  drop idx toks = flat_map tokens_of items ++ TArrayEnd :: rest →
  (length items ≤ fuel)%nat → Forall (λ v, (need v ≤ f)%nat) items →
  parseArray_loop fuel (parseNextObject f) acc (mkParser toks idx m objs x tr ver)
  = (mkParser toks (idx + length (flat_map tokens_of items)) m objs x tr ver,
     Return (acc ++ (object_of <$> items))).
Proof.
  induction items as [|v items IH];
    intros fuel f acc toks idx m objs x tr ver rest HP Hd Hlen Hneed.
  - simpl in Hd. rewrite parseArray_loop_unfold. step_peek 0%nat Hd.
    cbn [lookup list_lookup type]. decide_types. unfold ret. simpl.
    by rewrite Nat.add_0_r, app_nil_r.
  - apply Forall_cons in HP as [Hv HP]. apply Forall_cons in Hneed as [Hnv Hneed].
    cbn [flat_map] in Hd. rewrite <- app_assoc in Hd.
    destruct (tokens_of_head v (flat_map tokens_of items ++ TArrayEnd :: rest))
      as (t & l' & Hhead & Ht & _).
    assert (drop idx toks = t :: l') as Hd' by (by rewrite Hd).
    rewrite parseArray_loop_unfold. step_peek 0%nat Hd'. cbn [lookup list_lookup].
    rewrite bool_decide_eq_true_2 by done.
    destruct fuel as [|fuel]; [simpl in Hlen; lia|].
    erewrite (bind_step (parseNextObject f))
      by (eapply Hv; [exact Hd|apply follows_items|done]).
    apply drop_steps in Hd.
    rewrite (IH fuel f _ toks _ m objs x tr ver rest HP Hd) by (simpl in Hlen; done || lia).
    cbn [flat_map fmap list_fmap]. rewrite length_app, <- (app_assoc acc).
    do 2 f_equal. lia.
Qed.

Lemma parseDictionary_loop_unfold fuel p dictionary :
  parseDictionary_loop fuel p dictionary =
  let! t := peek 0 in
  match t with
  | Some t0 =>
      if bool_decide (type t0 ≠ DICT_END) then
        match fuel with
        | O => throw OutOfFuel
        | S fuel' =>
            match t0 with
            | TName key =>
                let! _ := skip in
                let! t' := peek 0 in
                match t' with
                | Some _ =>
                    let! value := p in
                    parseDictionary_loop fuel' p (dict_set key value dictionary)
                | None => parseDictionary_loop fuel' p dictionary
                end
            | _ =>
                let! _ := skip in
                parseDictionary_loop fuel' p dictionary
            end
        end
      else ret dictionary
  | None => ret dictionary
  end.
Proof. by destruct fuel. Qed.

Lemma parseDictionary_loop_values entries : ∀ fuel f d toks idx m objs x tr ver rest,
  Forall (λ kv, parses kv.2) entries →
  drop idx toks = entries_tokens entries ++ TDictEnd :: rest →
  (length entries ≤ fuel)%nat → Forall (λ kv, (need kv.2 ≤ f)%nat) entries →
  parseDictionary_loop fuel (parseNextObject f) d (mkParser toks idx m objs x tr ver)
  = (mkParser toks (idx + length (entries_tokens entries)) m objs x tr ver,
     Return (set_all entries d)).
Proof.
  induction entries as [|[k v] entries IH];
    intros fuel f d toks idx m objs x tr ver rest HP Hd Hlen Hneed.
  - simpl in Hd. rewrite parseDictionary_loop_unfold. step_peek 0%nat Hd.
    cbn [lookup list_lookup type]. decide_types. unfold ret. simpl.
    by rewrite Nat.add_0_r.
  - apply Forall_cons in HP as [Hv HP]. apply Forall_cons in Hneed as [Hnv Hneed].
    cbn [fst snd] in Hv, Hnv.
    cbn [entries_tokens flat_map fst snd app] in Hd. fold (entries_tokens entries) in Hd.
    rewrite <- app_assoc in Hd.
    pose proof (drop_step _ _ _ _ Hd) as Hd1.
    destruct (tokens_of_head v (entries_tokens entries ++ TDictEnd :: rest))
      as (t & l' & Hhead & _).
    assert (drop (S idx) toks = t :: l') as Hd1' by (by rewrite Hd1).
    rewrite parseDictionary_loop_unfold. step_peek 0%nat Hd.
    cbn [lookup list_lookup type]. decide_types. cbn iota.
    destruct fuel as [|fuel]; [simpl in Hlen; lia|].
    step_skip. step_peek 0%nat Hd1'. cbn [lookup list_lookup].
    erewrite (bind_step (parseNextObject f))
      by (eapply Hv; [exact Hd1|apply follows_entries|done]).
    apply drop_steps in Hd1.
    rewrite (IH fuel f _ toks _ m objs x tr ver rest HP Hd1) by (simpl in Hlen; done || lia).
    cbn [entries_tokens flat_map fst snd set_all foldl]. fold (entries_tokens entries).
    cbn [length]. rewrite length_app. do 2 f_equal. simpl. lia.
Qed.

(** [parseDictionary] over a dictionary as written, with or without
    stream data behind it. *)
Lemma parseDictionary_values entries fuel f toks idx m objs x tr ver rest :
  Forall (λ kv, parses kv.2) entries →
  drop idx toks = TDictStart :: entries_tokens entries ++ TDictEnd :: rest →
  (length entries ≤ fuel)%nat → Forall (λ kv, (need kv.2 ≤ f)%nat) entries →
  parseDictionary fuel (parseNextObject f) (mkParser toks idx m objs x tr ver)
  = match rest with
    | TStream data :: _ =>
        (mkParser toks (idx + length (entries_tokens entries) + 3) m objs x tr ver,
         Return (OStream (set_all entries []) data))
    | _ =>
        (mkParser toks (idx + length (entries_tokens entries) + 2) m objs x tr ver,
         Return (ODict (set_all entries [])))
    end.
Proof.
  intros HP H0 Hlen Hneed.
  pose proof (drop_step _ _ _ _ H0) as H1.
  pose proof (drop_steps _ _ _ _ H1) as H2.
  pose proof (drop_step _ _ _ _ H2) as H3.
  unfold parseDictionary. step_skip.
  erewrite (bind_step (parseDictionary_loop _ _ _))
    by (eapply parseDictionary_loop_values; [exact HP|exact H1|done|done]).
  step_peek 0%nat H2. cbn [lookup list_lookup]. step_skip. step_peek 0%nat H3.
  destruct rest as [|t rest]; cbn [lookup list_lookup is_type].
  - unfold ret. do 2 f_equal. lia.
  - destruct t; cbn [type]; decide_types; cbv iota;
      try (unfold ret; do 2 f_equal; lia).
    unfold parseStream. step_peek 0%nat H3. cbn [lookup list_lookup]. step_skip.
    unfold ret. do 2 f_equal. lia.
Qed.

(** [parseNextObject] reads a value as written, whatever its depth, and
    leaves the cursor behind it. *)
Lemma parseNextObject_value v : parses v.
Proof.
  induction v as [v|items IH|entries IH|entries data IH] using Value_deep_ind;
    intros fuel toks idx m objs x tr ver rest Hd Hfol Hneed.
  - destruct fuel as [|fuel]; [simpl in Hneed; lia|].
    cbn [parseNextObject]. cbn [tokens_of object_of] in *. step_peek 0%nat Hd.
    destruct v; cbn [value_tokens app lookup list_lookup length value_object] in *;
      try (step_skip; rewrite Nat.add_1_r; reflexivity).
    + step_peek 1%nat Hd. step_peek 2%nat Hd.
      assert (is_type INTEGER ((TInteger n :: rest) !! 1%nat)
              && is_type OBJ_START ((TInteger n :: rest) !! 2%nat) = false
              ∧ is_type INTEGER ((TInteger n :: rest) !! 1%nat)
                && is_type INDIRECT_REFERENCE ((TInteger n :: rest) !! 2%nat) = false)
        as [-> ->].
      { destruct rest as [|t [|t' rest]]; [done| |].
        - simpl. by rewrite !andb_false_r.
        - destruct t; try done. destruct Hfol as [? ?]. simpl.
          by rewrite !bool_decide_eq_false_2. }
      cbn [lookup list_lookup]. step_skip. rewrite Nat.add_1_r. reflexivity.
    + step_peek 1%nat Hd. step_peek 2%nat Hd.
      cbn [lookup list_lookup is_type type]. decide_types. cbn [andb].
      unfold parseIndirectReference.
      step_peek 0%nat Hd. step_skip.
      pose proof (drop_step _ _ _ _ Hd) as Hd1. step_peek 0%nat Hd1.
      step_skip. step_skip.
      cbn [lookup list_lookup int_value]. unfold ret. do 2 f_equal. lia.
  - destruct fuel as [|fuel]; [simpl in Hneed; lia|].
    cbn [need] in Hneed. apply le_S_n in Hneed. apply need_items in Hneed as [Hlen Hneed].
    cbn [tokens_of] in Hd. cbn [app] in Hd. rewrite <- app_assoc in Hd. cbn [app] in Hd.
    pose proof (drop_step _ _ _ _ Hd) as H1.
    pose proof (drop_steps _ _ _ _ H1) as H2.
    cbn [parseNextObject]. step_peek 0%nat Hd. cbn [lookup list_lookup].
    unfold parseArray. step_skip.
    erewrite (bind_step (parseArray_loop _ _ _))
      by (eapply parseArray_loop_values; [exact IH|exact H1|done|done]).
    step_peek 0%nat H2. cbn [lookup list_lookup]. step_skip.
    unfold ret. cbn [tokens_of object_of length app]. rewrite length_app.
    do 2 f_equal. simpl. lia.
  - destruct fuel as [|fuel]; [simpl in Hneed; lia|].
    cbn [need] in Hneed. apply le_S_n in Hneed. apply need_items in Hneed as [Hlen Hneed].
    cbn [tokens_of] in Hd. fold (entries_tokens entries) in Hd.
    cbn [app] in Hd. rewrite <- app_assoc in Hd. cbn [app] in Hd.
    cbn [parseNextObject]. step_peek 0%nat Hd. cbn [lookup list_lookup].
    rewrite (parseDictionary_values entries fuel fuel toks idx m objs x tr ver rest IH Hd)
      by done.
    cbn [tokens_of object_of length]. fold (entries_tokens entries). fold (set_all entries []).
    rewrite length_app.
    destruct rest as [|[] rest]; try done; do 2 f_equal; simpl; lia.
  - destruct fuel as [|fuel]; [simpl in Hneed; lia|].
    cbn [need] in Hneed. apply le_S_n in Hneed. apply need_items in Hneed as [Hlen Hneed].
    cbn [tokens_of] in Hd. fold (entries_tokens entries) in Hd.
    cbn [app] in Hd. rewrite <- app_assoc in Hd. cbn [app] in Hd.
    cbn [parseNextObject]. step_peek 0%nat Hd. cbn [lookup list_lookup].
    rewrite (parseDictionary_values entries fuel fuel toks idx m objs x tr ver
               (TStream data :: rest) IH Hd) by done.
    cbn [tokens_of object_of length]. fold (entries_tokens entries). fold (set_all entries []).
    rewrite length_app. do 2 f_equal. simpl. lia.
Qed.











(** [parseInt] gives back an integer below 10^21. *)
Lemma parseInt_number_small n : Z.abs n < 10 ^ 21 → parseInt_number n = n.
Proof.
  intros Hn. unfold parseInt_number.
  destruct (Z.ltb_spec (Z.abs n) (10 ^ 21)) as [_|Hge]; [reflexivity|lia].
Qed.

Lemma digits_upto_spec fuel : ∀ m, 0 < m → m < 10 * 2 ^ Z.of_nat fuel →
  1 ≤ digits_upto fuel m ∧
  (10 ^ (digits_upto fuel m - 1) ≤ m ∧ m < 10 ^ digits_upto fuel m).
Proof.
  induction fuel as [|fuel IH]; intros m Hpos Hm.
  - simpl in *. lia.
  - cbn [digits_upto]. destruct (Z.ltb_spec m 10) as [Hlt|Hge]; [simpl; lia|].
    assert (0 < m / 10) as Hq by (apply Z.div_str_pos; lia).
    assert (m / 10 < 10 * 2 ^ Z.of_nat fuel) as Hq'.
    { apply Z.div_lt_upper_bound; [lia|].
      rewrite Nat2Z.inj_succ, Z.pow_succ_r in Hm by lia. lia. }
    destruct (IH (m / 10) Hq Hq') as (Hd & Hlo & Hhi).
    set (d := digits_upto fuel (m / 10)) in *.
    split; [lia|].
    replace (1 + d - 1) with (Z.succ (d - 1)) by lia.
    replace (1 + d) with (Z.succ d) by lia.
    rewrite !Z.pow_succ_r by lia.
    pose proof (Z.div_mod m 10 ltac:(lia)) as Hdm.
    pose proof (Z.mod_pos_bound m 10 ltac:(lia)). lia.
Qed.

(** [digits] counts the decimal digits. *)
Lemma digits_spec m :
  0 < m → 1 ≤ digits m ∧ (10 ^ (digits m - 1) ≤ m ∧ m < 10 ^ digits m).
Proof.
  intros Hpos. apply digits_upto_spec; [done|].
  rewrite Z2Nat.id by apply Z.log2_nonneg.
  pose proof (Z.log2_spec m Hpos) as [_ Hlog].
  rewrite Z.pow_succ_r in Hlog by apply Z.log2_nonneg. lia.
Qed.

Lemma first_digit_range x : 0 < x → 1 ≤ first_digit x ∧ first_digit x ≤ 9.
Proof.
  intros Hpos. destruct (digits_spec x Hpos) as (Hd & Hlo & Hhi).
  unfold first_digit. set (unit := 10 ^ (digits x - 1)) in *.
  assert (0 < unit) as Hu by (apply Z.pow_pos_nonneg; lia).
  assert (1 ≤ x / unit) as H1 by (apply Z.div_le_lower_bound; lia).
  assert (x / unit < 10) as H9.
  { apply Z.div_lt_upper_bound; [done|].
    replace (digits x) with (Z.succ (digits x - 1)) in Hhi by lia.
    rewrite Z.pow_succ_r in Hhi by lia. fold unit in Hhi. lia. }
  destruct (_ =? x); [destruct (Z.eqb_spec (x / unit) 9)|]; lia.
Qed.

(** From 10^21 on [parseInt] gives a single digit with the sign of the
    number. *)
Lemma parseInt_number_large n :
  10 ^ 21 ≤ Z.abs n → ∃ d, (1 ≤ d ∧ d ≤ 9) ∧ parseInt_number n = Z.sgn n * d.
Proof.
  intros Hn. exists (first_digit (Z.abs n)). split; [apply first_digit_range; lia|].
  unfold parseInt_number. destruct (Z.ltb_spec (Z.abs n) (10 ^ 21)) as [Hlt|_]; [lia|done].
Qed.

(** From 10^21 on it gives the sign and the first digit of what [ToString]
    writes: [1e+21], [1.2345678901234568e+21], [-7e+22], and [1e+23] for the
    double next to 10^23. *)
Remark parseInt_number_exponent :
  parseInt_number 1000000000000000000000 = 1 ∧
  parseInt_number 1234567890123456774144 = 1 ∧
  parseInt_number (-70000000000000000000000) = -7 ∧
  parseInt_number 99999999999999991611392 = 1.
Proof. repeat split; vm_compute; reflexivity. Qed.













(** X21: [parseNextObject] reads back what a value is written with: flat
    values, references, arrays, dictionaries and streams, nested to any
    depth.  It returns the object the value stands for, leaves the cursor
    right behind the value and records nothing.  An integer, alone or in a
    reference, comes back as [parseInt] leaves it: itself when it is below
    10^21, cut to its sign and first digit from there on. *)
Theorem parseNextObject_reads_value v fuel this rest :
  remaining this = tokens_of v ++ rest → follows rest → (need v ≤ fuel)%nat →
  (∃ this', parseNextObject fuel this = (this', Return (object_of v)) ∧
     remaining this' = rest ∧ tokens this' = tokens this ∧
     getIndirectObjects this' = getIndirectObjects this ∧
     getObjects this' = getObjects this) ∧
  (∀ n, v = VFlat (FInt n) →
     (Z.abs n < 10 ^ 21 → object_of v = ONumber n) ∧
     (10 ^ 21 ≤ Z.abs n → ∃ d, (1 ≤ d ∧ d ≤ 9) ∧ object_of v = ONumber (Z.sgn n * d))) ∧
  (∀ n g, v = VFlat (FRef n g) → Z.abs n < 10 ^ 21 → Z.abs g < 10 ^ 21 →
     object_of v = ORef (mkRef n g)).
Proof.
  destruct this as [toks idx m objs x tr ver]. unfold remaining. cbn [tokens currentTokenIndex].
  intros Hd Hfol Hneed. split; [|split].
  - eexists. split; [by eapply parseNextObject_value|].
    unfold getObjects, getIndirectObjects.
    cbn [tokens currentTokenIndex objects indirectObjectsMap].
    split; [by apply drop_steps in Hd|done].
  - intros n ->. cbn [object_of value_object]. split.
    + intros Hn. by rewrite parseInt_number_small.
    + intros Hn. destruct (parseInt_number_large n Hn) as (d & Hrange & ->). by exists d.
  - intros n g -> Hn Hg. cbn [object_of value_object]. by rewrite !parseInt_number_small.
Qed.

(** X22: In a dictionary, tokens found where a key should be and that are no
    names are dropped without an error: the loop goes on behind them as if
    they had not been written. *)
Theorem parseDictionary_skips_junk junk : ∀ fuel p d this tail,
  Forall (λ t, type t ≠ NAME ∧ type t ≠ DICT_END) junk →
  remaining this = junk ++ tail →
  parseDictionary_loop (length junk + fuel) p d this
  = parseDictionary_loop fuel p d (set_index (currentTokenIndex this + length junk) this).
Proof.
  induction junk as [|t junk IH]; intros fuel p d [toks idx m objs x tr ver] tail Hj Hd.
  - unfold set_index. cbn [length tokens currentTokenIndex]. simpl. by rewrite Nat.add_0_r.
  - apply Forall_cons in Hj as [[Hn He] Hj]. unfold remaining in Hd.
    cbn [tokens currentTokenIndex app] in Hd.
    cbn [length Nat.add]. rewrite parseDictionary_loop_unfold. step_peek 0%nat Hd.
    cbn [lookup list_lookup]. rewrite bool_decide_eq_true_2 by done.
    assert (∀ k : M PDFDictionary,
              match t with
              | TName key =>
                  let! _ := skip in
                  let! t' := peek 0 in
                  match t' with
                  | Some _ =>
                      let! value := p in
                      parseDictionary_loop (length junk + fuel) p (dict_set key value d)
                  | None => parseDictionary_loop (length junk + fuel) p d
                  end
              | _ => let! _ := skip in k
              end = let! _ := skip in k) as -> by (intros k; by destruct t).
    step_skip. apply drop_step in Hd.
    rewrite (IH fuel p d (mkParser toks (S idx) m objs x tr ver) tail Hj Hd).
    unfold set_index. cbn [tokens currentTokenIndex indirectObjectsMap objects xrefTable
                           trailer version length].
    do 2 f_equal. lia.
Qed.

Lemma parseNextObject_reads_value_witness :
  let v := VDict [("Type", VFlat (FName "Pages"));
                  ("Kids", VArray [VFlat (FRef 3 0); VFlat (FInt 7)]);
                  ("Count", VFlat (FInt 1000000000000000000000))] in
  ∃ this',
    parseNextObject 4 (constructor (tokens_of v ++ [TObjEnd]))
    = (this', Return (ODict [("Type", OString "/Pages");
                             ("Kids", OArray [ORef (mkRef 3 0); ONumber 7]);
                             ("Count", ONumber 1)])) ∧
    remaining this' = [TObjEnd].
Proof.
  intros v.
  destruct (parseNextObject_reads_value v 4 (constructor (tokens_of v ++ [TObjEnd])) [TObjEnd]
              eq_refl I ltac:(simpl; lia)) as ((this' & Hcall & Hrest & _) & _).
  exists this'. split; [exact Hcall|exact Hrest].
Defined.

Lemma parseDictionary_skips_junk_witness :
  parseDictionary_loop 2 (parseNextObject 1) []
    (constructor [TInteger 5; TKeyword "x"; TDictEnd])
  = (set_index 2 (constructor [TInteger 5; TKeyword "x"; TDictEnd]), Return []).
Proof.
  etransitivity.
  - apply (parseDictionary_skips_junk [TInteger 5; TKeyword "x"] 0 (parseNextObject 1) []
             (constructor [TInteger 5; TKeyword "x"; TDictEnd]) [TDictEnd]).
    + repeat constructor; discriminate.
    + reflexivity.
  - reflexivity.
Defined.




End ParserFacts.

(** ** Rectangles and matrices *)
Module GeometryFacts.
Import Geometry Geometry.MatrixUtils Geometry.RectangleUtils.

Ltac bools :=
  repeat match goal with
  | H : _ && _ = true |- _ => apply andb_true_iff in H as [? ?]
  | H : _ || _ = false |- _ => apply orb_false_iff in H as [? ?]
  | H : negb _ = true |- _ => apply negb_true_iff in H
  | H : (_ <? _) = false |- _ => apply Z.ltb_ge in H
  | H : (_ <? _) = true |- _ => apply Z.ltb_lt in H
  | H : (_ <=? _) = true |- _ => apply Z.leb_le in H
  | H : (_ <=? _) = false |- _ => apply Z.leb_gt in H
  | H : (_ >=? _) = true |- _ => rewrite Z.geb_leb in H
  | H : (_ >=? _) = false |- _ => rewrite Z.geb_leb in H
  end.

Lemma containsPoint_spec rect p :
  containsPoint rect p = true ↔
  r0 rect ≤ x p ≤ r2 rect ∧ r1 rect ≤ y p ≤ r3 rect.
Proof.
  unfold containsPoint. rewrite !andb_true_iff, !Z.geb_leb, !Z.leb_le. lia.
Qed.

Lemma intersects_spec a b :
  intersects a b = true ↔
  r0 b ≤ r2 a ∧ r0 a ≤ r2 b ∧ r1 b ≤ r3 a ∧ r1 a ≤ r3 b.
Proof.
  unfold intersects. rewrite negb_true_iff, !orb_false_iff, !Z.ltb_ge. lia.
Qed.

Lemma intersection_spec a b r :
  intersection a b = Some r ↔
  r = mkRectangle (Z.max (r0 a) (r0 b)) (Z.max (r1 a) (r1 b))
                  (Z.min (r2 a) (r2 b)) (Z.min (r3 a) (r3 b)) ∧
  Z.max (r0 a) (r0 b) < Z.min (r2 a) (r2 b) ∧
  Z.max (r1 a) (r1 b) < Z.min (r3 a) (r3 b).
Proof.
  unfold intersection. cbv zeta.
  destruct (_ || _) eqn:Hc.
  - split; [done|]. intros (_ & H1 & H2).
    apply orb_true_iff in Hc as [Hc|Hc]; rewrite Z.geb_leb in Hc; apply Z.leb_le in Hc; lia.
  - bools. split; [intros [= <-]; split; [done|lia]|]. by intros [-> _].
Qed.

(** X23: The intersection of two rectangles, when there is one, has a positive
    width and height, contains exactly the points both contain, and does not
    depend on the order of the two; and then [intersects] holds. *)
Theorem intersection_sound a b r :
  intersection a b = Some r →
  intersects a b = true ∧
  0 < getWidth r ∧ 0 < getHeight r ∧
  (∀ p, containsPoint r p = containsPoint a p && containsPoint b p) ∧
  intersection b a = Some r.
Proof.
  intros H. apply intersection_spec in H as (-> & Hx & Hy).
  split; [apply intersects_spec; lia|].
  unfold getWidth, getHeight. simpl. split; [lia|]. split; [lia|]. split.
  - intros p. apply eq_true_iff_eq. rewrite andb_true_iff, !containsPoint_spec. simpl. lia.
  - apply intersection_spec. rewrite (Z.max_comm (r0 b)), (Z.max_comm (r1 b)),
      (Z.min_comm (r2 b)), (Z.min_comm (r3 b)). done.
Qed.

(** X24: [intersects] and [intersection] disagree on rectangles that only touch:
    a rectangle and its neighbour to the right share the points of an edge,
    [intersects] holds, and [intersection] is null. *)
Theorem touching_rectangles a w :
  r0 a ≤ r2 a → r1 a ≤ r3 a → 0 ≤ w →
  let b := create (r2 a) (r1 a) (r2 a + w) (r3 a) in
  intersects a b = true ∧
  intersection a b = None ∧
  ∀ p, x p = r2 a → r1 a ≤ y p ≤ r3 a →
       containsPoint a p = true ∧ containsPoint b p = true.
Proof.
  intros Hx Hy Hw b. split; [apply intersects_spec; simpl; lia|]. split.
  - destruct (intersection a b) as [r|] eqn:Hi; [|done].
    apply intersection_spec in Hi as (_ & Hlt & _). simpl in Hlt. lia.
  - intros p Hpx Hpy. rewrite !containsPoint_spec. simpl. lia.
Qed.

Lemma foldl_min_le l : ∀ a, foldl Z.min a l ≤ a ∧ Forall (λ b, foldl Z.min a l ≤ b) l.
Proof.
  induction l as [|b l IH]; intros a; simpl; [split; [lia|done]|].
  destruct (IH (Z.min a b)) as [H1 H2]. split; [lia|]. constructor; [lia|done].
Qed.

Lemma foldl_max_ge l : ∀ a, a ≤ foldl Z.max a l ∧ Forall (λ b, b ≤ foldl Z.max a l) l.
Proof.
  induction l as [|b l IH]; intros a; simpl; [split; [lia|done]|].
  destruct (IH (Z.max a b)) as [H1 H2]. split; [lia|]. constructor; [lia|done].
Qed.

Lemma foldl_min_in l : ∀ a, foldl Z.min a l ∈ a :: l.
Proof.
  induction l as [|b l IH]; intros a; simpl; [set_solver|].
  specialize (IH (Z.min a b)). destruct (Z.min_spec a b) as [[_ Hm]|[_ Hm]];
    rewrite Hm in *; set_solver.
Qed.

Lemma foldl_max_in l : ∀ a, foldl Z.max a l ∈ a :: l.
Proof.
  induction l as [|b l IH]; intros a; simpl; [set_solver|].
  specialize (IH (Z.max a b)). destruct (Z.max_spec a b) as [[_ Hm]|[_ Hm]];
    rewrite Hm in *; set_solver.
Qed.

(** X25: [transform] gives the bounding box of the images of the four corners:
    it contains each of them, every side of it passes through one of them,
    and it is never turned inside out. *)
Theorem transform_bounding_box rect matrix :
  let box := transform rect matrix in
  let images := (λ corner, transformPoint corner matrix) <$> corners rect in
  Forall (λ p, containsPoint box p = true) images ∧
  r0 box ∈ x <$> images ∧ r2 box ∈ x <$> images ∧
  r1 box ∈ y <$> images ∧ r3 box ∈ y <$> images ∧
  0 ≤ getWidth box ∧ 0 ≤ getHeight box.
Proof.
  intros box images. subst box. unfold transform. fold images.
  set (xs := x <$> images). set (ys := y <$> images).
  assert (∃ a l, xs = a :: l) as (ax & lx & Hxs) by (by eexists _, _).
  assert (∃ a l, ys = a :: l) as (ay & ly & Hys) by (by eexists _, _).
  cbn [r0 r1 r2 r3 getWidth getHeight]. rewrite Hxs, Hys. cbn [js_min js_max].
  pose proof (foldl_min_le lx ax) as [Hx1 Hx2]. pose proof (foldl_max_ge lx ax) as [Hx3 Hx4].
  pose proof (foldl_min_le ly ay) as [Hy1 Hy2]. pose proof (foldl_max_ge ly ay) as [Hy3 Hy4].
  split.
  { apply Forall_forall. intros p Hp. apply containsPoint_spec. cbn [r0 r1 r2 r3].
    assert (x p ∈ ax :: lx) as Hpx by (rewrite <- Hxs; by apply list_elem_of_fmap_2).
    assert (y p ∈ ay :: ly) as Hpy by (rewrite <- Hys; by apply list_elem_of_fmap_2).
    rewrite Forall_forall in Hx2, Hx4, Hy2, Hy4.
    assert (foldl Z.min ax lx ≤ x p ≤ foldl Z.max ax lx) as Hbx.
    { apply elem_of_cons in Hpx as [Heq|Hpx]; [rewrite Heq; lia|].
      split; [by apply Hx2|by apply Hx4]. }
    assert (foldl Z.min ay ly ≤ y p ≤ foldl Z.max ay ly) as Hby.
    { apply elem_of_cons in Hpy as [Heq|Hpy]; [rewrite Heq; lia|].
      split; [by apply Hy2|by apply Hy4]. }
    done. }
  split; [apply foldl_min_in|]. split; [apply foldl_max_in|].
  split; [apply foldl_min_in|]. split; [apply foldl_max_in|].
  unfold getWidth, getHeight. cbn [r0 r1 r2 r3]. lia.
Qed.

(** X26: In whole numbers, [multiply a b] is the map that applies [b] first and
    [a] second; the identity matrix is neutral, multiplication is
    associative, translations add up and determinants multiply. *)
Theorem multiply_composes a b :
  (∀ p, transformPoint p (multiply a b) = transformPoint (transformPoint p b) a) ∧
  multiply identity a = a ∧ multiply a identity = a ∧
  (∀ c, multiply (multiply a b) c = multiply a (multiply b c)) ∧
  (∀ tx ty tx' ty',
     multiply (translate tx ty) (translate tx' ty') = translate (tx + tx') (ty + ty')) ∧
  determinant (multiply a b) = determinant a * determinant b.
Proof.
  destruct a, b. unfold multiply, transformPoint, determinant, identity, translate. simpl.
  split; [intros [px py]; simpl; f_equal; lia|].
  split; [f_equal; lia|]. split; [f_equal; lia|].
  split; [intros []; simpl; f_equal; lia|].
  split; [intros; f_equal; lia|lia].
Qed.

Lemma intersection_sound_witness :
  let a := create 0 0 10 10 in
  let b := create 5 5 20 20 in
  let r := create 5 5 10 10 in
  intersection a b = Some r ∧ intersects a b = true ∧ intersection b a = Some r.
Proof.
  intros a b r.
  destruct (intersection_sound a b r eq_refl) as (Hi & _ & _ & _ & Hsym).
  split; [reflexivity|]. split; [exact Hi|exact Hsym].
Defined.

Lemma touching_rectangles_witness :
  let a := create 0 0 10 10 in
  let b := create 10 0 15 10 in
  intersects a b = true ∧ intersection a b = None.
Proof.
  intros a b.
  destruct (touching_rectangles a 5 ltac:(simpl; lia) ltac:(simpl; lia) ltac:(lia))
    as (Hi & Hn & _).
  split; [exact Hi|exact Hn].
Defined.

End GeometryFacts.
